(** * Readest document styling and paragraph navigation

    A shallow embedding of the two utility modules of the reader:
    - [utils/style.ts]: the font stacks of [getFontStyles] and the CSS rewrite
      [transformStylesheet];
    - [utils/paragraph.ts]: the block segmentation [ParagraphIterator.createAsync]
      and the cursor operations of [ParagraphIterator].

    The DOM interfaces the code calls ([Range], [TreeWalker], [Node]) are
    modelled after the algorithms of the DOM Standard over a finite tree. *)

From Stdlib Require Import List Bool Arith ZArith NArith Lia String Ascii.
Import ListNotations.

Set Implicit Arguments.

(* ====================================================================== *)
(** * JavaScript values shared by both modules *)
(* ====================================================================== *)

Module JS.

(** A JavaScript string is a sequence of UTF-16 code units. *)
Definition char16 := N.
Definition jsstring := list char16.

Definition code (a : ascii) : char16 := N_of_ascii a.

(** ASCII literals of the source, as code units. *)
Fixpoint str (s : string) : jsstring :=
  match s with
  | EmptyString => []
  | String a s' => code a :: str s'
  end.

Definition jsstring_eqb (a b : jsstring) : bool :=
  if list_eq_dec N.eq_dec a b then true else false.

(** [String.prototype.toLowerCase] on the ASCII range (tag names). *)
Definition lowerAscii (a : ascii) : ascii :=
  let n := nat_of_ascii a in
  if (65 <=? n) && (n <=? 90) then ascii_of_nat (n + 32) else a.

Fixpoint toLowerCase (s : string) : string :=
  match s with
  | EmptyString => EmptyString
  | String a s' => String (lowerAscii a) (toLowerCase s')
  end.

Definition inRange (lo hi c : N) : bool := ((lo <=? c) && (c <=? hi))%N.

(** The class [\s] of ECMAScript regular expressions: white space and
    line terminators. *)
Definition isWhiteSpace (c : char16) : bool :=
  inRange 9 13 c || (c =? 32)%N || (c =? 160)%N || (c =? 5760)%N
  || inRange 8192 8202 c || (c =? 8232)%N || (c =? 8233)%N
  || (c =? 8239)%N || (c =? 8287)%N || (c =? 12288)%N || (c =? 65279)%N.

(** The class [\d]. *)
Definition isDigit (c : char16) : bool := inRange 48 57 c.

(** The word characters of [\b]: letters, digits and the underscore. *)
Definition isWordChar (c : char16) : bool :=
  inRange 97 122 c || inRange 65 90 c || inRange 48 57 c || (c =? 95)%N.

(** Completion of a call that may throw. *)
Inductive completion (A : Type) : Type :=
| Normal (a : A)
| Throw (name : string).
Arguments Normal {A} a.
Arguments Throw {A} name.

Definition bind {A B} (c : completion A) (k : A -> completion B) : completion B :=
  match c with
  | Normal a => k a
  | Throw e => Throw e
  end.

(** [try { body } catch { handler }] *)
Definition tryCatch {A} (body : completion A) (handler : A) : A :=
  match body with
  | Normal a => a
  | Throw _ => handler
  end.

End JS.

Declare Scope js_scope.
Notation "x <- c ;; k" := (JS.bind c (fun x => k))
  (at level 61, c at next level, right associativity) : js_scope.

(* ====================================================================== *)
(** * The DOM: trees, boundary points and ranges *)
(* ====================================================================== *)

Module Dom.
Import JS.
Local Open Scope js_scope.

(** Element and text nodes.  [tag] is [Element.tagName]. *)
#[warnings="-register-all"]
Inductive node : Type :=
| Elem (tag : string) (children : list node)
| Text (data : jsstring).

(** A node of a document is addressed by the child indices leading to it
    from the document node, whose only child is the root element. *)
Definition path := list nat.

Definition childNodes (n : node) : list node :=
  match n with
  | Elem _ cs => cs
  | Text _ => []
  end.

(** The length of a node: number of children, or of code units. *)
Definition nodeLength (n : node) : nat :=
  match n with
  | Elem _ cs => List.length cs
  | Text d => List.length d
  end.

Definition isElement (n : node) : bool :=
  match n with Elem _ _ => true | Text _ => false end.

Definition isText (n : node) : bool :=
  match n with Elem _ _ => false | Text _ => true end.

Record Document : Type := mkDocument {
  docId : nat;          (* identity of the node tree *)
  documentElement : node  (* the root element, child 0 of the document *)
}.

(** The node at a path below [n]. *)
Fixpoint nodeAt (n : node) (p : path) : option node :=
  match p with
  | [] => Some n
  | i :: p' =>
      match nth_error (childNodes n) i with
      | Some c => nodeAt c p'
      | None => None
      end
  end.

(** The node at a path from the document node; [None] stands for the
    document node itself (path []) and for paths that lead nowhere. *)
Definition docNodeAt (d : Document) (p : path) : option node :=
  match p with
  | 0 :: p' => nodeAt (documentElement d) p'
  | _ => None
  end.

(** Length of the node at [p], the document node having one child. *)
Definition lengthAt (d : Document) (p : path) : option nat :=
  match p with
  | [] => Some 1
  | _ => option_map nodeLength (docNodeAt d p)
  end.

(** [Node.parentNode] and the index of a node, from its path. *)
Fixpoint parentAndIndex (p : path) : option (path * nat) :=
  match p with
  | [] => None
  | [i] => Some ([], i)
  | i :: p' =>
      match parentAndIndex p' with
      | Some (q, k) => Some (i :: q, k)
      | None => None
      end
  end.

(** ** Boundary points *)

Record BoundaryPoint : Type := mkBP {
  container : path;
  offset : nat
}.

(** The position of a boundary point relative to another one in the same
    tree: the order of [container ++ [offset]], a sequence being before
    its extensions. *)
Fixpoint compareSeq (a b : list nat) : comparison :=
  match a, b with
  | [], [] => Eq
  | [], _ :: _ => Lt
  | _ :: _, [] => Gt
  | x :: a', y :: b' =>
      match Nat.compare x y with
      | Eq => compareSeq a' b'
      | c => c
      end
  end.

Definition bpSeq (p : BoundaryPoint) : list nat := container p ++ [offset p].

Definition position (a b : BoundaryPoint) : comparison :=
  compareSeq (bpSeq a) (bpSeq b).

Definition isBefore (a b : BoundaryPoint) : bool :=
  match position a b with Lt => true | _ => false end.
Definition isAfter (a b : BoundaryPoint) : bool :=
  match position a b with Gt => true | _ => false end.

Definition bp_eqb (a b : BoundaryPoint) : bool :=
  match position a b with Eq => true | _ => false end.

(** [a] is an inclusive ancestor of [b]. *)
Fixpoint isPrefix (a b : path) : bool :=
  match a, b with
  | [], _ => true
  | x :: a', y :: b' => (x =? y) && isPrefix a' b'
  | _ :: _, [] => false
  end.

Definition path_eqb (a b : path) : bool :=
  isPrefix a b && isPrefix b a.

(** ** Ranges *)

Record Range : Type := mkRange {
  rangeDoc : nat;            (* the tree the range lives in *)
  rangeStart : BoundaryPoint;
  rangeEnd : BoundaryPoint
}.

Definition startContainer (r : Range) : path := container (rangeStart r).

(** A reference to a node: its tree and its path. *)
Record NodeRef : Type := mkNodeRef {
  refDoc : nat;
  refPath : path
}.

(** [document.createRange()]: collapsed at (document, 0). *)
Definition createRange (d : Document) : Range :=
  mkRange (docId d) (mkBP [] 0) (mkBP [] 0).

(** "Set the start" of the Standard, for a node of the range's tree. *)
Definition setStart (d : Document) (r : Range) (p : path) (off : nat)
  : completion Range :=
  match lengthAt d p with
  | None => Throw "InvalidNodeTypeError"
  | Some len =>
      if len <? off then Throw "IndexSizeError"
      else
        let bp := mkBP p off in
        if isAfter bp (rangeEnd r)
        then Normal (mkRange (rangeDoc r) bp bp)
        else Normal (mkRange (rangeDoc r) bp (rangeEnd r))
  end.

(** "Set the end" of the Standard. *)
Definition setEnd (d : Document) (r : Range) (p : path) (off : nat)
  : completion Range :=
  match lengthAt d p with
  | None => Throw "InvalidNodeTypeError"
  | Some len =>
      if len <? off then Throw "IndexSizeError"
      else
        let bp := mkBP p off in
        if isBefore bp (rangeStart r)
        then Normal (mkRange (rangeDoc r) bp bp)
        else Normal (mkRange (rangeDoc r) (rangeStart r) bp)
  end.

(** [range.setEndBefore(node)] *)
Definition setEndBefore (d : Document) (r : Range) (p : path) : completion Range :=
  match parentAndIndex p with
  | None => Throw "InvalidNodeTypeError"
  | Some (parent, i) => setEnd d r parent i
  end.

(** [range.setEndAfter(node)] *)
Definition setEndAfter (d : Document) (r : Range) (p : path) : completion Range :=
  match parentAndIndex p with
  | None => Throw "InvalidNodeTypeError"
  | Some (parent, i) => setEnd d r parent (i + 1)
  end.

(** The [how] argument of [compareBoundaryPoints]. *)
Inductive How : Type :=
| START_TO_START | START_TO_END | END_TO_END | END_TO_START.

Definition comparisonToZ (c : comparison) : Z :=
  match c with Lt => (-1)%Z | Eq => 0%Z | Gt => 1%Z end.

(** [this.compareBoundaryPoints(how, sourceRange)]: with START_TO_END the
    point of [this] is its end and the other point is the start of
    [sourceRange]; with END_TO_START it is the start of [this] against the
    end of [sourceRange]. *)
Definition compareBoundaryPoints (this : Range) (how : How) (sourceRange : Range)
  : completion Z :=
  if negb (rangeDoc this =? rangeDoc sourceRange) then Throw "WrongDocumentError"
  else
    let '(thisPoint, otherPoint) :=
      match how with
      | START_TO_START => (rangeStart this, rangeStart sourceRange)
      | START_TO_END => (rangeEnd this, rangeStart sourceRange)
      | END_TO_END => (rangeEnd this, rangeEnd sourceRange)
      | END_TO_START => (rangeStart this, rangeEnd sourceRange)
      end in
    Normal (comparisonToZ (position thisPoint otherPoint)).

(** [range.intersectsNode(node)] *)
Definition intersectsNode (this : Range) (n : NodeRef) : bool :=
  if negb (refDoc n =? rangeDoc this) then false
  else
    match parentAndIndex (refPath n) with
    | None => true
    | Some (parent, off) =>
        isBefore (mkBP parent off) (rangeEnd this)
        && isAfter (mkBP parent (off + 1)) (rangeStart this)
    end.

(** ** Stringification and cloning of a range's contents *)

Definition childrenAt (d : Document) (p : path) : list node :=
  match p with
  | [] => [documentElement d]
  | _ => match docNodeAt d p with
         | Some n => childNodes n
         | None => []
         end
  end.

Definition indexed {A} (l : list A) : list (nat * A) :=
  combine (seq 0 (List.length l)) l.

(** Text nodes below [n] (inclusive) in tree order, with their paths. *)
Fixpoint textNodes (p : path) (n : node) {struct n} : list (path * jsstring) :=
  match n with
  | Text data => [(p, data)]
  | Elem _ cs =>
      (fix go (i : nat) (cs : list node) {struct cs} : list (path * jsstring) :=
         match cs with
         | [] => []
         | c :: cs' => textNodes (p ++ [i]) c ++ go (S i) cs'
         end) 0 cs
  end.

(** A node is contained in a range when (node, 0) is after the range's
    start and (node, length) is before its end. *)
Definition contained (s e : BoundaryPoint) (p : path) (len : nat) : bool :=
  isAfter (mkBP p 0) s && isBefore (mkBP p len) e.

(** A node is partially contained when it is an inclusive ancestor of the
    start node but not of the end node, or the other way round. *)
Definition partiallyContained (s e : BoundaryPoint) (p : path) : bool :=
  xorb (isPrefix p (container s)) (isPrefix p (container e)).

Definition substringData (data : jsstring) (from count : nat) : jsstring :=
  firstn count (skipn from data).

Definition textAt (d : Document) (p : path) : option jsstring :=
  match docNodeAt d p with
  | Some (Text data) => Some data
  | _ => None
  end.

(** [range.toString()] *)
Definition rangeToString (d : Document) (r : Range) : jsstring :=
  let s := rangeStart r in
  let e := rangeEnd r in
  let inner :=
    List.concat (map snd (filter (fun t => contained s e (fst t) (List.length (snd t)))
                            (textNodes [0] (documentElement d)))) in
  let tail :=
    match textAt d (container e) with
    | Some data => firstn (offset e) data
    | None => []
    end in
  match textAt d (container s) with
  | Some data =>
      if path_eqb (container s) (container e)
      then substringData data (offset s) (offset e - offset s)
      else skipn (offset s) data ++ inner ++ tail
  | None => inner ++ tail
  end.

(** The lowest common inclusive ancestor of two nodes. *)
Fixpoint commonAncestor (a b : path) : path :=
  match a, b with
  | x :: a', y :: b' => if x =? y then x :: commonAncestor a' b' else []
  | _, _ => []
  end.

(** "Clone the contents" of the Standard: the children of the resulting
    fragment.  Each nested call works on a sub-range whose common ancestor
    is one level deeper, so [fuel] bounds the depth. *)
Fixpoint cloneContentsAux (fuel : nat) (d : Document) (s e : BoundaryPoint)
  : list node :=
  match fuel with
  | 0 => []
  | S fuel' =>
      if bp_eqb s e then []
      else
        match (if path_eqb (container s) (container e)
               then textAt d (container s) else None) with
        | Some data => [Text (substringData data (offset s) (offset e - offset s))]
        | None =>
            let ca := commonAncestor (container s) (container e) in
            let kids := indexed (childrenAt d ca) in
            let partial := fun k : nat * node => partiallyContained s e (ca ++ [fst k]) in
            let firstPartial :=
              if isPrefix (container s) (container e) then None
              else find partial kids in
            let lastPartial :=
              if isPrefix (container e) (container s) then None
              else find partial (rev kids) in
            let containedChildren :=
              filter (fun k => contained s e (ca ++ [fst k]) (nodeLength (snd k))) kids in
            (match firstPartial with
             | Some (_, Text data) => [Text (skipn (offset s) data)]
             | Some (i, Elem t cs) =>
                 [Elem t (cloneContentsAux fuel' d s (mkBP (ca ++ [i]) (List.length cs)))]
             | None => []
             end)
            ++ map snd containedChildren
            ++ (match lastPartial with
                | Some (_, Text data) => [Text (firstn (offset e) data)]
                | Some (i, Elem t cs) =>
                    [Elem t (cloneContentsAux fuel' d (mkBP (ca ++ [i]) 0) e)]
                | None => []
                end)
        end
  end.

(** [range.cloneContents()] *)
Definition cloneContents (d : Document) (r : Range) : list node :=
  cloneContentsAux
    (S (List.length (container (rangeStart r)) + List.length (container (rangeEnd r))))
    d (rangeStart r) (rangeEnd r).

(** [fragment.querySelector(sel) !== null] for a selector that is a list
    of type selectors: some element below the fragment has one of the tags. *)
Fixpoint matchesBelow (tags : list string) (n : node) {struct n} : bool :=
  match n with
  | Text _ => false
  | Elem t cs =>
      existsb (String.eqb (toLowerCase t)) tags
      || (fix any (cs : list node) : bool :=
            match cs with
            | [] => false
            | c :: cs' => matchesBelow tags c || any cs'
            end) cs
  end.

Definition querySelector (tags : list string) (fragment : list node) : bool :=
  existsb (matchesBelow tags) fragment.

(** [document.createTreeWalker(root, SHOW_ELEMENT)]: the elements below the
    root (the root excluded) in the order of successive [nextNode()] calls. *)
Fixpoint elementsBelow (p : path) (n : node) {struct n} : list path :=
  match n with
  | Text _ => []
  | Elem _ cs =>
      (fix go (i : nat) (cs : list node) {struct cs} : list path :=
         match cs with
         | [] => []
         | c :: cs' =>
             (if isElement c then [p ++ [i]] else [])
             ++ elementsBelow (p ++ [i]) c ++ go (S i) cs'
         end) 0 cs
  end.

(** The sequence of nodes a walker rooted at [root] yields. *)
Definition createTreeWalker (d : Document) (root : path) : list path :=
  match docNodeAt d root with
  | Some n => elementsBelow root n
  | None => []
  end.

(** [document.body]: the first [body] or [frameset] child of the [html]
    root element. *)
Definition isBodyTag (n : node) : bool :=
  match n with
  | Elem t _ => String.eqb (toLowerCase t) "body" || String.eqb (toLowerCase t) "frameset"
  | Text _ => false
  end.

Definition body (d : Document) : option path :=
  match documentElement d with
  | Elem t cs =>
      if String.eqb (toLowerCase t) "html"
      then option_map (fun k => [0; fst k]) (find (fun k => isBodyTag (snd k)) (indexed cs))
      else None
  | Text _ => None
  end.

End Dom.

(* ====================================================================== *)
(** * utils/paragraph.ts *)
(* ====================================================================== *)

Module Paragraph.
Import JS Dom.
Local Open Scope string_scope.
Local Open Scope list_scope.
Local Open Scope nat_scope.
Local Open Scope js_scope.

Definition blockTags : list string :=
  [ "article"; "aside"; "blockquote"; "caption"; "details"; "div"; "dl";
    "dt"; "dd"; "figure"; "footer"; "figcaption"; "h1"; "h2"; "h3"; "h4";
    "h5"; "h6"; "header"; "hgroup"; "li"; "main"; "nav"; "ol"; "p"; "pre";
    "section"; "tr" ].

Definition blockTags_has (name : string) : bool :=
  existsb (String.eqb name) blockTags.

Definition MAX_BLOCKS : nat := 5000.

(** INVISIBLE_TEXT_PATTERN:
    [\s  ᠎ -   　​-‍⁠﻿] *)
Definition INVISIBLE_TEXT_PATTERN (c : char16) : bool :=
  isWhiteSpace c || (c =? 160)%N || (c =? 5760)%N || (c =? 6158)%N
  || inRange 8192 8202 c || (c =? 8239)%N || (c =? 8287)%N || (c =? 12288)%N
  || inRange 8203 8205 c || (c =? 8288)%N || (c =? 65279)%N.

Definition MEDIA_SELECTOR : list string :=
  [ "img"; "svg"; "video"; "audio"; "canvas"; "math"; "iframe"; "object";
    "embed"; "hr" ].

(** [text.replace(INVISIBLE_TEXT_PATTERN, '')] with the [g] flag. *)
Definition stripInvisible (text : jsstring) : jsstring :=
  filter (fun c => negb (INVISIBLE_TEXT_PATTERN c)) text.

Definition hasMeaningfulText (text : option jsstring) : bool :=
  0 <? List.length (stripInvisible (match text with Some t => t | None => [] end)).

Definition rangeHasContent (d : Document) (range : Range) : bool :=
  let text := rangeToString d range in
  if hasMeaningfulText (Some text) then true
  else
    let fragment := cloneContents d range in
    querySelector MEDIA_SELECTOR fragment.

(** [child.nodeType === Node.TEXT_NODE && hasMeaningfulText(child.textContent)] *)
Definition hasDirectText (n : node) : bool :=
  existsb (fun child =>
             match child with
             | Text data => hasMeaningfulText (Some data)
             | Elem _ _ => false
             end) (childNodes n).

(** [node.children] holds the element children only. *)
Definition hasBlockChild (n : node) : bool :=
  existsb (fun child =>
             match child with
             | Elem t _ => blockTags_has (toLowerCase t)
             | Text _ => false
             end) (childNodes n).

Record ParagraphIterator : Type := mkIterator {
  blocks : list Range;
  index : Z
}.

(** [new ParagraphIterator(blocks)]: the cursor field is initialised to -1. *)
Definition new (bs : list Range) : ParagraphIterator := mkIterator bs (-1).

(** The local variables of the loop of [createAsync]; [yields] counts the
    [await yieldToMain()] suspension points passed. *)
Record Walk : Type := mkWalk {
  wBlocks : list Range;
  wLast : option Range;
  wCount : nat;
  wProcessed : nat;
  wYields : nat
}.

(** [processed % batchSize === 0]; the remainder by 0 is NaN. *)
Definition batchBoundary (processed batchSize : nat) : bool :=
  match batchSize with
  | 0 => false
  | _ => processed mod batchSize =? 0
  end.

(** A block-tag element that opens a block: not a container that has a
    block child and no text of its own. *)
Definition opensBlock (n : node) : bool :=
  match n with
  | Elem t _ =>
      blockTags_has (toLowerCase t) && negb (hasBlockChild n && negb (hasDirectText n))
  | Text _ => false
  end.

(** One iteration of the [for] loop body, on the element at path [p]. *)
Definition visit (d : Document) (batchSize : nat) (p : path) (w : Walk) : Walk :=
  let processed := S (wProcessed w) in
  let yields := if batchBoundary processed batchSize then S (wYields w) else wYields w in
  let w1 := mkWalk (wBlocks w) (wLast w) (wCount w) processed yields in
  match docNodeAt d p with
  | Some (Elem t cs as element) =>
      let name := toLowerCase t in
      if blockTags_has name then
        if hasBlockChild element && negb (hasDirectText element) then w1
        else
          let closed : list Range * nat :=
            match wLast w1 with
            | Some last =>
                tryCatch
                  (last' <- setEndBefore d last p ;;
                   Normal (if rangeHasContent d last'
                           then (wBlocks w1 ++ [last'], S (wCount w1))
                           else (wBlocks w1, wCount w1)))
                  (wBlocks w1, wCount w1)
            | None => (wBlocks w1, wCount w1)
            end in
          let last :=
            tryCatch (r <- setStart d (createRange d) p 0 ;; Normal (Some r)) None in
          mkWalk (fst closed) last (snd closed) processed yields
      else w1
  | _ => w1
  end.

(** [for (node = walker.nextNode(); node && count < MAX_BLOCKS; node = walker.nextNode())] *)
Fixpoint walk (d : Document) (batchSize : nat) (nodes : list path) (w : Walk) : Walk :=
  match nodes with
  | [] => w
  | p :: rest =>
      if wCount w <? MAX_BLOCKS
      then walk d batchSize rest (visit d batchSize p w)
      else w
  end.

Definition firstChildOr (d : Document) (p : path) : path :=
  match childrenAt d p with
  | [] => p
  | _ :: _ => p ++ [0]
  end.

Definition lastChildOr (d : Document) (p : path) : path :=
  match childrenAt d p with
  | [] => p
  | cs => p ++ [List.length cs - 1]
  end.

(** The statements after the loop: the early return at the cap, the range
    opened over the whole body when no block was opened, and the closing of
    the last open range after the last child of the body. *)
Definition finish (d : Document) (bodyPath : path) (w : Walk) : ParagraphIterator :=
  if MAX_BLOCKS <=? wCount w then new (wBlocks w)
  else
    let opened : option Range :=
      match wLast w with
      | Some last => Some last
      | None =>
          tryCatch
            (r <- setStart d (createRange d) (firstChildOr d bodyPath) 0 ;;
             Normal (Some r))
            None
      end in
    match opened with
    | None => new (wBlocks w)
    | Some last =>
        new (tryCatch
               (last' <- setEndAfter d last (lastChildOr d bodyPath) ;;
                Normal (if rangeHasContent d last'
                        then wBlocks w ++ [last'] else wBlocks w))
               (wBlocks w))
    end.

(** [ParagraphIterator.createAsync(doc, batchSize)]; the result is the
    completion of the returned promise. *)
Definition createAsync (doc : option Document) (batchSize : nat)
  : completion ParagraphIterator :=
  match doc with
  | None => Normal (new [])
  | Some d =>
      match body d with
      | None => Normal (new [])
      | Some bodyPath =>
          let walker := createTreeWalker d bodyPath in
          let w := walk d batchSize walker (mkWalk [] None 0 0 0) in
          Normal (finish d bodyPath w)
      end
  end.

(** ** Cursor operations: each returns its result and the iterator after
    the call. *)

(** [this.#blocks[i] ?? null] *)
Definition blockAt (bs : list Range) (i : Z) : option Range :=
  if (i <? 0)%Z then None else nth_error bs (Z.to_nat i).

Definition length (it : ParagraphIterator) : Z := Z.of_nat (List.length (blocks it)).

Definition currentIndex (it : ParagraphIterator) : Z := index it.

Definition current (it : ParagraphIterator) : option Range :=
  blockAt (blocks it) (index it).

Definition first (it : ParagraphIterator) : option Range * ParagraphIterator :=
  if (length it =? 0)%Z then (None, it)
  else (blockAt (blocks it) 0, mkIterator (blocks it) 0).

Definition last (it : ParagraphIterator) : option Range * ParagraphIterator :=
  if (length it =? 0)%Z then (None, it)
  else
    let i := (length it - 1)%Z in
    (blockAt (blocks it) i, mkIterator (blocks it) i).

Definition next (it : ParagraphIterator) : option Range * ParagraphIterator :=
  let newIndex := (index it + 1)%Z in
  if (newIndex <? length it)%Z
  then (blockAt (blocks it) newIndex, mkIterator (blocks it) newIndex)
  else (None, it).

Definition prev (it : ParagraphIterator) : option Range * ParagraphIterator :=
  let newIndex := (index it - 1)%Z in
  if (0 <=? newIndex)%Z
  then (blockAt (blocks it) newIndex, mkIterator (blocks it) newIndex)
  else (None, it).

Definition goTo (it : ParagraphIterator) (i : Z) : option Range * ParagraphIterator :=
  if (0 <=? i)%Z && (i <? length it)%Z
  then (blockAt (blocks it) i, mkIterator (blocks it) i)
  else (None, it).

(** The loop of [findByNode]: the first block, from position [i] on, that
    intersects the node. *)
Fixpoint findIntersecting (target : NodeRef) (bs : list Range) (i : nat)
  : option (nat * Range) :=
  match bs with
  | [] => None
  | block :: rest =>
      if intersectsNode block target then Some (i, block)
      else findIntersecting target rest (S i)
  end.

Definition findByNode (it : ParagraphIterator) (targetNode : option NodeRef)
  : option Range * ParagraphIterator :=
  match targetNode with
  | None => first it
  | Some target =>
      match findIntersecting target (blocks it) 0 with
      | Some (i, block) => (Some block, mkIterator (blocks it) (Z.of_nat i))
      | None => first it
      end
  end.

(** The test of the loop of [findByRangeAsync] on one block; a comparison
    that throws leaves the block unmatched. *)
Definition boundaryTest (block targetRange : Range) : bool :=
  tryCatch
    (startToEnd <- compareBoundaryPoints block START_TO_END targetRange ;;
     endToStart <- compareBoundaryPoints block END_TO_START targetRange ;;
     Normal ((0 <=? startToEnd)%Z && (endToStart <=? 0)%Z))
    false.

(** The boundary-point scan of [findByRangeAsync], from position [i] on. *)
Fixpoint scanBoundaryPoints (targetRange : Range) (bs : list Range) (i : nat)
  : option (nat * Range) :=
  match bs with
  | [] => None
  | block :: rest =>
      if boundaryTest block targetRange then Some (i, block)
      else scanBoundaryPoints targetRange rest (S i)
  end.

(** [findByRangeAsync(targetRange, batchSize)]; the suspension points
    between batches do not touch the iterator. *)
Definition findByRangeAsync (it : ParagraphIterator) (targetRange : option Range)
  : option Range * ParagraphIterator :=
  match targetRange with
  | None => first it
  | Some target =>
      match scanBoundaryPoints target (blocks it) 0 with
      | Some (i, block) => (Some block, mkIterator (blocks it) (Z.of_nat i))
      | None => findByNode it (Some (mkNodeRef (rangeDoc target) (startContainer target)))
      end
  end.

End Paragraph.


(* ====================================================================== *)
(** * Regular expressions, as [String.prototype.replace] and
      [RegExp.prototype.test] run them *)
(* ====================================================================== *)

Module Regex.
Import JS.

(** The patterns of the source use literals, classes, sequence,
    alternation, the greedy quantifiers [*], [+] and [?], capturing
    groups and the assertions [$] and [\b]. *)
Inductive re : Type :=
| Eps
| Chr (c : char16)
| Cls (f : char16 -> bool)
| Seq (a b : re)
| Alt (a b : re)
| Star (a : re)
| Opt (a : re)
| Grp (n : nat) (a : re)
| Eol
| WordB.

Definition Plus (a : re) : re := Seq a (Star a).

(** A literal run of characters. *)
Fixpoint Lit (s : string) : re :=
  match s with
  | EmptyString => Eps
  | String a EmptyString => Chr (code a)
  | String a s' => Seq (Chr (code a)) (Lit s')
  end.

(** The state of a match in progress: the code unit before the current
    position, the number of code units matched so far (the end index), the
    input from the current position on, and the captures. *)
Record mstate : Type := mkState {
  prev : option char16;
  pos : N;
  rest : jsstring;
  caps : list (nat * jsstring)
}.

(** Canonicalize of the [i] flag: ASCII letters fold to upper case; no
    other code unit folds into the ASCII range. *)
Definition canonicalize (c : char16) : char16 :=
  if inRange 97 122 c then (c - 32)%N else c.

Definition chrMatch (ignoreCase : bool) (c x : char16) : bool :=
  if ignoreCase then (canonicalize c =? canonicalize x)%N else (c =? x)%N.

Definition consumed (before after : mstate) : jsstring :=
  firstn (N.to_nat (pos after - pos before)) (rest before).

(** One code unit forward. *)
Definition advance (s : mstate) (x : char16) (t : jsstring) : mstate :=
  mkState (Some x) (N.succ (pos s)) t (caps s).

(** The backtracking matcher, in continuation-passing style: [k] is the
    rest of the pattern.  An iteration of a quantifier that consumes
    nothing is rejected, as RepeatMatcher does; an iteration that is kept
    consumes at least one code unit, so the length of the input bounds the
    number of iterations. *)
Fixpoint run (ic : bool) (r : re) (s : mstate) (k : mstate -> option mstate)
  {struct r} : option mstate :=
  match r with
  | Eps => k s
  | Chr c =>
      match rest s with
      | x :: t => if chrMatch ic c x then k (advance s x t) else None
      | [] => None
      end
  | Cls f =>
      match rest s with
      | x :: t => if f x then k (advance s x t) else None
      | [] => None
      end
  | Seq a b => run ic a s (fun s' => run ic b s' k)
  | Alt a b =>
      match run ic a s k with
      | Some s' => Some s'
      | None => run ic b s k
      end
  | Star a =>
      (fix loop (n : nat) (s : mstate) {struct n} : option mstate :=
         match n with
         | 0 => k s
         | S n' =>
             match run ic a s
                     (fun s' => if (pos s' =? pos s)%N then None else loop n' s') with
             | Some s' => Some s'
             | None => k s
             end
         end) (List.length (rest s)) s
  | Opt a =>
      match run ic a s (fun s' => if (pos s' =? pos s)%N then None else k s') with
      | Some s' => Some s'
      | None => k s
      end
  | Grp n a =>
      run ic a s
        (fun s' => k (mkState (prev s') (pos s') (rest s') ((n, consumed s s') :: caps s')))
  | Eol =>
      match rest s with
      | [] => k s
      | _ :: _ => None
      end
  | WordB =>
      let a := match prev s with Some c => isWordChar c | None => false end in
      let b := match rest s with c :: _ => isWordChar c | [] => false end in
      if xorb a b then k s else None
  end.

(** The result of a successful match: the matched text, the captures and
    the input after the match. *)
Record result : Type := mkResult {
  matched : jsstring;
  groups : list (nat * jsstring);
  after : jsstring
}.

(** The value of capture [n]; [None] when the group took no part. *)
Fixpoint group (n : nat) (g : list (nat * jsstring)) : option jsstring :=
  match g with
  | [] => None
  | (m, v) :: g' => if m =? n then Some v else group n g'
  end.

(** [$n] of a replacement template: the empty string for a group that
    took no part. *)
Definition sub (n : nat) (r : result) : jsstring :=
  match group n (groups r) with
  | Some v => v
  | None => []
  end.

(** A match attempt anchored at the current position. *)
Definition matchAt (ic : bool) (r : re) (before : option char16) (input : jsstring)
  : option result :=
  let s0 := mkState before 0 input [] in
  match run ic r s0 (fun s => Some s) with
  | Some s1 => Some (mkResult (consumed s0 s1) (caps s1) (rest s1))
  | None => None
  end.

Fixpoint lastChar (before : option char16) (m : jsstring) : option char16 :=
  match m with
  | [] => before
  | c :: m' => lastChar (Some c) m'
  end.

(** The leftmost match at or after the current position, with the text
    skipped before it. *)
Fixpoint search (ic : bool) (r : re) (before : option char16) (input : jsstring)
  {struct input} : option (jsstring * result) :=
  match matchAt ic r before input with
  | Some res => Some ([], res)
  | None =>
      match input with
      | [] => None
      | c :: t =>
          match search ic r (Some c) t with
          | Some (skipped, res) => Some (c :: skipped, res)
          | None => None
          end
      end
  end.

(** [regex.test(input)] for a regex without the [g] flag. *)
Definition test (ic : bool) (r : re) (input : jsstring) : bool :=
  match search ic r None input with
  | Some _ => true
  | None => false
  end.

(** [input.replace(regex, f)] for a regex without the [g] flag: the first
    match only. *)
Definition replaceFirst (ic : bool) (r : re) (f : result -> jsstring) (input : jsstring)
  : jsstring :=
  match search ic r None input with
  | Some (skipped, res) => skipped ++ f res ++ after res
  | None => input
  end.

(** [input.replace(regex, f)] for a regex with the [g] flag: successive
    matches, each search resuming where the last match ended (one code
    unit further after an empty match). *)
Fixpoint replaceFrom (fuel : nat) (ic : bool) (r : re) (f : result -> jsstring)
  (before : option char16) (input : jsstring) : jsstring :=
  match fuel with
  | 0 => input
  | S fuel' =>
      let step (_ : unit) :=
        match input with
        | [] => []
        | c :: t => c :: replaceFrom fuel' ic r f (Some c) t
        end in
      match matchAt ic r before input with
      | Some res =>
          f res ++
          match matched res with
          | [] => step tt
          | _ :: _ => replaceFrom fuel' ic r f (lastChar before (matched res)) (after res)
          end
      | None => step tt
      end
  end.

Definition replaceAll (ic : bool) (r : re) (f : result -> jsstring) (input : jsstring)
  : jsstring :=
  replaceFrom (S (List.length input)) ic r f None input.

(** [input.includes(c)] for a one-character needle. *)
Definition includesChar (c : char16) (input : jsstring) : bool :=
  existsb (N.eqb c) input.

End Regex.

(* ====================================================================== *)
(** * Numbers: IEEE 754 binary64 values, [parseFloat] and number-to-string *)
(* ====================================================================== *)

From Stdlib Require Import SpecFloat DecimalString.

Module Number.
Import JS.
Local Open Scope Z_scope.

Definition number := spec_float.

Definition prec : Z := 53.
Definition emax : Z := 1024.

Definition mul (x y : number) : number := SFmul prec emax x y.
Definition div (x y : number) : number := SFdiv prec emax x y.

Definition pow10 (k : nat) : positive := Nat.iter k (Pos.mul 10) 1%positive.

(** The binary64 value nearest to [n / 10^k] (ties to even): the
    correctly rounded quotient of the two integers. *)
Definition ofDecimal (n : Z) (k : nat) : number :=
  match n with
  | Z0 => S754_zero false
  | Zpos p => div (S754_finite false p 0) (S754_finite false (pow10 k) 0)
  | Zneg p => div (S754_finite true p 0) (S754_finite false (pow10 k) 0)
  end.

Definition ofZ (n : Z) : number := ofDecimal n 0.

Definition number_eqb (x y : number) : bool :=
  match x, y with
  | S754_zero a, S754_zero b => Bool.eqb a b
  | S754_infinity a, S754_infinity b => Bool.eqb a b
  | S754_nan, S754_nan => true
  | S754_finite a m e, S754_finite b m' e' => Bool.eqb a b && (m =? m')%positive && (e =? e')
  | _, _ => false
  end.

(** ** [parseFloat] on the decimal literals the patterns capture: digits
    with an optional fraction, no sign and no exponent.  The longest such
    prefix is read; without a digit the result is NaN. *)

Definition digitValue (c : char16) : Z := Z.of_N (c - 48)%N.

Fixpoint readDigits (acc : Z) (count : nat) (s : jsstring) : Z * nat * jsstring :=
  match s with
  | c :: t => if isDigit c then readDigits (10 * acc + digitValue c) (S count) t
              else (acc, count, s)
  | [] => (acc, count, s)
  end.

Definition parseFloat (s : jsstring) : number :=
  let '(int, intDigits, s1) := readDigits 0 0 s in
  match s1 with
  | 46%N :: s2 =>
      let '(all, fracDigits, _) := readDigits int 0 s2 in
      if ((intDigits + fracDigits)%nat =? 0)%nat then S754_nan
      else ofDecimal all fracDigits
  | _ => if (intDigits =? 0)%nat then S754_nan else ofDecimal int 0
  end.

(** ** Number::toString(x, 10) *)

(** [10^n <= a / b], for positive [a] and [b]. *)
Definition atLeastPow10 (a b n : Z) : bool :=
  if 0 <=? n then b * 10 ^ n <=? a else b <=? a * 10 ^ (- n).

Fixpoint searchUp (fuel : nat) (a b n : Z) : Z :=
  match fuel with
  | O => n
  | S f => if atLeastPow10 a b n then searchUp f a b (n + 1) else n
  end.

Fixpoint searchDown (fuel : nat) (a b n : Z) : Z :=
  match fuel with
  | O => n
  | S f => if atLeastPow10 a b (n - 1) then n else searchDown f a b (n - 1)
  end.

(** The [n] with [10^(n-1) <= a / b < 10^n]. *)
Definition decimalExponent (a b : Z) : Z :=
  if atLeastPow10 a b 0 then searchUp 400 a b 1 else searchDown 400 a b 0.

(** The binary64 value of [s * 10^p]. *)
Definition roundDecimal (s p : Z) : number :=
  if 0 <=? p then ofDecimal (s * 10 ^ p) 0 else ofDecimal s (Z.to_nat (- p)).

(** For a [k]-digit candidate: the integers [s] next to [a/b * 10^(k-n)]
    whose decimal [s * 10^(n-k)] reads back as [x]; the one closer to
    [a/b] is chosen, the even one on a tie. *)
Definition candidate (x : number) (a b n : Z) (k : Z) : option (Z * Z) :=
  let p := n - k in
  let '(num, den) := if 0 <=? p then (a, b * 10 ^ p) else (a * 10 ^ (- p), b) in
  let lo := num / den in
  let hi := lo + 1 in
  let okLo := number_eqb (roundDecimal lo p) x && (0 <? lo) in
  let okHi := number_eqb (roundDecimal hi p) x in
  let pick (s : Z) := if s =? 10 ^ k then Some (10 ^ (k - 1), n + 1) else Some (s, n) in
  match okLo, okHi with
  | true, false => pick lo
  | false, true => pick hi
  | true, true =>
      match 2 * num ?= (2 * lo + 1) * den with
      | Lt => pick lo
      | Gt => pick hi
      | Eq => if Z.even lo then pick lo else pick hi
      end
  | false, false => None
  end.

Fixpoint shortest (fuel : nat) (x : number) (a b n : Z) (k : Z) : Z * Z * Z :=
  match fuel with
  | O => (0, n, k)
  | S f =>
      match candidate x a b n k with
      | Some (s, n') => (s, n', k)
      | None => shortest f x a b n (k + 1)
      end
  end.

Definition digitsOf (s : Z) : jsstring :=
  str (NilZero.string_of_uint (N.to_uint (Z.to_N s))).

Definition zeros (n : Z) : jsstring := repeat 48%N (Z.to_nat n).

Definition positiveToString (m : positive) (e : Z) : jsstring :=
  let x := S754_finite false m e in
  let '(a, b) := if 0 <=? e then (Zpos m * 2 ^ e, 1) else (Zpos m, 2 ^ (- e)) in
  let '(s, n, k) := shortest 17 x a b (decimalExponent a b) 1 in
  let digits := digitsOf s in
  if (k <=? n) && (n <=? 21) then digits ++ zeros (n - k)
  else if (0 <? n) && (n <=? 21)
  then firstn (Z.to_nat n) digits ++ str "." ++ skipn (Z.to_nat n) digits
  else if (-6 <? n) && (n <=? 0)
  then str "0." ++ zeros (- n) ++ digits
  else
    let exponent := n - 1 in
    let sign := if 0 <=? exponent then str "+" else str "-" in
    let mantissa :=
      if k =? 1 then digits
      else firstn 1 digits ++ str "." ++ skipn 1 digits in
    mantissa ++ str "e" ++ sign ++ digitsOf (Z.abs exponent).

Definition toString (x : number) : jsstring :=
  match x with
  | S754_nan => str "NaN"
  | S754_zero _ => str "0"
  | S754_infinity false => str "Infinity"
  | S754_infinity true => str "-Infinity"
  | S754_finite false m e => positiveToString m e
  | S754_finite true m e => str "-" ++ positiveToString m e
  end.

End Number.

(* ====================================================================== *)
(** * utils/style.ts *)
(* ====================================================================== *)

Module Style.
Import JS Regex.
Local Open Scope string_scope.
Local Open Scope list_scope.
Local Open Scope nat_scope.

(** ** Font stacks of [getFontStyles] *)

(** The font tables imported from [services/constants]. *)
Record Constants : Type := mkConstants {
  MONOSPACE_FONTS : list string;
  SANS_SERIF_FONTS : list string;
  SERIF_FONTS : list string;
  FALLBACK_FONTS : list string;
  CJK_SANS_SERIF_FONTS : list string;
  CJK_SERIF_FONTS : list string
}.

(** [fonts.includes(font)] *)
Definition includes (fonts : list string) (font : string) : bool :=
  existsb (String.eqb font) fonts.

(** [a !== b] on strings *)
Definition differs (a b : string) : bool := negb (String.eqb a b).

Definition lastSerifFonts : list string := ["Georgia"; "Times New Roman"].

Section FontStacks.
Variable K : Constants.
Variables serif sansSerif monospace defaultFont defaultCJKFont : string.

(** The part of [serifFonts] spread from [lastSerifFonts.filter(...)]. *)
Definition reappendedSerifFonts : list string :=
  filter (fun font => includes (SERIF_FONTS K) font
                      && negb (includes lastSerifFonts defaultCJKFont))
         lastSerifFonts.

Definition serifFonts : list string :=
  [serif]
  ++ (if differs defaultCJKFont serif then [defaultCJKFont] else [])
  ++ filter (fun font => differs font serif && differs font defaultCJKFont
                         && negb (includes lastSerifFonts font))
            (SERIF_FONTS K)
  ++ filter (fun font => differs font serif && differs font defaultCJKFont)
            (CJK_SERIF_FONTS K)
  ++ reappendedSerifFonts
  ++ FALLBACK_FONTS K.

Definition sansSerifFonts : list string :=
  [sansSerif]
  ++ (if differs defaultCJKFont sansSerif then [defaultCJKFont] else [])
  ++ filter (fun font => differs font sansSerif && differs font defaultCJKFont)
            (SANS_SERIF_FONTS K)
  ++ filter (fun font => differs font sansSerif && differs font defaultCJKFont)
            (CJK_SANS_SERIF_FONTS K)
  ++ FALLBACK_FONTS K.

Definition monospaceFonts : list string :=
  monospace :: filter (fun font => differs font monospace) (MONOSPACE_FONTS K).

Definition defaultFontFamily : string :=
  if String.eqb (toLowerCase defaultFont) "serif" then "--serif" else "--sans-serif".

Definition quote : string := String (ascii_of_nat 34) EmptyString.

(** [fonts.map((font) => `"${font}"`).join(', ')] followed by the
    generic family keyword. *)
Definition fontList (fonts : list string) (generic : string) : string :=
  String.concat ", " (map (fun font => quote ++ font ++ quote)%string fonts)
  ++ ", " ++ generic.

(** The values of the three custom properties of the [html] rule. *)
Definition serifProperty : string := fontList serifFonts "serif".
Definition sansSerifProperty : string := fontList sansSerifFonts "sans-serif".
Definition monospaceProperty : string := fontList monospaceFonts "monospace".

End FontStacks.

(** ** [transformStylesheet] *)

Definition seq (rs : list re) : re := fold_right Seq Eps rs.

(** [\s*] *)
Definition ws : re := Star (Cls isWhiteSpace).

(** [name\s*:] *)
Definition colon (name : string) : re := seq [Lit name; ws; Chr (code ":")].

(** [name\s*:\s*value] *)
Definition decl (name value : string) : re := seq [colon name; ws; Lit value].

Definition anyOf (chars : string) : re :=
  Cls (fun c => existsb (N.eqb c) (str chars)).
Definition noneOf (chars : string) : re :=
  Cls (fun c => negb (existsb (N.eqb c) (str chars))).

Definition digit : re := Cls isDigit.

(** [/([^{]+)({[^}]+})/g] *)
Definition ruleRegex : re :=
  Seq (Grp 1 (Plus (noneOf "{")))
      (Grp 2 (seq [Chr (code "{"); Plus (noneOf "}"); Chr (code "}")])).

(** [/}$/] *)
Definition closingBrace : re := Seq (Chr (code "}")) Eol.

(** [block.replace(/}$/, text)] *)
Definition beforeClosingBrace (text : string) (block : jsstring) : jsstring :=
  replaceFirst false closingBrace (fun _ => str text) block.

(** [0(?:\.0+)?(?:px|em|rem|%)?] *)
Definition zeroLength : re :=
  seq [ Chr (code "0");
        Opt (Seq (Chr (code ".")) (Plus (Chr (code "0"))));
        Opt (Alt (Lit "px") (Alt (Lit "em") (Alt (Lit "rem") (Lit "%")))) ].

(** [(\s*;|\s*$)] as group [n] *)
Definition declEnd (n : nat) : re :=
  Grp n (Alt (Seq ws (Chr (code ";"))) (Seq ws Eol)).

(** The first pass: [!important] on centred, unindented text. *)
Definition hardenAlignment (res : result) : jsstring :=
  let block := sub 2 res in
  let hasTextAlignCenter :=
    test false (seq [decl "text-align" "center"; ws; anyOf ";$"]) block in
  let hasTextIndentZero :=
    test false (seq [colon "text-indent"; ws; zeroLength; ws; anyOf ";$"]) block in
  if hasTextAlignCenter && hasTextIndentZero then
    let block1 :=
      replaceAll false (Seq (Grp 1 (decl "text-align" "center")) (declEnd 2))
        (fun r => sub 1 r ++ str " !important" ++ sub 2 r) block in
    let block2 :=
      replaceAll false
        (Seq (Grp 1 (seq [colon "text-indent"; ws; zeroLength])) (declEnd 2))
        (fun r => sub 1 r ++ str " !important" ++ sub 2 r) block1 in
    sub 1 res ++ block2
  else matched res.

(** The second pass: clip elements that do not wrap. *)
Definition clipNowrap (res : result) : jsstring :=
  let block := sub 2 res in
  let hasWhiteSpaceNowrap :=
    test false (seq [decl "white-space" "nowrap"; ws; anyOf ";$"]) block in
  if hasWhiteSpaceNowrap then
    let block1 :=
      if negb (test false (colon "overflow") block)
      then beforeClosingBrace " overflow: clip !important; }" block
      else block in
    sub 1 res ++ block1
  else matched res.

(** The third pass, on a declaration list without braces. *)
Definition pageBreakInline (css : jsstring) : jsstring :=
  let hasPageBreakAfterAlways :=
    test false (seq [decl "page-break-after" "always"; ws; Opt (Chr (code ";"))]) css in
  if hasPageBreakAfterAlways && negb (test false (colon "margin-bottom") css)
  then replaceFirst false (seq [Opt (Chr (code ";")); ws; Eol]) (fun _ => []) css
       ++ str "; margin-bottom: calc(var(--available-height) * 1px)"
  else css.

(** The third pass, on a rule. *)
Definition pageBreakRule (res : result) : jsstring :=
  let block := sub 2 res in
  let hasPageBreakAfterAlways :=
    test false (seq [decl "page-break-after" "always"; ws; anyOf ";$"]) block in
  if hasPageBreakAfterAlways then
    let block1 :=
      if negb (test false (colon "margin-bottom") block)
      then beforeClosingBrace " margin-bottom: calc(var(--available-height) * 1px); }" block
      else block in
    sub 1 res ++ block1
  else matched res.

(** The body of [for (const dir of ...)] in the duokan-bleed pass: the
    state is the block, [hasBleed] and [directions]. *)
Definition bleedDirection (st : jsstring * bool * list string) (dir : string)
  : jsstring * bool * list string :=
  let '(block, hasBleed, directions) := st in
  let bleedRegex :=
    seq [colon "duokan-bleed"; ws; Star (noneOf ";"); Lit dir; Star (noneOf ";");
         Chr (code ";")] in
  let marginRegex := colon ("margin-" ++ dir) in
  if test false bleedRegex block && negb (test false marginRegex block)
  then (beforeClosingBrace
          (" margin-" ++ dir ++ ": calc(-1 * var(--page-margin-" ++ dir ++ ")) !important; }")
          block,
        true, directions ++ [dir])
  else st.

Definition appendIf (cond : bool) (texts : list string) (block : jsstring) : jsstring :=
  if cond then fold_left (fun b t => beforeClosingBrace t b) texts block else block.

(** The fourth pass: duokan-bleed. *)
Definition duokanBleed (vertical : bool) (res : result) : jsstring :=
  let selector := sub 1 res in
  let block := sub 2 res in
  if vertical then selector ++ block
  else
    let '(block1, hasBleed, directions) :=
      fold_left bleedDirection ["top"; "bottom"; "left"; "right"] (block, false, []) in
    if hasBleed then
      let block2 :=
        appendIf (negb (test false (colon "position") block1))
                 [" position: relative !important; }"] block1 in
      let block3 :=
        appendIf (negb (test false (colon "overflow") block2))
                 [" overflow: hidden !important; }"] block2 in
      let block4 :=
        appendIf (negb (test false (colon "display") block3))
                 [" display: flow-root !important; }"] block3 in
      let block5 :=
        appendIf (negb (test false (colon "width") block4)
                  && includes directions "left" && includes directions "right")
                 [" width: calc(var(--_max-width) + var(--page-margin-left) + var(--page-margin-right)) !important; }";
                  " max-width: calc(var(--full-width) * 1px) !important; }"] block4 in
      let block6 :=
        appendIf (negb (test false (colon "height") block5)
                  && includes directions "top" && includes directions "bottom")
                 [" height: calc(100% + var(--page-margin-top) + var(--page-margin-bottom)) !important; }";
                  " max-height: calc(var(--full-height) * 1px) !important; }"] block5 in
      selector ++ block6
    else selector ++ block1.

(** The fifth pass: unset a generic font family on [body]. *)
Definition unsetBodyFont (res : result) : jsstring :=
  let selector := sub 1 res in
  let block := sub 2 res in
  if test true (seq [WordB; Lit "body"; WordB]) selector then
    let hasSerifFont :=
      test false (seq [decl "font-family" "serif"; ws; anyOf ";$"]) block in
    let hasSansSerifFont :=
      test false (seq [decl "font-family" "sans-serif"; ws; anyOf ";$"]) block in
    let block1 :=
      if hasSerifFont
      then replaceAll true (seq [decl "font-family" "serif"; ws; Grp 1 (anyOf ";$")])
             (fun r => str "font-family: unset" ++ sub 1 r) block
      else block in
    let block2 :=
      if hasSansSerifFont
      then replaceAll true (seq [decl "font-family" "sans-serif"; ws; Grp 1 (anyOf ";$")])
             (fun r => str "font-family: unset" ++ sub 1 r) block1
      else block1 in
    selector ++ block2
  else selector ++ block.

(** [(\d+(?:\.\d+)?)] as group 1 *)
Definition decimal : re :=
  Grp 1 (Seq (Plus digit) (Opt (Seq (Chr (code ".")) (Plus digit)))).

(** [(\d*\.?\d+)] as group 1 *)
Definition number : re :=
  Grp 1 (seq [Star digit; Opt (Chr (code ".")); Plus digit]).

(** [.replace(/font-size\s*:\s*keyword/gi, 'font-size: value')] *)
Definition namedSize (keyword value : string) (css : jsstring) : jsstring :=
  replaceAll true (decl "font-size" keyword) (fun _ => str ("font-size: " ++ value)) css.

(** [.replace(/([\s;])left/gi, '$1right')] *)
Definition afterSeparator (left : re) (right : string) (css : jsstring) : jsstring :=
  replaceAll true (Seq (Grp 1 (Cls (fun c => isWhiteSpace c || (c =? code ";")%N))) left)
    (fun r => sub 1 r ++ str right) css.

Definition isMobilePlatform (platform : string) : bool :=
  includes ["ios"; "android"] platform.

(** [transformStylesheet(css, vw, vh, vertical)]; [platform] is the value
    of [getOSPlatform()]. *)
Definition transformStylesheet (platform : string) (css : jsstring)
  (vw vh : Number.number) (vertical : bool) : jsstring :=
  let isMobile := isMobilePlatform platform in
  let fontScale := if isMobile then Number.ofDecimal 125 2 else Number.ofZ 1 in
  let isInlineStyle := negb (includesChar (code "{") css) in
  let css := replaceAll false ruleRegex hardenAlignment css in
  let css := replaceAll false ruleRegex clipNowrap css in
  let css :=
    if isInlineStyle then pageBreakInline css
    else replaceAll false ruleRegex pageBreakRule css in
  let css := replaceAll false ruleRegex (duokanBleed vertical) css in
  let css := replaceAll false ruleRegex unsetBodyFont css in
  let css := namedSize "xx-small" "0.6rem" css in
  let css := namedSize "x-small" "0.75rem" css in
  let css := namedSize "small" "0.875rem" css in
  let css := namedSize "medium" "1rem" css in
  let css := namedSize "large" "1.2rem" css in
  let css := namedSize "x-large" "1.5rem" css in
  let css := namedSize "xx-large" "2rem" css in
  let css := namedSize "xxx-large" "3rem" css in
  let css :=
    replaceAll true (seq [colon "font-size"; ws; decimal; Lit "px"])
      (fun r =>
         let rem := Number.div (Number.div (Number.parseFloat (sub 1 r)) fontScale)
                               (Number.ofZ 16) in
         str "font-size: " ++ Number.toString rem ++ str "rem") css in
  let css :=
    replaceAll true (seq [colon "font-size"; ws; decimal; Lit "pt"])
      (fun r =>
         let rem := Number.div (Number.div (Number.parseFloat (sub 1 r)) fontScale)
                               (Number.ofZ 12) in
         str "font-size: " ++ Number.toString rem ++ str "rem") css in
  let css :=
    replaceAll true
      (seq [colon "font-size"; ws; number;
            Opt (Grp 2 (Alt (Lit "px") (Alt (Lit "rem") (Alt (Lit "em") (Lit "%")))))])
      (fun r =>
         let size := sub 1 r in
         let unit := match group 2 (groups r) with
                     | Some u => u
                     | None => str "px"
                     end in
         str "font-size: max(" ++ size ++ unit ++ str ", var(--min-font-size, 8px))") css in
  let css :=
    replaceAll true (Seq number (Lit "vw"))
      (fun r =>
         Number.toString
           (Number.div (Number.mul (Number.parseFloat (sub 1 r)) vw) (Number.ofZ 100))
         ++ str "px") css in
  let css :=
    replaceAll true (Seq number (Lit "vh"))
      (fun r =>
         Number.toString
           (Number.div (Number.mul (Number.parseFloat (sub 1 r)) vh) (Number.ofZ 100))
         ++ str "px") css in
  let css := afterSeparator (decl "-webkit-user-select" "none") "-webkit-user-select: unset" css in
  let css := afterSeparator (decl "-moz-user-select" "none") "-moz-user-select: unset" css in
  let css := afterSeparator (decl "-ms-user-select" "none") "-ms-user-select: unset" css in
  let css := afterSeparator (decl "-o-user-select" "none") "-o-user-select: unset" css in
  let css := afterSeparator (decl "user-select" "none") "user-select: unset" css in
  let css := afterSeparator (decl "font-family" "monospace") "font-family: var(--monospace)" css in
  let css := afterSeparator (decl "font-weight" "normal") "font-weight: var(--font-weight)" css in
  let css := afterSeparator (decl "color" "black") "color: var(--theme-fg-color)" css in
  let css := afterSeparator (decl "color" "#000000") "color: var(--theme-fg-color)" css in
  let css := afterSeparator (decl "color" "#000") "color: var(--theme-fg-color)" css in
  let css :=
    afterSeparator
      (seq [colon "color"; ws; Lit "rgb(0,"; ws; Lit "0,"; ws; Lit "0)"])
      "color: var(--theme-fg-color)" css in
  css.

End Style.


(* ====================================================================== *)
(** * utils/style.ts: the mode classes of the body *)
(* ====================================================================== *)

Module Classes.
Import JS Style.
Local Open Scope string_scope.
Local Open Scope list_scope.

(** [element.classList]: the ordered set of class tokens. *)
Definition DOMTokenList : Type := list string.

(** [classList.remove(...tokens)] *)
Definition remove (tokens : list string) (classList : DOMTokenList) : DOMTokenList :=
  filter (fun token => negb (includes tokens token)) classList.

(** [classList.add(token)]: appended unless it is in the set. *)
Definition add (token : string) (classList : DOMTokenList) : DOMTokenList :=
  if includes classList token then classList else classList ++ [token].

(** [applyThemeModeClass(document, isDarkMode)] on the class list of
    [document.body]; reading [classList] of a missing body throws. *)
Definition applyThemeModeClass (bodyClassList : option DOMTokenList) (isDarkMode : bool)
  : completion DOMTokenList :=
  match bodyClassList with
  | None => Throw "TypeError"
  | Some classList =>
      Normal (add (if isDarkMode then "theme-dark" else "theme-light")
                  (remove ["theme-light"; "theme-dark"] classList))
  end.

(** [applyScrollModeClass(document, isScrollMode)] *)
Definition applyScrollModeClass (bodyClassList : option DOMTokenList) (isScrollMode : bool)
  : completion DOMTokenList :=
  match bodyClassList with
  | None => Throw "TypeError"
  | Some classList =>
      Normal (add (if isScrollMode then "scroll-mode" else "paginated-mode")
                  (remove ["scroll-mode"; "paginated-mode"] classList))
  end.

End Classes.

(* ====================================================================== *)
(** * The blocks of a document, described without the loop *)
(* ====================================================================== *)

Module Segments.
Import JS Dom Paragraph.
Local Open Scope string_scope.
Local Open Scope list_scope.
Local Open Scope nat_scope.
Local Open Scope js_scope.

(** The element at [p] carries one of the block tags. *)
Definition hasBlockTag (d : Document) (p : path) : bool :=
  match docNodeAt d p with
  | Some (Elem t _) => blockTags_has (toLowerCase t)
  | _ => false
  end.

(** The element at [p] is a qualifying block-tag element: the loop closes
    the open range before it and opens a new one at it. *)
Definition opens (d : Document) (p : path) : bool :=
  match docNodeAt d p with
  | Some n => opensBlock n
  | None => false
  end.

(** The range opened at [p]: [createRange()] then [setStart(node, 0)]. *)
Definition openAt (d : Document) (p : path) : option Range :=
  tryCatch (r <- setStart d (createRange d) p 0 ;; Normal (Some r)) None.

(** The open range, closed before the element at [p]. *)
Definition closedBefore (d : Document) (last : option Range) (p : path) : option Range :=
  match last with
  | Some l => tryCatch (r <- setEndBefore d l p ;; Normal (Some r)) None
  | None => None
  end.

(** The ranges closed while walking the qualifying elements [q], each
    running from one qualifying element to the next. *)
Fixpoint candidates (d : Document) (last : option Range) (q : list path) : list Range :=
  match q with
  | [] => []
  | p :: rest =>
      match closedBefore d last p with
      | Some r => r :: candidates d (openAt d p) rest
      | None => candidates d (openAt d p) rest
      end
  end.

(** The range opened by the last of the elements [q]. *)
Fixpoint lastOpened (d : Document) (last : option Range) (q : list path) : option Range :=
  match q with
  | [] => last
  | p :: rest => lastOpened d (openAt d p) rest
  end.

(** The qualifying block-tag elements of the body, in document order. *)
Definition qualifying (d : Document) (bodyPath : path) : list path :=
  filter (opens d) (createTreeWalker d bodyPath).

(** The part of the loop state that the result depends on. *)
Definition core (w : Walk) : list Range * option Range * nat :=
  (wBlocks w, wLast w, wCount w).

(** The range over the whole body that is opened when the walk opened no
    block: from inside the first child (or the empty body) to after the
    last child (or after the empty body). *)
Definition wholeBodyRange (d : Document) (bodyPath : path) : Range :=
  match childrenAt d bodyPath with
  | [] =>
      mkRange (docId d) (mkBP bodyPath 0)
              (match parentAndIndex bodyPath with
               | Some (parent, i) => mkBP parent (i + 1)
               | None => mkBP bodyPath 0
               end)
  | cs => mkRange (docId d) (mkBP (bodyPath ++ [0]) 0) (mkBP bodyPath (List.length cs))
  end.

(** The block of the [i]-th child of the body when every child of the body
    opens a block: from inside the child to right after it. *)
Definition childRange (d : Document) (bodyPath : path) (i : nat) : Range :=
  mkRange (docId d) (mkBP (bodyPath ++ [i]) 0) (mkBP bodyPath (i + 1)).

(** All the text below a node, in tree order. *)
Definition textContent (n : node) : jsstring :=
  List.concat (map snd (textNodes [] n)).

(** A paragraph that holds only invisible text and line breaks. *)
Definition isBlankInline (n : node) : bool :=
  match n with
  | Text data => negb (hasMeaningfulText (Some data))
  | Elem t cs => String.eqb (toLowerCase t) "br" && match cs with [] => true | _ => false end
  end.

Definition isBlankParagraph (n : node) : bool :=
  match n with
  | Elem t cs => String.eqb (toLowerCase t) "p" && forallb isBlankInline cs
  | Text _ => false
  end.

(** An inline leaf: a text node, or an empty element without a block tag. *)
Definition isInlineLeaf (n : node) : bool :=
  match n with
  | Text _ => true
  | Elem t [] => negb (blockTags_has (toLowerCase t))
  | Elem _ (_ :: _) => false
  end.

(** A block-tag element all of whose children are inline leaves. *)
Definition isSimpleBlock (n : node) : bool :=
  match n with
  | Elem t cs => blockTags_has (toLowerCase t) && forallb isInlineLeaf cs
  | Text _ => false
  end.

(** Meaningful content below a node: visible text or a media element. *)
Definition nodeHasContent (n : node) : bool :=
  hasMeaningfulText (Some (textContent n)) || matchesBelow MEDIA_SELECTOR n.

(** The range opened at [p], still collapsed. *)
Definition collapsedAt (d : Document) (p : path) : Range :=
  mkRange (docId d) (mkBP p 0) (mkBP p 0).

(** A paragraph with one text node. *)
Definition paragraph (text : string) : node := Elem "P" [Text (str text)].

(** The document the HTML parser builds for a body made of the given
    children. *)
Definition htmlDocument (id : nat) (headChildren bodyChildren : list node) : Document :=
  mkDocument id (Elem "HTML" [Elem "HEAD" headChildren; Elem "BODY" bodyChildren]).

End Segments.


(* ====================================================================== *)
(** * The segments of a body *)
(* ====================================================================== *)

Module Layout.
Import JS Dom Paragraph Segments.
Local Open Scope list_scope.
Local Open Scope nat_scope.

(** The boundary point right before the node at [p]: its parent and its
    index. *)
Definition before (p : path) : BoundaryPoint :=
  match parentAndIndex p with
  | Some (parent, i) => mkBP parent i
  | None => mkBP [] 0
  end.

(** The range from inside the element at [p] to right before the element
    at [q]. *)
Definition between (d : Document) (p q : path) : Range :=
  mkRange (docId d) (mkBP p 0) (before q).

(** The ranges between each element of [p :: q] and the next one. *)
Fixpoint gaps (d : Document) (p : path) (q : list path) : list Range :=
  match q with
  | [] => []
  | p' :: rest => between d p p' :: gaps d p' rest
  end.

Fixpoint lastOf (p : path) (q : list path) : path :=
  match q with
  | [] => p
  | p' :: rest => lastOf p' rest
  end.

(** The range from inside the element at [p] to the end of the body. *)
Definition closing (d : Document) (bodyPath p : path) : Range :=
  mkRange (docId d) (mkBP p 0) (mkBP bodyPath (List.length (childrenAt d bodyPath))).

(** The segments of a body: one from each qualifying element to the next,
    one from the last qualifying element to the end of the body; the
    whole body when no element qualifies. *)
Definition segments (d : Document) (bodyPath : path) : list Range :=
  match qualifying d bodyPath with
  | [] => [wholeBodyRange d bodyPath]
  | p :: rest => gaps d p rest ++ [closing d bodyPath (lastOf p rest)]
  end.

(** [a] ends at or before the start of [b]. *)
Definition precedes (a b : Range) : Prop :=
  isAfter (rangeEnd a) (rangeStart b) = false.

(** The start of [r] is at or before its end. *)
Definition wellFormed (r : Range) : Prop :=
  isAfter (rangeStart r) (rangeEnd r) = false.

End Layout.

(* ====================================================================== *)
(** * Sequences of calls on an iterator *)
(* ====================================================================== *)

Module Calls.
Import JS Dom Paragraph.
Local Open Scope Z_scope.




(** [n] successive calls of one method: the values returned and the
    iterator after the last call. *)
Fixpoint repeatedly (n : nat)
  (method : ParagraphIterator -> option Range * ParagraphIterator)
  (it : ParagraphIterator) : list (option Range) * ParagraphIterator :=
  match n with
  | O => ([], it)
  | S n' =>
      let '(r, it1) := method it in
      let '(rs, it2) := repeatedly n' method it1 in
      (r :: rs, it2)
  end.


(** The cursor is the index of a block. *)
Definition positioned (it : ParagraphIterator) : Prop :=
  0 <= index it < length it.

End Calls.

(* ====================================================================== *)
(** * Sample inputs used to evaluate the definitions *)
(* ====================================================================== *)

Module Samples.
Import JS Dom Paragraph Style Segments.
Local Open Scope string_scope.
Local Open Scope list_scope.

(** Block start at or before target start, block end at or after target
    end: the block fully contains the target. *)
Definition containsRange (block target : Range) : Prop :=
  isAfter (rangeStart block) (rangeStart target) = false
  /\ isBefore (rangeEnd block) (rangeEnd target) = false.

(** The body [<p>ab</p><p>cd</p>], its two blocks, and a selection from
    the middle of the first paragraph to the middle of the second. *)
Definition twoParagraphs : Document :=
  mkDocument 1
    (Elem "HTML"
       [Elem "HEAD" [];
        Elem "BODY" [Elem "P" [Text (str "ab")]; Elem "P" [Text (str "cd")]]]).

Definition firstBlock : Range := mkRange 1 (mkBP [0; 1; 0] 0) (mkBP [0; 1] 1).
Definition secondBlock : Range := mkRange 1 (mkBP [0; 1; 1] 0) (mkBP [0; 1] 2).
Definition selection : Range := mkRange 1 (mkBP [0; 1; 0; 0] 1) (mkBP [0; 1; 1; 0] 1).

(** A font table in the shape of [services/constants], which is not among
    the sources: serif fonts that include the two last-resort fonts, CJK
    fonts, and one fallback font. *)
Definition fontTable : Constants :=
  mkConstants
    ["Fira Code"; "Lucida Console"; "Consolas"; "Courier New"]
    ["Roboto"; "Noto Sans"; "Open Sans"; "Helvetica"]
    ["Bitter"; "Literata"; "Merriweather"; "Vollkorn"; "Georgia"; "Times New Roman"]
    ["MiSans L3"]
    ["Noto Sans SC"; "Noto Sans TC"]
    ["LXGW WenKai GB Screen"; "LXGW WenKai TC"; "Source Han Serif CN VF"].

(** A body without block-tag elements: [<span>Hello</span> world]. *)
Definition inlineBody : Document :=
  htmlDocument 2 [] [Elem "SPAN" [Text (str "Hello")]; Text (str " world")].

(** Paragraphs without content: a space, a non-breaking space, a
    zero-width space, a line break. *)
Definition blankParagraphs : list node :=
  [Elem "P" [Text (str " ")]; Elem "P" [Text [160%N]]; Elem "P" [Text [8203%N]];
   Elem "P" [Elem "BR" []]].



Definition bleedRule : jsstring := str "a{duokan-bleed:right; duokan-bleed:top}".
Definition halfWidth : jsstring := str "width: 50vw".
Definition pageBreak : jsstring := str "page-break-after: always".

Definition transformAt800x600 (css : jsstring) : jsstring :=
  transformStylesheet "macos" css (Number.ofZ 800) (Number.ofZ 600) false.

End Samples.


(* ====================================================================== *)
(** * More sample inputs *)
(* ====================================================================== *)

Module Cases.
Import JS Dom Paragraph Segments.
Local Open Scope string_scope.
Local Open Scope list_scope.

(** The body [<p>Intro</p><p><img></p><p> </p><p>Outro</p>]: a paragraph
    that holds only an image, and one that holds only a space. *)
Definition imageParagraph : Document :=
  htmlDocument 4 []
    [paragraph "Intro"; Elem "P" [Elem "IMG" []]; paragraph " "; paragraph "Outro"].

(** A range of another document. *)
Definition foreignRange : Range := mkRange 2 (mkBP [0; 1; 1] 0) (mkBP [0; 1] 2).

(** A caret inside the text of the second paragraph of [twoParagraphs]. *)
Definition caret : Range := mkRange 1 (mkBP [0; 1; 1; 0] 1) (mkBP [0; 1; 1; 0] 1).

End Cases.

Unset Implicit Arguments.

(* ====================================================================== *)
(** * Properties of the cursor operations *)
(* ====================================================================== *)

Module CursorFacts.
Import JS Dom Paragraph.
Local Open Scope Z_scope.

Lemma blockAt_negative (bs : list Range) (i : Z) : i < 0 -> blockAt bs i = None.
Proof.
  intros Hi. unfold blockAt.
  destruct (Z.ltb_spec i 0) as [_ | Hge]; [reflexivity | lia].
Qed.

Lemma blockAt_past_end (bs : list Range) (i : Z) :
  Z.of_nat (List.length bs) <= i -> blockAt bs i = None.
Proof.
  intros Hi. unfold blockAt.
  destruct (Z.ltb_spec i 0) as [_ | Hge]; [reflexivity | ].
  apply nth_error_None. lia.
Qed.

(** C7: on a sequence of length N, at any cursor position, [goTo(N)] and
    [goTo(-1)] return null and leave the iterator as it was; [next()] with
    the cursor on the last index N-1 returns null and leaves it there. *)
Theorem navigation_bounds (bs : list Range) (i : Z) :
  let n := Z.of_nat (List.length bs) in
  goTo (mkIterator bs i) n = (None, mkIterator bs i)
  /\ goTo (mkIterator bs i) (-1) = (None, mkIterator bs i)
  /\ next (mkIterator bs (n - 1)) = (None, mkIterator bs (n - 1)).
Proof.
  cbv zeta. split; [ | split].
  - unfold goTo, length. cbn [blocks].
    rewrite Z.ltb_irrefl, andb_false_r. reflexivity.
  - unfold goTo. reflexivity.
  - unfold next, length. cbn [blocks index].
    replace (Z.of_nat (List.length bs) - 1 + 1) with (Z.of_nat (List.length bs)) by lia.
    rewrite Z.ltb_irrefl. reflexivity.
Qed.

(** C9: a new iterator is unpositioned: the cursor is -1 and [current()]
    is null; [prev()] returns null and stays at -1; [next()] on a
    non-empty sequence moves to index 0 and returns the first block. *)
Theorem fresh_iterator_unpositioned (bs : list Range) :
  currentIndex (new bs) = -1
  /\ current (new bs) = None
  /\ prev (new bs) = (None, new bs)
  /\ (forall b rest, next (new (b :: rest)) = (Some b, mkIterator (b :: rest) 0)).
Proof.
  split; [reflexivity | split; [reflexivity | split; [reflexivity | ]]].
  intros b rest. unfold next, new, length. cbn [blocks index List.length].
  replace (-1 + 1) with 0 by lia.
  destruct (Z.ltb_spec 0 (Z.of_nat (S (List.length rest)))) as [_ | H]; [reflexivity | lia].
Qed.

(** The cursor never wraps: [next] and [prev] either move by one inside
    the bounds or change nothing. *)
Lemma next_moves_by_one (it : ParagraphIterator) :
  let '(r, it') := next it in
  blocks it' = blocks it
  /\ ((r = None /\ it' = it /\ length it <= index it + 1)
      \/ (index it' = index it + 1 /\ index it' < length it
          /\ r = blockAt (blocks it) (index it'))).
Proof.
  unfold next. destruct (Z.ltb_spec (index it + 1) (length it)) as [Hlt | Hge].
  - split; [reflexivity | right]. cbn [index]. auto.
  - split; [reflexivity | left]. auto.
Qed.

Lemma prev_moves_by_one (it : ParagraphIterator) :
  let '(r, it') := prev it in
  blocks it' = blocks it
  /\ ((r = None /\ it' = it /\ index it - 1 < 0)
      \/ (index it' = index it - 1 /\ 0 <= index it'
          /\ r = blockAt (blocks it) (index it'))).
Proof.
  unfold prev. destruct (Z.leb_spec 0 (index it - 1)) as [Hle | Hgt].
  - split; [reflexivity | right]. cbn [index]. auto.
  - split; [reflexivity | left]. auto.
Qed.

End CursorFacts.

(* ====================================================================== *)
(** * Boundary points and the range lookup *)
(* ====================================================================== *)

Module LookupFacts.
Import JS Dom Paragraph Samples.

Lemma compareSeq_refl (a : list nat) : compareSeq a a = Eq.
Proof.
  induction a as [| x a IH]; [reflexivity | ].
  cbn. rewrite Nat.compare_refl. exact IH.
Qed.

Lemma compareSeq_antisym (a b : list nat) :
  compareSeq b a = CompOpp (compareSeq a b).
Proof.
  revert b. induction a as [| x a IH]; intros [| y b]; try reflexivity.
  cbn. rewrite (Nat.compare_antisym x y).
  destruct (Nat.compare x y); cbn; auto.
Qed.

Lemma compareSeq_eq (a b : list nat) : compareSeq a b = Eq -> a = b.
Proof.
  revert b. induction a as [| x a IH]; intros [| y b]; cbn; try discriminate; auto.
  destruct (Nat.compare_spec x y) as [Hxy | Hxy | Hxy]; try discriminate.
  intros Hab. subst. f_equal. auto.
Qed.

(** [a] is after [b] exactly when [b] is before [a]. *)
Lemma isAfter_isBefore (a b : BoundaryPoint) : isAfter a b = isBefore b a.
Proof.
  unfold isAfter, isBefore, position.
  rewrite (compareSeq_antisym (bpSeq b) (bpSeq a)).
  destruct (compareSeq (bpSeq b) (bpSeq a)); reflexivity.
Qed.

(** What the test of the scan says about a block it accepts: the two
    ranges are in one tree, the block does not end before the target
    starts and does not start after the target ends. *)
Lemma boundaryTest_spec (block target : Range) :
  boundaryTest block target = true <->
  rangeDoc block = rangeDoc target
  /\ isBefore (rangeEnd block) (rangeStart target) = false
  /\ isAfter (rangeStart block) (rangeEnd target) = false.
Proof.
  unfold boundaryTest, compareBoundaryPoints, isBefore, isAfter.
  destruct (Nat.eqb_spec (rangeDoc block) (rangeDoc target)) as [Heq | Hne]; cbn.
  - destruct (position (rangeEnd block) (rangeStart target));
      destruct (position (rangeStart block) (rangeEnd target)); cbn; intuition congruence.
  - intuition congruence.
Qed.

Lemma scan_spec (target : Range) (bs : list Range) (k i : nat) (b : Range) :
  scanBoundaryPoints target bs k = Some (i, b) ->
  k <= i
  /\ nth_error bs (i - k) = Some b
  /\ boundaryTest b target = true
  /\ (forall j b', j < i - k -> nth_error bs j = Some b' -> boundaryTest b' target = false).
Proof.
  revert k. induction bs as [| x bs IH]; intros k; cbn; [discriminate | ].
  destruct (boundaryTest x target) eqn:Hx.
  - intros H. inversion H; subst. rewrite Nat.sub_diag. cbn.
    repeat split; auto. intros j b' Hj. lia.
  - intros H. apply IH in H. destruct H as (Hk & Hnth & Hb & Hfirst).
    replace (i - k) with (S (i - S k)) by lia. cbn.
    repeat split; auto; try lia.
    intros [| j] b' Hj Hb'; cbn in Hb'.
    + inversion Hb'; subst. exact Hx.
    + apply (Hfirst j); auto. lia.
Qed.

Example twoParagraphs_blocks :
  createAsync (Some twoParagraphs) 50 = Normal (new [firstBlock; secondBlock]).
Proof. vm_compute. reflexivity. Qed.

(** C1, refuted: for the selection above the scan returns the first
    block, which ends before the selection ends. *)
Lemma scan_result_not_containing :
  findByRangeAsync (new [firstBlock; secondBlock]) (Some selection)
  = (Some firstBlock, mkIterator [firstBlock; secondBlock] 0)
  /\ scanBoundaryPoints selection [firstBlock; secondBlock] 0 = Some (0, firstBlock)
  /\ isBefore (rangeEnd firstBlock) (rangeEnd selection) = true
  /\ ~ containsRange firstBlock selection.
Proof.
  repeat split; try (vm_compute; reflexivity).
  intros [_ H]. vm_compute in H. discriminate.
Qed.

(** C1, amended: the block returned by the boundary-point scan is the
    first block of the list that overlaps the target range, in the sense
    that it lies in the same tree, does not end before the target starts
    and does not start after the target ends; the cursor moves to it. *)
Theorem scan_finds_first_overlap (it : ParagraphIterator) (target : Range)
  (i : nat) (b : Range) :
  scanBoundaryPoints target (blocks it) 0 = Some (i, b) ->
  nth_error (blocks it) i = Some b
  /\ rangeDoc b = rangeDoc target
  /\ isBefore (rangeEnd b) (rangeStart target) = false
  /\ isAfter (rangeStart b) (rangeEnd target) = false
  /\ (forall j b', j < i -> nth_error (blocks it) j = Some b' ->
                   boundaryTest b' target = false)
  /\ findByRangeAsync it (Some target) = (Some b, mkIterator (blocks it) (Z.of_nat i)).
Proof.
  intros Hscan.
  destruct (scan_spec _ _ _ _ _ Hscan) as (_ & Hnth & Hb & Hfirst).
  rewrite Nat.sub_0_r in *.
  apply boundaryTest_spec in Hb. destruct Hb as (Hdoc & Hend & Hstart).
  repeat split; auto.
  unfold findByRangeAsync. rewrite Hscan. reflexivity.
Qed.

Lemma scan_finds_first_overlap_witness :
  scanBoundaryPoints selection (blocks (new [firstBlock; secondBlock])) 0
  = Some (0, firstBlock)
  /\ findByRangeAsync (new [firstBlock; secondBlock]) (Some selection)
     = (Some firstBlock, mkIterator [firstBlock; secondBlock] 0).
Proof.
  assert (H : scanBoundaryPoints selection (blocks (new [firstBlock; secondBlock])) 0
              = Some (0, firstBlock)) by reflexivity.
  split; [exact H | ].
  exact (proj2 (proj2 (proj2 (proj2 (proj2
           (scan_finds_first_overlap (new [firstBlock; secondBlock]) selection 0 firstBlock H)))))).
Defined.

End LookupFacts.

(* ====================================================================== *)
(** * Font stacks *)
(* ====================================================================== *)

Module FontFacts.
Import JS Style Samples.
Local Open Scope string_scope.
Local Open Scope list_scope.

Lemma includes_In (fonts : list string) (font : string) :
  includes fonts font = true <-> In font fonts.
Proof.
  unfold includes. rewrite existsb_exists. split.
  - intros (x & Hin & Heq). apply String.eqb_eq in Heq. subst. exact Hin.
  - intros Hin. exists font. split; [exact Hin | apply String.eqb_refl].
Qed.

Lemma includes_not_In (fonts : list string) (font : string) :
  includes fonts font = false <-> ~ In font fonts.
Proof.
  rewrite <- includes_In. destruct (includes fonts font); intuition congruence.
Qed.

Lemma differs_neq (a b : string) : differs a b = true <-> a <> b.
Proof.
  unfold differs. rewrite negb_true_iff. apply String.eqb_neq.
Qed.


(** Membership in the front part shared by the serif and sans-serif
    stacks: the chosen font, then the CJK default when it differs. *)
Lemma In_chosen (font cjk a : string) :
  In a ([font] ++ (if differs cjk font then [cjk] else [])) <-> a = font \/ a = cjk.
Proof.
  cbn. destruct (differs cjk font) eqn:Hd; cbn.
  - intuition.
  - unfold differs in Hd. apply negb_false_iff, String.eqb_eq in Hd. subst.
    intuition.
Qed.


Section Stacks.
Variable K : Constants.
Variables serif sansSerif monospace defaultCJKFont : string.

Lemma In_reappended (font : string) :
  In font (reappendedSerifFonts K defaultCJKFont) <->
  In font lastSerifFonts /\ In font (SERIF_FONTS K) /\ ~ In defaultCJKFont lastSerifFonts.
Proof.
  unfold reappendedSerifFonts. rewrite filter_In, andb_true_iff, negb_true_iff.
  rewrite includes_In, includes_not_In. tauto.
Qed.


(** The shape of the three lists: what precedes the fallback fonts. *)
Lemma serifFonts_shape :
  serifFonts K serif defaultCJKFont =
  ([serif] ++ (if differs defaultCJKFont serif then [defaultCJKFont] else []))
  ++ filter (fun font => differs font serif && differs font defaultCJKFont
                         && negb (includes lastSerifFonts font)) (SERIF_FONTS K)
  ++ filter (fun font => differs font serif && differs font defaultCJKFont)
            (CJK_SERIF_FONTS K)
  ++ reappendedSerifFonts K defaultCJKFont
  ++ FALLBACK_FONTS K.
Proof. reflexivity. Qed.

Lemma sansSerifFonts_shape :
  sansSerifFonts K sansSerif defaultCJKFont =
  ([sansSerif] ++ (if differs defaultCJKFont sansSerif then [defaultCJKFont] else []))
  ++ filter (fun font => differs font sansSerif && differs font defaultCJKFont)
            (SANS_SERIF_FONTS K)
  ++ filter (fun font => differs font sansSerif && differs font defaultCJKFont)
            (CJK_SANS_SERIF_FONTS K)
  ++ FALLBACK_FONTS K.
Proof. reflexivity. Qed.

Lemma In_monospaceFonts (font : string) :
  In font (monospaceFonts K monospace) <-> font = monospace \/ In font (MONOSPACE_FONTS K).
Proof.
  unfold monospaceFonts. cbn. rewrite filter_In, differs_neq.
  destruct (String.eqb_spec font monospace); intuition.
Qed.

(** The user's font comes first in each list, whatever the tables hold. *)
Lemma chosen_font_first :
  hd_error (serifFonts K serif defaultCJKFont) = Some serif
  /\ hd_error (sansSerifFonts K sansSerif defaultCJKFont) = Some sansSerif
  /\ hd_error (monospaceFonts K monospace) = Some monospace.
Proof. repeat split. Qed.






(** C3, amended: the serif and the sans-serif lists end with the fallback
    fonts; the monospace list is the chosen font followed by the other
    monospace fonts, and holds a fallback font only when that font is the
    chosen one or is in the monospace table. *)
Theorem fallback_fonts_appended :
  (exists front, serifFonts K serif defaultCJKFont = front ++ FALLBACK_FONTS K)
  /\ (exists front, sansSerifFonts K sansSerif defaultCJKFont = front ++ FALLBACK_FONTS K)
  /\ monospaceFonts K monospace
     = monospace :: filter (fun font => differs font monospace) (MONOSPACE_FONTS K)
  /\ (forall font, In font (FALLBACK_FONTS K) ->
                   (In font (monospaceFonts K monospace)
                    <-> font = monospace \/ In font (MONOSPACE_FONTS K))).
Proof.
  split; [ | split; [ | split]].
  - eexists. rewrite serifFonts_shape. rewrite !app_assoc. reflexivity.
  - eexists. rewrite sansSerifFonts_shape. rewrite !app_assoc. reflexivity.
  - reflexivity.
  - intros font _. apply In_monospaceFonts.
Qed.

(** C8, amended: a last-resort font is re-appended exactly when it is in
    the serif table and the CJK default is neither of the two last-resort
    fonts; the re-appended fonts stand right before the fallback fonts. *)
Theorem last_resort_fonts_reappended :
  (forall font, In font lastSerifFonts ->
     (In font (reappendedSerifFonts K defaultCJKFont)
      <-> In font (SERIF_FONTS K) /\ ~ In defaultCJKFont lastSerifFonts))
  /\ (exists front, serifFonts K serif defaultCJKFont
                    = front ++ reappendedSerifFonts K defaultCJKFont ++ FALLBACK_FONTS K).
Proof.
  split.
  - intros font Hlast. rewrite In_reappended. tauto.
  - exists (([serif] ++ (if differs defaultCJKFont serif then [defaultCJKFont] else []))
            ++ filter (fun font => differs font serif && differs font defaultCJKFont
                                   && negb (includes lastSerifFonts font)) (SERIF_FONTS K)
            ++ filter (fun font => differs font serif && differs font defaultCJKFont)
                      (CJK_SERIF_FONTS K)).
    rewrite serifFonts_shape, <- !app_assoc. reflexivity.
Qed.

End Stacks.

(** The custom property lists the fonts quoted and comma-separated, and
    closes with the generic family. *)
Example serifProperty_sample :
  serifProperty fontTable "Bitter" "LXGW WenKai GB Screen" =
  (String.concat ", "
     (map (fun font => quote ++ font ++ quote)
          ["Bitter"; "LXGW WenKai GB Screen"; "Literata"; "Merriweather"; "Vollkorn";
           "LXGW WenKai TC"; "Source Han Serif CN VF"; "Georgia"; "Times New Roman";
           "MiSans L3"])
   ++ ", serif")%string.
Proof. reflexivity. Qed.



(** C3, refuted: the monospace list of the sample table does not end with
    the fallback font. *)
Lemma monospace_stack_without_fallback :
  monospaceFonts fontTable "Fira Code"
  = ["Fira Code"; "Lucida Console"; "Consolas"; "Courier New"]
  /\ monospaceProperty fontTable "Fira Code"
     = (quote ++ "Fira Code" ++ quote ++ ", " ++ quote ++ "Lucida Console" ++ quote ++ ", "
        ++ quote ++ "Consolas" ++ quote ++ ", " ++ quote ++ "Courier New" ++ quote
        ++ ", monospace")%string
  /\ ~ (exists front, monospaceFonts fontTable "Fira Code"
                      = front ++ FALLBACK_FONTS fontTable).
Proof.
  split; [reflexivity | split; [reflexivity | ]].
  intros (front & H).
  assert (Hin : In "MiSans L3" (monospaceFonts fontTable "Fira Code")).
  { rewrite H. apply in_or_app. right. cbn. auto. }
  cbn in Hin. intuition discriminate.
Qed.

(** C8, refuted: with Georgia as the CJK default, Times New Roman is in the
    serif table and is not the CJK default, yet it is not re-appended (and
    no longer appears in the serif list at all). *)
Lemma times_new_roman_not_reappended :
  In "Times New Roman" (SERIF_FONTS fontTable)
  /\ "Times New Roman" <> "Georgia"
  /\ ~ In "Times New Roman" (reappendedSerifFonts fontTable "Georgia")
  /\ ~ In "Times New Roman" (serifFonts fontTable "Bitter" "Georgia").
Proof.
  split; [cbn; tauto | ].
  split; [discriminate | ].
  split; cbn; intuition discriminate.
Qed.

End FontFacts.

(* ====================================================================== *)
(** * Patterns that cannot match *)
(* ====================================================================== *)

Module RegexFacts.
Import JS Regex.

Section Needs.
Variable ic : bool.

(** A set of marked code units. *)
Variable marked : char16 -> bool.

(** Every match of the pattern reads a marked code unit. *)
Fixpoint needs (r : re) : Prop :=
  match r with
  | Chr c => forall x, chrMatch ic c x = true -> marked x = true
  | Cls f => forall x, f x = true -> marked x = true
  | Seq a b => needs a \/ needs b
  | Alt a b => needs a /\ needs b
  | Grp _ a => needs a
  | Eps | Star _ | Opt _ | Eol | WordB => False
  end.

Definition unmarked (input : jsstring) : Prop :=
  Forall (fun c => marked c = false) input.

Lemma unmarked_tail (x : char16) (t : jsstring) : unmarked (x :: t) -> unmarked t.
Proof. intros H. inversion H; assumption. Qed.

(** The matcher only ever continues on a suffix of its input. *)
Lemma run_blocked (r : re) :
  forall (s : mstate) (k : mstate -> option mstate),
    (forall s', unmarked (rest s') -> k s' = None) ->
    unmarked (rest s) ->
    run ic r s k = None.
Proof.
  induction r as [| c | f | a IHa b IHb | a IHa b IHb | a IHa | a IHa | n a IHa | |];
    intros s k Hk Hs; cbn [run].
  - apply Hk, Hs.
  - destruct (rest s) as [| x t] eqn:Hrest; [reflexivity | ].
    destruct (chrMatch ic c x); [ | reflexivity].
    apply Hk. cbn. eapply unmarked_tail; eassumption.
  - destruct (rest s) as [| x t] eqn:Hrest; [reflexivity | ].
    destruct (f x); [ | reflexivity].
    apply Hk. cbn. eapply unmarked_tail; eassumption.
  - apply IHa; [ | exact Hs]. intros s' Hs'. apply IHb; assumption.
  - rewrite IHa by assumption. apply IHb; assumption.
  - generalize (List.length (rest s)). intros n. revert s Hs.
    induction n as [| n IHn]; intros s Hs; [apply Hk, Hs | ].
    rewrite IHa; [apply Hk, Hs | | exact Hs].
    intros s' Hs'. destruct (pos s' =? pos s)%N; [reflexivity | apply IHn, Hs'].
  - rewrite IHa; [apply Hk, Hs | | exact Hs].
    intros s' Hs'. destruct (pos s' =? pos s)%N; [reflexivity | apply Hk, Hs'].
  - apply IHa; [ | exact Hs]. intros s' Hs'. apply Hk. exact Hs'.
  - destruct (rest s) eqn:Hrest; [ | reflexivity]. apply Hk. rewrite Hrest. constructor.
  - destruct (xorb _ _); [apply Hk, Hs | reflexivity].
Qed.

(** A pattern that needs a marked code unit fails on unmarked input. *)
Lemma run_needs (r : re) :
  forall (s : mstate) (k : mstate -> option mstate),
    needs r -> unmarked (rest s) -> run ic r s k = None.
Proof.
  induction r as [| c | f | a IHa b IHb | a IHa b IHb | a IHa | a IHa | n a IHa | |];
    intros s k Hr Hs; cbn [run needs] in *; try contradiction.
  - destruct (rest s) as [| x t] eqn:Hrest; [reflexivity | ].
    destruct (chrMatch ic c x) eqn:Hm; [ | reflexivity].
    apply Hr in Hm. inversion Hs; congruence.
  - destruct (rest s) as [| x t] eqn:Hrest; [reflexivity | ].
    destruct (f x) eqn:Hm; [ | reflexivity].
    apply Hr in Hm. inversion Hs; congruence.
  - destruct Hr as [Ha | Hb].
    + apply IHa; assumption.
    + apply run_blocked; [ | exact Hs]. intros s' Hs'. apply IHb; assumption.
  - destruct Hr as [Ha Hb]. rewrite IHa by assumption. apply IHb; assumption.
  - apply IHa; assumption.
Qed.

Section Unmatched.
Variable r : re.
Hypothesis r_needs : needs r.

Lemma matchAt_needs (before : option char16) (input : jsstring) :
  unmarked input -> matchAt ic r before input = None.
Proof.
  intros H. unfold matchAt. rewrite run_needs; auto.
Qed.

Lemma search_needs (input : jsstring) :
  forall before, unmarked input -> search ic r before input = None.
Proof.
  induction input as [| c t IH]; intros before H; cbn [search];
    rewrite matchAt_needs by exact H; [reflexivity | ].
  rewrite IH; [reflexivity | eapply unmarked_tail; exact H].
Qed.


Lemma replaceFirst_needs (f : result -> jsstring) (input : jsstring) :
  unmarked input -> replaceFirst ic r f input = input.
Proof. intros H. unfold replaceFirst. rewrite search_needs by exact H. reflexivity. Qed.

Lemma replaceFrom_needs (f : result -> jsstring) (fuel : nat) :
  forall before input, unmarked input -> replaceFrom fuel ic r f before input = input.
Proof.
  induction fuel as [| fuel IH]; intros before input H; cbn [replaceFrom]; [reflexivity | ].
  rewrite matchAt_needs by exact H.
  destruct input as [| c t]; [reflexivity | ].
  rewrite IH; [reflexivity | eapply unmarked_tail; exact H].
Qed.

Lemma replaceAll_needs (f : result -> jsstring) (input : jsstring) :
  unmarked input -> replaceAll ic r f input = input.
Proof. intros H. unfold replaceAll. apply replaceFrom_needs, H. Qed.

End Unmatched.
End Needs.

End RegexFacts.

(* ====================================================================== *)
(** * Re-applying [transformStylesheet] *)
(* ====================================================================== *)

Module TransformFacts.
Import JS Regex RegexFacts Style Samples.
Local Open Scope string_scope.
Local Open Scope list_scope.

(** The code units one of which every pattern of [transformStylesheet]
    reads: the colon, the opening brace and the digits. *)
Definition marked (c : char16) : bool :=
  (c =? code ":")%N || (c =? code "{")%N || isDigit c.


Lemma chrMatch_colon (ic : bool) (x : char16) :
  chrMatch ic (code ":") x = true -> marked x = true.
Proof.
  unfold chrMatch. destruct ic.
  - change (canonicalize (code ":")) with 58%N.
    unfold canonicalize, inRange.
    destruct (N.leb_spec 97 x) as [Hlo | Hlo], (N.leb_spec x 122) as [Hhi | Hhi];
      cbn [andb]; intros Heq; apply N.eqb_eq in Heq; try lia; subst; reflexivity.
  - change (code ":") with 58%N. intros Heq. apply N.eqb_eq in Heq.
    subst. reflexivity.
Qed.

Lemma chrMatch_brace (ic : bool) (x : char16) :
  chrMatch ic (code "{") x = true -> marked x = true.
Proof.
  unfold chrMatch. destruct ic.
  - change (canonicalize (code "{")) with 123%N.
    unfold canonicalize, inRange.
    destruct (N.leb_spec 97 x) as [Hlo | Hlo], (N.leb_spec x 122) as [Hhi | Hhi];
      cbn [andb]; intros Heq; apply N.eqb_eq in Heq; try lia; subst; reflexivity.
  - change (code "{") with 123%N. intros Heq. apply N.eqb_eq in Heq.
    subst. reflexivity.
Qed.

Lemma digit_marked (x : char16) : isDigit x = true -> marked x = true.
Proof. unfold marked. intros ->. apply orb_true_r. Qed.

Lemma needs_colon (ic : bool) (name : string) : needs ic marked (colon name).
Proof. cbn. right. right. left. apply chrMatch_colon. Qed.

Lemma needs_decl (ic : bool) (name value : string) : needs ic marked (decl name value).
Proof. cbn. left. apply needs_colon. Qed.

Lemma needs_number (ic : bool) : needs ic marked number.
Proof. cbn. right. right. left. left. apply digit_marked. Qed.

Lemma needs_ruleRegex (ic : bool) : needs ic marked ruleRegex.
Proof. cbn. right. left. apply chrMatch_brace. Qed.

Create HintDb needs.
#[local] Hint Resolve needs_colon needs_decl needs_number needs_ruleRegex : needs.







(** The viewport-unit and page-break samples of the specification. *)
Example halfWidth_transformed : transformAt800x600 halfWidth = str "width: 400px".
Proof. vm_compute. reflexivity. Qed.

Example pageBreak_transformed :
  transformAt800x600 pageBreak
  = str "page-break-after: always; margin-bottom: calc(var(--available-height) * 1px)".
Proof. vm_compute. reflexivity. Qed.


(** A second source of the same effect, without numbers: the declaration
    appended for one bleed edge supplies the semicolon that lets an
    unterminated [duokan-bleed] declaration match on the next application. *)
Example transform_twice_differs_bleed :
  transformAt800x600 bleedRule
  = str ("a{duokan-bleed:right; duokan-bleed:top"
         ++ " margin-right: calc(-1 * var(--page-margin-right)) !important; "
         ++ " position: relative !important;  overflow: hidden !important; "
         ++ " display: flow-root !important; }")
  /\ transformAt800x600 (transformAt800x600 bleedRule)
     = str ("a{duokan-bleed:right; duokan-bleed:top"
            ++ " margin-right: calc(-1 * var(--page-margin-right)) !important; "
            ++ " position: relative !important;  overflow: hidden !important; "
            ++ " display: flow-root !important; "
            ++ " margin-top: calc(-1 * var(--page-margin-top)) !important; }").
Proof. split; vm_compute; reflexivity. Qed.



End TransformFacts.

(* ====================================================================== *)
(** * The walk of [createAsync] *)
(* ====================================================================== *)

Module WalkFacts.
Import JS Dom Paragraph Segments.
Local Open Scope list_scope.
Local Open Scope nat_scope.

(** ** Elements that open no block only advance the counters *)

Lemma visit_skips (d : Document) (batchSize : nat) (p : path) (w : Walk) :
  opens d p = false -> core (visit d batchSize p w) = core w.
Proof.
  unfold opens, visit, opensBlock. intros H.
  destruct (docNodeAt d p) as [[t cs | data] | ]; try reflexivity.
  destruct (blockTags_has (toLowerCase t)); [ | reflexivity].
  cbn [andb] in H. apply negb_false_iff in H. rewrite H. reflexivity.
Qed.

Lemma visit_opens (d : Document) (batchSize : nat) (p : path) (w : Walk) :
  opens d p = true ->
  core (visit d batchSize p w) =
  match closedBefore d (wLast w) p with
  | Some r =>
      if rangeHasContent d r
      then (wBlocks w ++ [r], openAt d p, S (wCount w))
      else (wBlocks w, openAt d p, wCount w)
  | None => (wBlocks w, openAt d p, wCount w)
  end.
Proof.
  unfold opens, visit, opensBlock, closedBefore, openAt. intros H.
  destruct (docNodeAt d p) as [[t cs | data] | ]; try discriminate.
  apply andb_true_iff in H. destruct H as [Htag Hskip].
  rewrite Htag. apply negb_true_iff in Hskip. rewrite Hskip.
  cbn [wLast wBlocks wCount].
  destruct (wLast w) as [last | ]; [ | reflexivity].
  destruct (setEndBefore d last p) as [r | e]; cbn; [ | reflexivity].
  destruct (rangeHasContent d r); reflexivity.
Qed.

(** The counters, and with them the batch size, do not influence the
    blocks. *)
Lemma visit_core (d : Document) (b b' : nat) (p : path) (w w' : Walk) :
  core w = core w' -> core (visit d b p w) = core (visit d b' p w').
Proof.
  intros H. destruct (opens d p) eqn:Hp.
  - rewrite !visit_opens by exact Hp. unfold core in H. inversion H. reflexivity.
  - rewrite !visit_skips by exact Hp. exact H.
Qed.

Lemma walk_core (d : Document) (b b' : nat) (nodes : list path) :
  forall w w', core w = core w' -> core (walk d b nodes w) = core (walk d b' nodes w').
Proof.
  induction nodes as [| p rest IH]; intros w w' H; cbn [walk]; [exact H | ].
  assert (Hc : wCount w = wCount w') by (unfold core in H; congruence).
  rewrite Hc. destruct (wCount w' <? MAX_BLOCKS); [ | exact H].
  apply IH. apply visit_core. exact H.
Qed.

(** Only the qualifying elements matter. *)
Lemma walk_qualifying (d : Document) (b : nat) (nodes : list path) :
  forall w, core (walk d b nodes w) = core (walk d b (filter (opens d) nodes) w).
Proof.
  induction nodes as [| p rest IH]; intros w; cbn [walk filter]; [reflexivity | ].
  destruct (opens d p) eqn:Hp; cbn [walk].
  - destruct (wCount w <? MAX_BLOCKS); [apply IH | reflexivity].
  - destruct (wCount w <? MAX_BLOCKS) eqn:Hc.
    + rewrite IH. apply walk_core. apply visit_skips. exact Hp.
    + clear IH. induction (filter (opens d) rest) as [| q l _]; cbn [walk];
        [reflexivity | rewrite Hc; reflexivity].
Qed.

Lemma finish_core (d : Document) (bodyPath : path) (w w' : Walk) :
  core w = core w' -> finish d bodyPath w = finish d bodyPath w'.
Proof.
  unfold core, finish. intros H. inversion H as [[Hb Hl Hc]].
  rewrite Hb, Hl, Hc. reflexivity.
Qed.

(** ** Below the cap: every candidate range with content is kept *)

Lemma walk_below_cap (d : Document) (b : nat) (q : list path) :
  forall w,
    Forall (fun p => opens d p = true) q ->
    wCount w + List.length (filter (rangeHasContent d) (candidates d (wLast w) q))
    < MAX_BLOCKS ->
    core (walk d b q w) =
    (wBlocks w ++ filter (rangeHasContent d) (candidates d (wLast w) q),
     lastOpened d (wLast w) q,
     wCount w + List.length (filter (rangeHasContent d) (candidates d (wLast w) q))).
Proof.
  induction q as [| p rest IH]; intros w Hq Hcap; cbn [walk candidates lastOpened filter].
  - cbn. rewrite app_nil_r, Nat.add_0_r. reflexivity.
  - inversion Hq as [| ? ? Hp Hrest]; subst.
    cbn [candidates] in Hcap.
    destruct (Nat.ltb_spec (wCount w) MAX_BLOCKS) as [Hlt | Hge]; [ | lia].
    assert (Hv := visit_opens d b p w Hp).
    destruct (closedBefore d (wLast w) p) as [r | ].
    + cbn [filter] in *. destruct (rangeHasContent d r).
      * cbn [List.length] in Hcap.
        rewrite IH; try assumption.
        -- unfold core in Hv. inversion Hv as [[Hb Hl Hc]]. rewrite Hb, Hl, Hc.
           rewrite <- app_assoc. cbn. f_equal. lia.
        -- unfold core in Hv. inversion Hv as [[Hb Hl Hc]]. rewrite Hl, Hc. lia.
      * rewrite IH; try assumption.
        -- unfold core in Hv. inversion Hv as [[Hb Hl Hc]]. rewrite Hb, Hl, Hc.
           reflexivity.
        -- unfold core in Hv. inversion Hv as [[Hb Hl Hc]]. rewrite Hl, Hc. exact Hcap.
    + rewrite IH; try assumption.
      * unfold core in Hv. inversion Hv as [[Hb Hl Hc]]. rewrite Hb, Hl, Hc. reflexivity.
      * unfold core in Hv. inversion Hv as [[Hb Hl Hc]]. rewrite Hl, Hc. exact Hcap.
Qed.

(** ** At the cap: the walk stops with the first [MAX_BLOCKS] ranges *)


End WalkFacts.

(* ====================================================================== *)
(** * Paths, positions and the setters of a range *)
(* ====================================================================== *)

Module DomFacts.
Import JS Dom Paragraph Segments.
Local Open Scope list_scope.
Local Open Scope nat_scope.

Lemma compareSeq_app (p a b : list nat) :
  compareSeq (p ++ a) (p ++ b) = compareSeq a b.
Proof.
  induction p as [| x p IH]; [reflexivity | ].
  cbn. rewrite Nat.compare_refl. exact IH.
Qed.

Lemma compareSeq_nil_r (a : list nat) : a <> [] -> compareSeq a [] = Gt.
Proof. destruct a; [congruence | reflexivity]. Qed.

Lemma isPrefix_app (p a b : path) : isPrefix (p ++ a) (p ++ b) = isPrefix a b.
Proof.
  induction p as [| x p IH]; [reflexivity | ].
  cbn. rewrite Nat.eqb_refl. exact IH.
Qed.

Lemma isPrefix_refl (p : path) : isPrefix p p = true.
Proof.
  induction p as [| x p IH]; [reflexivity | ].
  cbn. rewrite Nat.eqb_refl. exact IH.
Qed.

Lemma isPrefix_app_r (p a : path) : isPrefix p (p ++ a) = true.
Proof.
  rewrite <- (app_nil_r p) at 1. rewrite isPrefix_app. reflexivity.
Qed.

Lemma isPrefix_longer (p : path) (i : nat) : isPrefix (p ++ [i]) p = false.
Proof.
  rewrite <- (app_nil_r p) at 2. rewrite isPrefix_app. reflexivity.
Qed.

Lemma commonAncestor_refl (p : path) : commonAncestor p p = p.
Proof.
  induction p as [| x p IH]; [reflexivity | ].
  cbn. rewrite Nat.eqb_refl, IH. reflexivity.
Qed.

Lemma commonAncestor_child (p : path) (i : nat) : commonAncestor (p ++ [i]) p = p.
Proof.
  induction p as [| x p IH]; [reflexivity | ].
  cbn. rewrite Nat.eqb_refl, IH. reflexivity.
Qed.

Lemma parentAndIndex_app (p : path) (i : nat) : parentAndIndex (p ++ [i]) = Some (p, i).
Proof.
  induction p as [| x p IH]; [reflexivity | ].
  cbn [app parentAndIndex]. rewrite IH.
  destruct p; reflexivity.
Qed.

Lemma parentAndIndex_some (p : path) :
  p <> [] -> exists q i, p = q ++ [i] /\ parentAndIndex p = Some (q, i).
Proof.
  intros H. destruct (exists_last H) as (q & i & ->).
  exists q, i. split; [reflexivity | apply parentAndIndex_app].
Qed.

Lemma nodeAt_app (n : node) (p q : path) :
  nodeAt n (p ++ q) = match nodeAt n p with
                      | Some m => nodeAt m q
                      | None => None
                      end.
Proof.
  revert n. induction p as [| i p IH]; intros n; [reflexivity | ].
  cbn. destruct (nth_error (childNodes n) i); [apply IH | reflexivity].
Qed.

(** The children of the node at [p], one by one. *)
Lemma docNodeAt_child (d : Document) (p : path) (i : nat) :
  p <> [] -> docNodeAt d (p ++ [i]) = nth_error (childrenAt d p) i.
Proof.
  intros Hp. destruct p as [| x p]; [congruence | ].
  unfold childrenAt, docNodeAt. cbn [app].
  destruct x; [ | destruct i; reflexivity].
  rewrite nodeAt_app. destruct (nodeAt (documentElement d) p); cbn.
  - destruct (nth_error (childNodes n) i); reflexivity.
  - destruct i; reflexivity.
Qed.

Lemma docNodeAt_nonempty (d : Document) (p : path) (n : node) :
  docNodeAt d p = Some n -> p <> [].
Proof. destruct p; [discriminate | congruence]. Qed.

(** The parent of a node of the document has the node among its children. *)
Lemma parent_length (d : Document) (q : path) (i : nat) (n : node) :
  docNodeAt d (q ++ [i]) = Some n ->
  exists len, lengthAt d q = Some len /\ i < len.
Proof.
  intros H. destruct q as [| x q].
  - exists 1. split; [reflexivity | ]. cbn in H. destruct i; [lia | discriminate].
  - assert (Hne : x :: q <> []) by congruence.
    rewrite (@docNodeAt_child d _ i Hne) in H.
    unfold lengthAt, childrenAt in *.
    destruct (docNodeAt d (x :: q)) as [m | ].
    + exists (nodeLength m). split; [reflexivity | ].
      destruct m as [t cs | data]; cbn in *.
      * apply nth_error_Some. congruence.
      * destruct i; discriminate.
    + destruct i; discriminate.
Qed.

(** ** The setters on nodes of the document *)

Lemma isAfter_document_start (p : path) (n : nat) :
  p <> [] -> isAfter (mkBP p n) (mkBP [] 0) = true.
Proof.
  intros Hp. unfold isAfter, position, bpSeq. cbn [container offset app].
  destruct p as [| x p]; [congruence | ].
  cbn. destruct x; [ | reflexivity].
  cbn. rewrite compareSeq_nil_r; [reflexivity | ]. destruct p; discriminate.
Qed.

Lemma openAt_node (d : Document) (p : path) (n : node) :
  docNodeAt d p = Some n ->
  openAt d p = Some (mkRange (docId d) (mkBP p 0) (mkBP p 0)).
Proof.
  intros H. unfold openAt, setStart, createRange, lengthAt.
  assert (Hp := @docNodeAt_nonempty _ _ _ H).
  destruct p as [| x p]; [congruence | ]. rewrite H. cbn [option_map rangeEnd rangeDoc].
  rewrite isAfter_document_start by congruence. reflexivity.
Qed.

Lemma openAt_opens (d : Document) (p : path) :
  opens d p = true ->
  openAt d p = Some (mkRange (docId d) (mkBP p 0) (mkBP p 0)).
Proof.
  unfold opens. destruct (docNodeAt d p) as [n | ] eqn:H; [ | discriminate].
  intros _. eapply openAt_node. exact H.
Qed.

(** Closing an open range before a node of the document does not throw. *)
Lemma closedBefore_node (d : Document) (last : Range) (p : path) (n : node) :
  docNodeAt d p = Some n ->
  exists q i,
    p = q ++ [i]
    /\ closedBefore d (Some last) p
       = Some (if isBefore (mkBP q i) (rangeStart last)
               then mkRange (rangeDoc last) (mkBP q i) (mkBP q i)
               else mkRange (rangeDoc last) (rangeStart last) (mkBP q i)).
Proof.
  intros H. destruct (parentAndIndex_some _ (docNodeAt_nonempty _ _ _ H)) as (q & i & -> & Hpi).
  exists q, i. split; [reflexivity | ].
  destruct (@parent_length _ _ _ _ H) as (len & Hlen & Hi).
  unfold closedBefore, setEndBefore, setEnd. rewrite Hpi, Hlen.
  destruct (Nat.ltb_spec len i) as [Hlt | _]; [lia | ].
  destruct (isBefore (mkBP q i) (rangeStart last)); reflexivity.
Qed.

Lemma opens_node (d : Document) (p : path) :
  opens d p = true -> exists n, docNodeAt d p = Some n.
Proof.
  unfold opens. destruct (docNodeAt d p) as [n | ]; [eauto | discriminate].
Qed.


(** ** The body element *)

Lemma find_indexed {A} (f : A -> bool) (l : list A) (s i : nat) (c : A) :
  find (fun k => f (snd k)) (combine (seq s (List.length l)) l) = Some (i, c) ->
  s <= i /\ nth_error l (i - s) = Some c /\ f c = true.
Proof.
  revert s. induction l as [| x l IH]; intros s; cbn; [discriminate | ].
  destruct (f x) eqn:Hx.
  - intros H. inversion H; subst. rewrite Nat.sub_diag. auto.
  - intros H. apply IH in H. destruct H as (Hs & Hnth & Hc).
    replace (i - s) with (S (i - S s)) by lia. cbn. repeat split; auto. lia.
Qed.

Lemma body_spec (d : Document) (bodyPath : path) :
  body d = Some bodyPath ->
  exists i t children tb bodyChildren,
    bodyPath = [0; i]
    /\ documentElement d = Elem t children
    /\ nth_error children i = Some (Elem tb bodyChildren)
    /\ docNodeAt d bodyPath = Some (Elem tb bodyChildren)
    /\ childrenAt d bodyPath = bodyChildren.
Proof.
  unfold body. destruct (documentElement d) as [t children | data] eqn:Hroot; [ | discriminate].
  destruct (String.eqb (toLowerCase t) "html"); [ | discriminate].
  unfold indexed.
  destruct (find _ _) as [[i c] | ] eqn:Hfind; [ | discriminate].
  cbn. intros H. inversion H; subst. clear H.
  apply find_indexed in Hfind. destruct Hfind as (_ & Hnth & Hc).
  rewrite Nat.sub_0_r in Hnth.
  destruct c as [tb bodyChildren | data]; [ | discriminate].
  exists i, t, children, tb, bodyChildren.
  unfold childrenAt, docNodeAt. rewrite Hroot. cbn. rewrite Hnth. auto.
Qed.

End DomFacts.

(* ====================================================================== *)
(** * The blocks [createAsync] yields *)
(* ====================================================================== *)

Module SegmentFacts.
Import JS Dom Paragraph Segments WalkFacts DomFacts.
Local Open Scope list_scope.
Local Open Scope nat_scope.

(** The start state of the loop. *)
Definition start : Walk := mkWalk [] None 0 0 0.

Lemma createAsync_body (d : Document) (bodyPath : path) (batchSize : nat) :
  body d = Some bodyPath ->
  createAsync (Some d) batchSize
  = Normal (finish d bodyPath (walk d batchSize (qualifying d bodyPath) start)).
Proof.
  intros H. unfold createAsync. rewrite H. cbv zeta. f_equal.
  apply finish_core. apply walk_qualifying.
Qed.

Lemma opens_hasBlockTag (d : Document) (p : path) :
  opens d p = true -> hasBlockTag d p = true.
Proof.
  unfold opens, hasBlockTag, opensBlock.
  destruct (docNodeAt d p) as [[t cs | data] | ]; try discriminate.
  intros H. apply andb_true_iff in H. tauto.
Qed.

(** Without an open range, the statements after the loop open one over
    the whole body. *)
Lemma finish_unopened (d : Document) (bodyPath : path) (w : Walk) :
  body d = Some bodyPath ->
  wLast w = None -> wCount w < MAX_BLOCKS ->
  finish d bodyPath w
  = new (if rangeHasContent d (wholeBodyRange d bodyPath)
         then wBlocks w ++ [wholeBodyRange d bodyPath] else wBlocks w).
Proof.
  intros Hbody Hlast Hcount.
  destruct (@body_spec d _ Hbody) as (i & t & children & tb & bcs & -> & Hroot & Hnth & Hnode & Hkids).
  assert (Hi : i < List.length children) by (apply nth_error_Some; congruence).
  unfold finish, wholeBodyRange, firstChildOr, lastChildOr. rewrite Hlast, Hkids.
  destruct (Nat.leb_spec MAX_BLOCKS (wCount w)) as [Hge | _]; [lia | ].
  destruct bcs as [| c cs].
  - fold (openAt d [0; i]). rewrite (@openAt_node d _ _ Hnode).
    unfold setEndAfter, setEnd, lengthAt. cbn [parentAndIndex].
    unfold docNodeAt at 1. cbn [nodeAt]. rewrite Hroot. cbn [option_map nodeLength].
    destruct (Nat.ltb_spec (List.length children) (i + 1)) as [Hlt | _]; [lia | ].
    unfold isBefore, position, bpSeq. cbn [container offset rangeStart app compareSeq].
    cbn [Nat.compare]. rewrite (proj2 (Nat.compare_gt_iff (i + 1) i)) by lia.
    cbn [tryCatch bind rangeDoc rangeStart]. reflexivity.
  - assert (Hchild : docNodeAt d ([0; i] ++ [0]) = Some c).
    { rewrite docNodeAt_child by discriminate. rewrite Hkids. reflexivity. }
    fold (openAt d ([0; i] ++ [0])). rewrite (@openAt_node d _ _ Hchild).
    unfold setEndAfter. rewrite parentAndIndex_app.
    unfold setEnd, lengthAt. cbn [app]. rewrite Hnode. cbn [option_map nodeLength List.length].
    replace (S (List.length cs) - 1 + 1) with (S (List.length cs)) by lia.
    rewrite Nat.ltb_irrefl.
    unfold isBefore, position, bpSeq. cbn [container offset rangeStart app compareSeq].
    cbn [Nat.compare]. rewrite Nat.compare_refl.
    cbn [tryCatch bind rangeDoc rangeStart]. reflexivity.
Qed.





End SegmentFacts.

(* ====================================================================== *)
(** * Children by index: the walker and the text nodes of an element *)
(* ====================================================================== *)

Module TreeFacts.
Import JS Dom Paragraph Segments DomFacts.
Local Open Scope list_scope.
Local Open Scope nat_scope.

Definition indexedFrom {A} (s : nat) (l : list A) : list (nat * A) :=
  combine (seq s (List.length l)) l.

Lemma indexed_from_0 {A} (l : list A) : indexed l = indexedFrom 0 l.
Proof. reflexivity. Qed.

Lemma indexedFrom_cons {A} (s : nat) (x : A) (l : list A) :
  indexedFrom s (x :: l) = (s, x) :: indexedFrom (S s) l.
Proof. reflexivity. Qed.

Lemma indexedFrom_app {A} (s : nat) (a b : list A) :
  indexedFrom s (a ++ b) = indexedFrom s a ++ indexedFrom (s + List.length a) b.
Proof.
  revert s. induction a as [| x a IH]; intros s; cbn [app List.length].
  - rewrite Nat.add_0_r. reflexivity.
  - rewrite !indexedFrom_cons, IH. cbn. do 3 f_equal. lia.
Qed.

Lemma In_indexedFrom {A} (s : nat) (l : list A) (i : nat) (c : A) :
  In (i, c) (indexedFrom s l) <-> s <= i /\ nth_error l (i - s) = Some c.
Proof.
  revert s. induction l as [| x l IH]; intros s.
  - cbn. split; [tauto | ]. intros [_ H]. destruct (i - s); discriminate.
  - rewrite indexedFrom_cons. cbn [In]. rewrite IH. split.
    + intros [H | [Hs H]].
      * inversion H; subst. rewrite Nat.sub_diag. auto.
      * split; [lia | ]. replace (i - s) with (S (i - S s)) by lia. exact H.
    + intros [Hs H]. destruct (Nat.eq_dec s i) as [-> | Hne].
      * left. rewrite Nat.sub_diag in H. cbn in H. congruence.
      * right. split; [lia | ].
        replace (i - s) with (S (i - S s)) in H by lia. exact H.
Qed.

Lemma In_indexed {A} (l : list A) (i : nat) (c : A) :
  In (i, c) (indexed l) <-> nth_error l i = Some c.
Proof.
  rewrite indexed_from_0, In_indexedFrom, Nat.sub_0_r. intuition lia.
Qed.

Lemma map_fst_indexedFrom {A} (s : nat) (l : list A) :
  map fst (indexedFrom s l) = seq s (List.length l).
Proof.
  revert s. induction l as [| x l IH]; intros s; [reflexivity | ].
  rewrite indexedFrom_cons. cbn. rewrite IH. reflexivity.
Qed.

Lemma map_snd_indexedFrom {A} (s : nat) (l : list A) : map snd (indexedFrom s l) = l.
Proof.
  revert s. induction l as [| x l IH]; intros s; [reflexivity | ].
  rewrite indexedFrom_cons. cbn. rewrite IH. reflexivity.
Qed.

Lemma flat_map_ext_in {A B} (f g : A -> list B) (l : list A) :
  (forall x, In x l -> f x = g x) -> flat_map f l = flat_map g l.
Proof.
  induction l as [| x l IH]; intros H; [reflexivity | ].
  cbn. rewrite (H x) by (left; reflexivity).
  rewrite IH; [reflexivity | ]. intros y Hy. apply H. right. exact Hy.
Qed.

Lemma filter_flat_map {A B} (p : B -> bool) (f : A -> list B) (l : list A) :
  filter p (flat_map f l) = flat_map (fun x => filter p (f x)) l.
Proof.
  induction l as [| x l IH]; [reflexivity | ].
  cbn. rewrite filter_app, IH. reflexivity.
Qed.

Lemma flat_map_singleton {A B} (f : A -> B) (l : list A) :
  flat_map (fun x => [f x]) l = map f l.
Proof. induction l as [| x l IH]; [reflexivity | cbn; rewrite IH; reflexivity]. Qed.

Lemma filter_none {A} (f : A -> bool) (l : list A) :
  (forall x, In x l -> f x = false) -> filter f l = [].
Proof.
  induction l as [| x l IH]; intros H; [reflexivity | ].
  cbn. rewrite (H x) by (left; reflexivity). apply IH.
  intros y Hy. apply H. right. exact Hy.
Qed.

Lemma filter_all {A} (f : A -> bool) (l : list A) :
  (forall x, In x l -> f x = true) -> filter f l = l.
Proof.
  induction l as [| x l IH]; intros H; [reflexivity | ].
  cbn. rewrite (H x) by (left; reflexivity). f_equal. apply IH.
  intros y Hy. apply H. right. exact Hy.
Qed.

Lemma flat_map_nil_in {A B} (g : A -> list B) (l : list A) :
  (forall x, In x l -> g x = []) -> flat_map g l = [].
Proof.
  induction l as [| x l IH]; intros H; [reflexivity | ].
  cbn. rewrite (H x) by (left; reflexivity). apply IH.
  intros y Hy. apply H. right. exact Hy.
Qed.

(** Only the piece of index [j] contributes. *)
Lemma flat_map_only_from {A B} (g : nat * A -> list B) (j : nat) (c : A) (l : list A) :
  forall s,
    s <= j -> nth_error l (j - s) = Some c ->
    (forall k c', k <> j -> In (k, c') (indexedFrom s l) -> g (k, c') = []) ->
    flat_map g (indexedFrom s l) = g (j, c).
Proof.
  induction l as [| x l IH]; intros s Hs Hnth Hg.
  - destruct (j - s); discriminate.
  - rewrite indexedFrom_cons. cbn [flat_map].
    destruct (Nat.eq_dec s j) as [-> | Hne].
    + rewrite Nat.sub_diag in Hnth. cbn in Hnth. inversion Hnth; subst.
      rewrite (@flat_map_nil_in _ _ g (indexedFrom (S j) l)); [apply app_nil_r | ].
      intros [k c'] Hin. apply Hg.
      * apply In_indexedFrom in Hin. lia.
      * rewrite indexedFrom_cons. right. exact Hin.
    + rewrite (Hg s x) by (try assumption; rewrite indexedFrom_cons; left; reflexivity).
      cbn. apply IH; [lia | | ].
      * replace (j - s) with (S (j - S s)) in Hnth by lia. exact Hnth.
      * intros k c' Hk Hin. apply Hg; [exact Hk | ].
        rewrite indexedFrom_cons. right. exact Hin.
Qed.

Lemma flat_map_only {A B} (g : nat * A -> list B) (l : list A) (j : nat) (c : A) :
  nth_error l j = Some c ->
  (forall k c', k <> j -> In (k, c') (indexed l) -> g (k, c') = []) ->
  flat_map g (indexed l) = g (j, c).
Proof.
  intros Hnth Hg. rewrite indexed_from_0. apply flat_map_only_from; try lia.
  - rewrite Nat.sub_0_r. exact Hnth.
  - exact Hg.
Qed.

(** ** The walker and the text nodes, child by child *)

Lemma elementsBelow_Elem (p : path) (t : string) (cs : list node) :
  elementsBelow p (Elem t cs)
  = flat_map (fun k => (if isElement (snd k) then [p ++ [fst k]] else [])
                       ++ elementsBelow (p ++ [fst k]) (snd k))
             (indexed cs).
Proof.
  cbn [elementsBelow]. rewrite indexed_from_0. generalize 0 as s.
  induction cs as [| c cs IH]; intros s; [reflexivity | ].
  rewrite indexedFrom_cons. cbn [flat_map fst snd]. rewrite IH, <- app_assoc. reflexivity.
Qed.

Lemma textNodes_Elem (p : path) (t : string) (cs : list node) :
  textNodes p (Elem t cs)
  = flat_map (fun k => textNodes (p ++ [fst k]) (snd k)) (indexed cs).
Proof.
  cbn [textNodes]. rewrite indexed_from_0. generalize 0 as s.
  induction cs as [| c cs IH]; intros s; [reflexivity | ].
  rewrite indexedFrom_cons. cbn [flat_map fst snd]. rewrite IH. reflexivity.
Qed.

(** An induction principle that reaches the children of an element. *)
Lemma node_induction (P : node -> Prop) :
  (forall data, P (Text data)) ->
  (forall t cs, Forall P cs -> P (Elem t cs)) ->
  forall n, P n.
Proof.
  intros HT HE. fix IH 1. intros [t cs | data]; [ | apply HT].
  apply HE. induction cs as [| c cs IHcs]; constructor; [apply IH | exact IHcs].
Qed.

(** The text nodes below a node lie at or below its path. *)
Lemma textNodes_prefix (n : node) :
  forall p q data, In (q, data) (textNodes p n) -> isPrefix p q = true.
Proof.
  induction n as [data | t cs IH] using node_induction; intros p q d Hin.
  - cbn in Hin. destruct Hin as [H | []]. inversion H; subst. apply isPrefix_refl.
  - rewrite textNodes_Elem in Hin. apply in_flat_map in Hin.
    destruct Hin as ([k c] & Hk & Hin). cbn [fst snd] in Hin.
    apply In_indexed in Hk. apply nth_error_In in Hk.
    rewrite Forall_forall in IH. apply (IH c Hk) in Hin.
    clear - Hin. revert q Hin. induction p as [| x p IHp]; intros q Hin; [reflexivity | ].
    destruct q as [| y q]; [discriminate | ]. cbn in *.
    apply andb_true_iff in Hin. destruct Hin as [Hxy Hin].
    rewrite Hxy. apply IHp. exact Hin.
Qed.

(** The data of the text nodes does not depend on where the node is. *)
Lemma textNodes_data (n : node) :
  forall p q, map snd (textNodes p n) = map snd (textNodes q n).
Proof.
  induction n as [data | t cs IH] using node_induction; intros p q; [reflexivity | ].
  rewrite !textNodes_Elem, indexed_from_0. generalize 0 as s.
  induction IH as [| c cs Hc _ IHcs]; intros s; [reflexivity | ].
  rewrite indexedFrom_cons. cbn [flat_map fst snd]. rewrite !map_app.
  rewrite (Hc (p ++ [s]) (q ++ [s])), IHcs. reflexivity.
Qed.

(** ** The text a block holds *)

(** [q] lies strictly below [t]. *)
Definition strictlyBelow (t q : path) : bool := isPrefix t q && negb (isPrefix q t).

(** A node is contained in the range from inside the child [i] of [b] to
    right after that child exactly when it lies strictly below the child. *)
Lemma contained_in_child (b : path) (i : nat) :
  forall q len,
    contained (mkBP (b ++ [i]) 0) (mkBP b (i + 1)) q len = strictlyBelow (b ++ [i]) q.
Proof.
  unfold contained, isAfter, isBefore, position, bpSeq, strictlyBelow.
  cbn [container offset].
  induction b as [| x b IH]; intros q len.
  - destruct q as [| j r]; cbn.
    + destruct i; reflexivity.
    + destruct (Nat.compare_spec j i) as [-> | Hlt | Hgt].
      * rewrite Nat.eqb_refl.
        rewrite (proj2 (Nat.compare_lt_iff i (i + 1))) by lia.
        destruct r as [| y r]; cbn; [reflexivity | ].
        destruct y; cbn; [ | reflexivity].
        rewrite compareSeq_nil_r by (destruct r; discriminate). reflexivity.
      * rewrite (proj2 (Nat.eqb_neq i j)) by lia. reflexivity.
      * rewrite (proj2 (Nat.eqb_neq i j)) by lia.
        destruct (Nat.compare_spec j (i + 1)) as [-> | Hlt' | Hgt']; cbn.
        -- rewrite compareSeq_nil_r by (destruct r; discriminate). reflexivity.
        -- lia.
        -- reflexivity.
  - destruct q as [| j r]; cbn.
    + destruct x; cbn; [ | reflexivity].
      destruct ((b ++ [i]) ++ [0]) eqn:Hb; [ | reflexivity].
      apply app_eq_nil in Hb. destruct Hb; discriminate.
    + destruct (Nat.compare_spec j x) as [-> | Hlt | Hgt].
      * rewrite Nat.eqb_refl. cbn. apply IH.
      * rewrite (proj2 (Nat.eqb_neq x j)) by lia. reflexivity.
      * rewrite (proj2 (Nat.eqb_neq x j)) by lia. reflexivity.
Qed.

Lemma strictlyBelow_app (p a b : path) :
  strictlyBelow (p ++ a) (p ++ b) = strictlyBelow a b.
Proof. unfold strictlyBelow. rewrite !isPrefix_app. reflexivity. Qed.

Lemma isPrefix_trans (a b c : path) :
  isPrefix a b = true -> isPrefix b c = true -> isPrefix a c = true.
Proof.
  revert b c. induction a as [| x a IH]; intros b c Hab Hbc; [reflexivity | ].
  destruct b as [| y b]; [discriminate | ]. destruct c as [| z c]; [discriminate | ].
  cbn in *. apply andb_true_iff in Hab, Hbc. destruct Hab as [Hxy Hab], Hbc as [Hyz Hbc].
  apply Nat.eqb_eq in Hxy, Hyz. subst. rewrite Nat.eqb_refl. cbn. eapply IH; eassumption.
Qed.

(** Paths through different children of one node are unrelated. *)
Lemma isPrefix_sibling (p : path) (k j : nat) (a q : path) :
  k <> j -> isPrefix (p ++ [k]) q = true -> isPrefix (p ++ j :: a) q = false.
Proof.
  intros Hkj. revert q. induction p as [| x p IH]; intros q Hq.
  - destruct q as [| y q]; [discriminate | ]. cbn in *.
    apply andb_true_iff in Hq. destruct Hq as [Hky _]. apply Nat.eqb_eq in Hky. subst.
    rewrite (proj2 (Nat.eqb_neq j y)) by lia. reflexivity.
  - destruct q as [| y q]; [discriminate | ]. cbn in *.
    apply andb_true_iff in Hq. destruct Hq as [Hxy Hq]. rewrite Hxy. cbn.
    apply IH. exact Hq.
Qed.

(** Among the text nodes below [n], those strictly below a descendant
    element are the text nodes of that element. *)
Lemma textNodes_strictlyBelow (rel : path) :
  forall (p : path) (n : node) (t : string) (cs : list node),
    nodeAt n rel = Some (Elem t cs) ->
    filter (fun x => strictlyBelow (p ++ rel) (fst x)) (textNodes p n)
    = textNodes (p ++ rel) (Elem t cs).
Proof.
  induction rel as [| j rel IH]; intros p n t cs Hn.
  - cbn in Hn. inversion Hn; subst. rewrite app_nil_r.
    apply filter_all. intros [q data] Hin.
    cbn [fst]. rewrite textNodes_Elem in Hin. apply in_flat_map in Hin.
    destruct Hin as ([k c] & _ & Hin). cbn [fst snd] in Hin.
    apply textNodes_prefix in Hin.
    unfold strictlyBelow.
    rewrite (@isPrefix_trans p (p ++ [k]) q (isPrefix_app_r p [k]) Hin).
    assert (Hq : isPrefix q p = false).
    { destruct (isPrefix q p) eqn:Hqp; [ | reflexivity].
      assert (H := @isPrefix_trans (p ++ [k]) q p Hin Hqp).
      rewrite isPrefix_longer in H. discriminate. }
    rewrite Hq. reflexivity.
  - cbn [nodeAt] in Hn. destruct n as [tn cn | data]; [ | destruct j; discriminate].
    cbn [childNodes] in Hn. destruct (nth_error cn j) as [c | ] eqn:Hj; [ | discriminate].
    rewrite textNodes_Elem, filter_flat_map.
    rewrite (@flat_map_only _ _ _ cn j c Hj).
    + cbn [fst snd]. replace (p ++ j :: rel) with ((p ++ [j]) ++ rel)
        by (rewrite <- app_assoc; reflexivity).
      apply IH. exact Hn.
    + intros k c' Hk _. cbn [fst snd].
      apply filter_none. intros [q data] Hin. cbn [fst].
      apply textNodes_prefix in Hin. unfold strictlyBelow.
      rewrite (@isPrefix_sibling p k j rel q Hk Hin). reflexivity.
Qed.

Lemma childrenAt_node (d : Document) (p : path) (n : node) :
  docNodeAt d p = Some n -> childrenAt d p = childNodes n.
Proof.
  destruct p as [| x p]; [discriminate | ].
  intros H. unfold childrenAt. rewrite H. reflexivity.
Qed.

Lemma docNodeAt_root (d : Document) (p : path) (n : node) :
  docNodeAt d p = Some n ->
  exists rel, p = [0] ++ rel /\ nodeAt (documentElement d) rel = Some n.
Proof.
  destruct p as [| [| x] p]; try discriminate.
  intros H. exists p. split; [reflexivity | exact H].
Qed.

(** One level of [cloneContentsAux]. *)
Lemma cloneContentsAux_step (fuel : nat) (d : Document) (s e : BoundaryPoint) :
  cloneContentsAux (S fuel) d s e =
  if bp_eqb s e then []
  else
    match (if path_eqb (container s) (container e)
           then textAt d (container s) else None) with
    | Some data => [Text (substringData data (offset s) (offset e - offset s))]
    | None =>
        let ca := commonAncestor (container s) (container e) in
        let kids := indexed (childrenAt d ca) in
        let partial := fun k : nat * node => partiallyContained s e (ca ++ [fst k]) in
        let firstPartial :=
          if isPrefix (container s) (container e) then None
          else find partial kids in
        let lastPartial :=
          if isPrefix (container e) (container s) then None
          else find partial (rev kids) in
        let containedChildren :=
          filter (fun k => contained s e (ca ++ [fst k]) (nodeLength (snd k))) kids in
        (match firstPartial with
         | Some (_, Text data) => [Text (skipn (offset s) data)]
         | Some (i, Elem t cs) =>
             [Elem t (cloneContentsAux fuel d s (mkBP (ca ++ [i]) (List.length cs)))]
         | None => []
         end)
        ++ map snd containedChildren
        ++ (match lastPartial with
            | Some (_, Text data) => [Text (firstn (offset e) data)]
            | Some (i, Elem t cs) =>
                [Elem t (cloneContentsAux fuel d (mkBP (ca ++ [i]) 0) e)]
            | None => []
            end)
    end.
Proof. reflexivity. Qed.

Section ChildBlock.
Variable d : Document.
Variable b : path.
Variables (tb : string) (ps : list node).
Hypothesis b_node : docNodeAt d b = Some (Elem tb ps).
Variable i : nat.
Variables (t : string) (cs : list node).
Hypothesis child_node : nth_error ps i = Some (Elem t cs).

Lemma b_nonempty : b <> [].
Proof. eapply docNodeAt_nonempty. exact b_node. Qed.

Lemma childrenAt_b : childrenAt d b = ps.
Proof. rewrite (childrenAt_node _ _ _ b_node). reflexivity. Qed.

Lemma docNodeAt_child_node : docNodeAt d (b ++ [i]) = Some (Elem t cs).
Proof. rewrite docNodeAt_child by exact b_nonempty. rewrite childrenAt_b. exact child_node. Qed.

Lemma childrenAt_child : childrenAt d (b ++ [i]) = cs.
Proof. rewrite (childrenAt_node _ _ _ docNodeAt_child_node). reflexivity. Qed.

(** The text of the block of child [i] is the text below that child. *)
Lemma rangeToString_childRange :
  rangeToString d (childRange d b i) = textContent (Elem t cs).
Proof.
  unfold rangeToString, childRange, textAt. cbn [rangeStart rangeEnd container offset].
  rewrite docNodeAt_child_node, b_node, app_nil_r.
  rewrite (filter_ext _ (fun x => strictlyBelow (b ++ [i]) (fst x)))
    by (intros x; apply contained_in_child).
  destruct (docNodeAt_root _ _ _ docNodeAt_child_node) as (rel & Hrel & Hnode).
  rewrite Hrel.
  unfold textContent. rewrite (textNodes_data (Elem t cs) [] ([0] ++ rel)).
  do 2 f_equal. exact (textNodes_strictlyBelow rel [0] _ t cs Hnode).
Qed.

Lemma position_child_start_end :
  position (mkBP (b ++ [i]) 0) (mkBP b (i + 1)) = Lt.
Proof.
  unfold position, bpSeq. cbn [container offset].
  rewrite <- app_assoc, compareSeq_app. cbn.
  rewrite (proj2 (Nat.compare_lt_iff i (i + 1))) by lia. reflexivity.
Qed.

Lemma find_child (f : nat * node -> bool) :
  (forall k, f k = (fst k =? i)) ->
  find f (indexed ps) = Some (i, Elem t cs).
Proof.
  intros Hf. rewrite indexed_from_0.
  assert (G : forall l s, s <= i -> nth_error l (i - s) = Some (Elem t cs) ->
              find f (indexedFrom s l) = Some (i, Elem t cs)).
  { induction l as [| x l IH]; intros s Hs Hnth.
    - destruct (i - s); discriminate.
    - rewrite indexedFrom_cons. cbn [find]. rewrite Hf. cbn [fst].
      destruct (Nat.eqb_spec s i) as [-> | Hne].
      + rewrite Nat.sub_diag in Hnth. cbn in Hnth. congruence.
      + apply IH; [lia | ]. replace (i - s) with (S (i - S s)) in Hnth by lia. exact Hnth. }
  apply G; [lia | ]. rewrite Nat.sub_0_r. exact child_node.
Qed.

(** The contents of the range from the start of an element to its end are
    its children. *)
Lemma clone_children (fuel : nat) :
  cloneContentsAux (S fuel) d (mkBP (b ++ [i]) 0) (mkBP (b ++ [i]) (List.length cs)) = cs.
Proof.
  rewrite cloneContentsAux_step. cbv zeta. cbn [container offset].
  unfold bp_eqb, position, bpSeq. cbn [container offset].
  rewrite compareSeq_app. cbn [compareSeq].
  destruct (List.length cs) as [| m] eqn:Hlen.
  - cbn. symmetry. apply length_zero_iff_nil. exact Hlen.
  - cbn [Nat.compare].
    unfold path_eqb. rewrite isPrefix_refl. cbn [andb].
    unfold textAt. rewrite docNodeAt_child_node.
    rewrite commonAncestor_refl, childrenAt_child.
    rewrite app_nil_r. cbn [app].
    rewrite filter_all; [apply map_snd_indexedFrom | ].
    intros [k c0] Hin. cbn [fst snd]. apply In_indexed in Hin.
    assert (Hk : k < List.length cs) by (apply nth_error_Some; congruence).
    unfold contained, isAfter, isBefore, position, bpSeq. cbn [container offset].
    rewrite <- !app_assoc, !compareSeq_app. cbn [app compareSeq].
    rewrite (proj2 (Nat.compare_lt_iff k (S m))) by lia.
    destruct k; reflexivity.
Qed.

(** The contents of the block of child [i] are that child with all that is
    below it. *)
Lemma cloneContents_childRange :
  cloneContents d (childRange d b i) = [Elem t cs].
Proof.
  unfold cloneContents, childRange. cbn [rangeStart rangeEnd container offset].
  rewrite length_app. cbn [List.length]. rewrite Nat.add_1_r. cbn [Nat.add].
  rewrite cloneContentsAux_step. cbv zeta. cbn [container offset].
  unfold bp_eqb. rewrite position_child_start_end.
  unfold path_eqb. rewrite isPrefix_longer. cbn [andb].
  rewrite commonAncestor_child, childrenAt_b, isPrefix_app_r.
  rewrite (find_child (fun k => partiallyContained (mkBP (b ++ [i]) 0) (mkBP b (i + 1))
                                  (b ++ [fst k]))).
  2: { intros k. unfold partiallyContained. cbn [container].
       rewrite isPrefix_app, isPrefix_longer. cbn. rewrite andb_true_r, xorb_false_r.
       reflexivity. }
  rewrite filter_none.
  2: { intros [k c0] _. cbn [fst snd]. rewrite contained_in_child, strictlyBelow_app.
       unfold strictlyBelow. cbn. rewrite !andb_true_r, (Nat.eqb_sym k i).
       destruct (i =? k); reflexivity. }
  cbn [map app]. rewrite clone_children. reflexivity.
Qed.

(** The block of child [i] has content exactly when the child holds
    meaningful text or a media element. *)
Lemma rangeHasContent_childRange :
  rangeHasContent d (childRange d b i)
  = hasMeaningfulText (Some (textContent (Elem t cs)))
    || matchesBelow MEDIA_SELECTOR (Elem t cs).
Proof.
  unfold rangeHasContent.
  rewrite rangeToString_childRange, cloneContents_childRange.
  destruct (hasMeaningfulText _); [reflexivity | ].
  cbn [querySelector existsb orb]. rewrite orb_false_r. reflexivity.
Qed.

End ChildBlock.

End TreeFacts.

(* ====================================================================== *)
(** * Bodies made of simple blocks *)
(* ====================================================================== *)

Module FlatFacts.
Import JS Dom Paragraph Segments WalkFacts DomFacts TreeFacts.
Local Open Scope list_scope.
Local Open Scope nat_scope.

Lemma simple_block_shape (c : node) :
  isSimpleBlock c = true ->
  exists t cs, c = Elem t cs
               /\ blockTags_has (toLowerCase t) = true
               /\ forallb isInlineLeaf cs = true.
Proof.
  destruct c as [t cs | data]; [ | discriminate].
  cbn. intros H. apply andb_true_iff in H. exists t, cs. tauto.
Qed.

Lemma inline_leaf_no_block (c : node) :
  isInlineLeaf c = true ->
  match c with
  | Elem t _ => blockTags_has (toLowerCase t)
  | Text _ => false
  end = false.
Proof.
  destruct c as [t [| x cs] | data]; cbn [isInlineLeaf];
    try discriminate; try reflexivity.
  apply negb_true_iff.
Qed.

Lemma simple_block_opens (t : string) (cs : list node) :
  isSimpleBlock (Elem t cs) = true -> opensBlock (Elem t cs) = true.
Proof.
  cbn [isSimpleBlock opensBlock]. intros H.
  apply andb_true_iff in H. destruct H as [Ht Hcs]. rewrite Ht. cbn [andb].
  assert (Hb : hasBlockChild (Elem t cs) = false).
  { unfold hasBlockChild. cbn [childNodes]. rewrite forallb_forall in Hcs.
    apply not_true_is_false. intros Hex. apply existsb_exists in Hex.
    destruct Hex as (c & Hin & Hc). apply Hcs, inline_leaf_no_block in Hin.
    congruence. }
  rewrite Hb. reflexivity.
Qed.

Lemma lastChildOr_children (d : Document) (b : path) (cs : list node) :
  childrenAt d b = cs -> cs <> [] -> lastChildOr d b = b ++ [List.length cs - 1].
Proof.
  intros H Hne. unfold lastChildOr. rewrite H.
  destruct cs; [congruence | reflexivity].
Qed.

Section SimpleBody.
Variable d : Document.
Variable b : path.
Variables (tb : string) (ps : list node).
Hypothesis b_node : docNodeAt d b = Some (Elem tb ps).
Hypothesis simple : Forall (fun c => isSimpleBlock c = true) ps.

Lemma simple_child (i : nat) (c : node) :
  nth_error ps i = Some c ->
  exists t cs, c = Elem t cs /\ isSimpleBlock (Elem t cs) = true
               /\ docNodeAt d (b ++ [i]) = Some (Elem t cs).
Proof.
  intros Hnth. assert (Hc : isSimpleBlock c = true).
  { rewrite Forall_forall in simple. apply simple. eapply nth_error_In. exact Hnth. }
  destruct (simple_block_shape c Hc) as (t & cs & -> & _ & _).
  exists t, cs. repeat split; auto.
  exact (docNodeAt_child_node d b tb ps b_node i t cs Hnth).
Qed.

(** The elements below a simple block open no block. *)
Lemma inline_leaves_skipped (i : nat) (t : string) (cs : list node) :
  nth_error ps i = Some (Elem t cs) ->
  filter (opens d) (elementsBelow (b ++ [i]) (Elem t cs)) = [].
Proof.
  intros Hnth. destruct (simple_child i _ Hnth) as (t' & cs' & Heq & Hs & Hnode).
  inversion Heq; subst t' cs'. clear Heq.
  cbn in Hs. apply andb_true_iff in Hs. destruct Hs as [_ Hleaves].
  rewrite forallb_forall in Hleaves.
  rewrite elementsBelow_Elem, filter_flat_map.
  apply flat_map_nil_in. intros [j c] Hin. cbn [fst snd].
  apply In_indexed in Hin.
  assert (Hleaf := Hleaves c (nth_error_In _ _ Hin)).
  assert (Hc : docNodeAt d ((b ++ [i]) ++ [j]) = Some c).
  { rewrite docNodeAt_child.
    - rewrite (childrenAt_node _ _ _ Hnode). exact Hin.
    - intros E. apply app_eq_nil in E. destruct E; discriminate. }
  destruct c as [tc [| x cc] | data]; cbn [isInlineLeaf] in Hleaf; try discriminate.
  - cbn [isElement elementsBelow app filter].
    unfold opens. rewrite Hc. cbn [opensBlock].
    apply negb_true_iff in Hleaf. rewrite Hleaf. reflexivity.
  - reflexivity.
Qed.

(** The qualifying elements are the children of the body. *)
Lemma qualifying_simple :
  qualifying d b = map (fun i => b ++ [i]) (seq 0 (List.length ps)).
Proof.
  unfold qualifying, createTreeWalker. rewrite b_node.
  rewrite elementsBelow_Elem, filter_flat_map.
  rewrite (flat_map_ext_in _ (fun k => [b ++ [fst k]])).
  - rewrite flat_map_singleton, indexed_from_0.
    rewrite <- (map_fst_indexedFrom 0 ps), map_map. reflexivity.
  - intros [i c] Hin. cbn [fst snd]. apply In_indexed in Hin.
    destruct (simple_child i c Hin) as (t & cs & -> & Hs & Hnode).
    cbn [isElement app filter].
    rewrite (inline_leaves_skipped i t cs Hin).
    unfold opens. rewrite Hnode, (simple_block_opens t cs Hs). reflexivity.
Qed.

Lemma children_open (s m : nat) :
  s + m <= List.length ps ->
  Forall (fun p => opens d p = true) (map (fun i => b ++ [i]) (seq s m)).
Proof.
  intros Hle. apply Forall_forall. intros p Hp. apply in_map_iff in Hp.
  destruct Hp as (i & <- & Hi). apply in_seq in Hi.
  destruct (nth_error ps i) as [c | ] eqn:Hnth.
  - destruct (simple_child i c Hnth) as (t & cs & -> & Hs & Hnode).
    unfold opens. rewrite Hnode. apply simple_block_opens, Hs.
  - apply nth_error_None in Hnth. lia.
Qed.

Lemma openAt_child (i : nat) :
  i < List.length ps -> openAt d (b ++ [i]) = Some (collapsedAt d (b ++ [i])).
Proof.
  intros Hi. destruct (nth_error ps i) as [c | ] eqn:Hnth.
  - destruct (simple_child i c Hnth) as (t & cs & -> & _ & Hnode).
    exact (openAt_node d _ _ Hnode).
  - apply nth_error_None in Hnth. lia.
Qed.

Lemma lengthAt_b : lengthAt d b = Some (List.length ps).
Proof.
  unfold lengthAt. rewrite b_node.
  destruct b eqn:E; [ | reflexivity].
  discriminate.
Qed.

(** Closing the range opened in child [i] at position [k] of the body. *)
Lemma setEnd_child (i k : nat) :
  i < k -> k <= List.length ps ->
  setEnd d (collapsedAt d (b ++ [i])) b k
  = Normal (mkRange (docId d) (mkBP (b ++ [i]) 0) (mkBP b k)).
Proof.
  intros Hik Hk. unfold setEnd. rewrite lengthAt_b.
  destruct (Nat.ltb_spec (List.length ps) k) as [Hlt | _]; [lia | ].
  unfold isBefore, position, bpSeq, collapsedAt. cbn [rangeStart rangeDoc container offset].
  rewrite <- app_assoc, compareSeq_app. cbn [app compareSeq].
  rewrite (proj2 (Nat.compare_gt_iff k i)) by lia. reflexivity.
Qed.

Lemma closedBefore_next (i : nat) :
  S i < List.length ps ->
  closedBefore d (Some (collapsedAt d (b ++ [i]))) (b ++ [S i]) = Some (childRange d b i).
Proof.
  intros Hi. unfold closedBefore, setEndBefore. rewrite parentAndIndex_app.
  rewrite setEnd_child by lia. unfold childRange. rewrite Nat.add_1_r. reflexivity.
Qed.

(** The ranges closed during the walk, and the range still open after it. *)
Lemma candidates_children (m : nat) :
  forall s,
    S s + m <= List.length ps ->
    candidates d (Some (collapsedAt d (b ++ [s]))) (map (fun i => b ++ [i]) (seq (S s) m))
    = map (childRange d b) (seq s m)
    /\ lastOpened d (Some (collapsedAt d (b ++ [s]))) (map (fun i => b ++ [i]) (seq (S s) m))
       = Some (collapsedAt d (b ++ [s + m])).
Proof.
  induction m as [| m IH]; intros s Hle.
  - cbn. rewrite Nat.add_0_r. auto.
  - cbn [seq map candidates lastOpened].
    rewrite closedBefore_next by lia. rewrite openAt_child by lia.
    destruct (IH (S s)) as [Hc Hl]; [lia | ].
    rewrite Hc, Hl. replace (s + S m) with (S s + m) by lia. split; reflexivity.
Qed.

(** The blocks of a body made of simple blocks: the ranges of its children
    that have content, as long as they stay below the cap. *)
Lemma createAsync_simple (batchSize : nat) :
  body d = Some b ->
  ps <> [] ->
  List.length (filter (rangeHasContent d)
                 (map (childRange d b) (seq 0 (List.length ps)))) < MAX_BLOCKS ->
  createAsync (Some d) batchSize
  = Normal (new (filter (rangeHasContent d)
                   (map (childRange d b) (seq 0 (List.length ps))))).
Proof.
  intros Hbody Hne Hcap.
  destruct (List.length ps) as [| n] eqn:Hlen;
    [apply length_zero_iff_nil in Hlen; congruence | ].
  rewrite seq_S, map_app, filter_app in *. cbn [Nat.add map] in *.
  rewrite length_app in Hcap.
  rewrite (SegmentFacts.createAsync_body d b batchSize Hbody). f_equal.
  rewrite qualifying_simple, Hlen. cbn [seq map].
  destruct (candidates_children n 0) as [Hc Hl]; [lia | ].
  assert (Hopen : Forall (fun p => opens d p = true)
                    ((b ++ [0]) :: map (fun i => b ++ [i]) (seq 1 n))).
  { apply (children_open 0 (S n)). lia. }
  assert (Hw := walk_below_cap d batchSize _ SegmentFacts.start Hopen).
  cbn [candidates lastOpened closedBefore SegmentFacts.start wLast wBlocks wCount] in Hw.
  rewrite openAt_child in Hw by lia. rewrite Hc, Hl in Hw.
  cbn [app Nat.add] in Hw.
  rewrite (finish_core d b _
             (mkWalk (filter (rangeHasContent d) (map (childRange d b) (seq 0 n)))
                     (Some (collapsedAt d (b ++ [n])))
                     (List.length (filter (rangeHasContent d)
                                     (map (childRange d b) (seq 0 n)))) 0 0)).
  2: { rewrite Hw by lia. reflexivity. }
  unfold finish. cbn [wCount wLast wBlocks].
  destruct (Nat.leb_spec MAX_BLOCKS
              (List.length (filter (rangeHasContent d) (map (childRange d b) (seq 0 n)))))
    as [Hge | _]; [lia | ].
  rewrite (lastChildOr_children d b ps (childrenAt_node _ _ _ b_node) Hne).
  rewrite Hlen. replace (S n - 1) with n by lia.
  unfold setEndAfter. rewrite parentAndIndex_app.
  rewrite setEnd_child by lia.
  cbn [bind tryCatch filter]. fold (childRange d b n).
  destruct (rangeHasContent d (childRange d b n)); [reflexivity | ].
  rewrite app_nil_r. reflexivity.
Qed.

(** Whether a child's block is kept depends on the child alone. *)
Lemma kept_children :
  filter (rangeHasContent d) (map (childRange d b) (seq 0 (List.length ps)))
  = map (fun k => childRange d b (fst k))
        (filter (fun k => nodeHasContent (snd k)) (indexed ps)).
Proof.
  rewrite <- (map_fst_indexedFrom 0 ps), map_map, indexed_from_0.
  rewrite filter_map_swap. f_equal.
  apply filter_ext_in. intros [i c] Hin. cbn [fst snd].
  apply (In_indexed ps i c) in Hin.
  destruct (simple_child i c Hin) as (t & cs & -> & _ & _).
  exact (rangeHasContent_childRange d b tb ps b_node i t cs Hin).
Qed.

End SimpleBody.

(** ** Paragraphs without content *)

Lemma textContent_Elem (t : string) (cs : list node) :
  textContent (Elem t cs) = List.concat (map textContent cs).
Proof.
  unfold textContent. rewrite textNodes_Elem, indexed_from_0. generalize 0 as s.
  induction cs as [| c cs IH]; intros s; [reflexivity | ].
  rewrite indexedFrom_cons. cbn [flat_map fst snd map List.concat].
  rewrite map_app, concat_app, IH.
  rewrite (textNodes_data c ([] ++ [s]) []). reflexivity.
Qed.

Lemma stripInvisible_concat (l : list jsstring) :
  Forall (fun s => stripInvisible s = []) l -> stripInvisible (List.concat l) = [].
Proof.
  induction 1 as [| s l Hs _ IH]; [reflexivity | ].
  cbn [List.concat]. unfold stripInvisible in *. rewrite filter_app, Hs, IH. reflexivity.
Qed.

Lemma no_meaningful_text (s : jsstring) :
  hasMeaningfulText (Some s) = false -> stripInvisible s = [].
Proof.
  unfold hasMeaningfulText. destruct (stripInvisible s); [reflexivity | discriminate].
Qed.

Lemma blank_inline_text (c : node) :
  isBlankInline c = true -> stripInvisible (textContent c) = [].
Proof.
  destruct c as [t [| x cs] | data]; cbn [isBlankInline].
  - reflexivity.
  - rewrite andb_false_r. discriminate.
  - intros H. apply negb_true_iff, no_meaningful_text in H.
    unfold textContent. cbn. rewrite app_nil_r. exact H.
Qed.

Lemma blank_inline_media (c : node) :
  isBlankInline c = true -> matchesBelow MEDIA_SELECTOR c = false.
Proof.
  destruct c as [t [| x cs] | data]; cbn [isBlankInline]; try reflexivity.
  - intros H. apply andb_true_iff in H. destruct H as [H _].
    apply String.eqb_eq in H. cbn [matchesBelow]. rewrite H. reflexivity.
  - rewrite andb_false_r. discriminate.
Qed.

Lemma blank_paragraph_shape (c : node) :
  isBlankParagraph c = true ->
  exists t cs, c = Elem t cs /\ toLowerCase t = "p"%string
               /\ Forall (fun x => isBlankInline x = true) cs.
Proof.
  destruct c as [t cs | data]; [ | discriminate].
  cbn [isBlankParagraph]. intros H. apply andb_true_iff in H. destruct H as [Ht Hcs].
  exists t, cs. repeat split; [apply String.eqb_eq, Ht | ].
  apply Forall_forall. rewrite forallb_forall in Hcs. exact Hcs.
Qed.

Lemma blank_paragraph_simple (c : node) :
  isBlankParagraph c = true -> isSimpleBlock c = true.
Proof.
  intros H. destruct (blank_paragraph_shape c H) as (t & cs & -> & Ht & Hcs).
  cbn [isSimpleBlock]. rewrite Ht. cbn [andb]. change (blockTags_has "p") with true.
  cbn [andb]. apply forallb_forall. rewrite Forall_forall in Hcs.
  intros x Hx. specialize (Hcs x Hx).
  destruct x as [tx [| y cx] | data]; cbn [isBlankInline isInlineLeaf] in *.
  - apply andb_true_iff in Hcs. destruct Hcs as [Hcs _]. apply String.eqb_eq in Hcs.
    rewrite Hcs. reflexivity.
  - rewrite andb_false_r in Hcs. discriminate.
  - reflexivity.
Qed.

Lemma blank_paragraph_no_content (c : node) :
  isBlankParagraph c = true -> nodeHasContent c = false.
Proof.
  intros H. destruct (blank_paragraph_shape c H) as (t & cs & -> & Ht & Hcs).
  unfold nodeHasContent. apply orb_false_iff. split.
  - unfold hasMeaningfulText. rewrite textContent_Elem, stripInvisible_concat; [reflexivity | ].
    apply Forall_map. eapply Forall_impl; [ | exact Hcs].
    intros x Hx. apply blank_inline_text, Hx.
  - cbn [matchesBelow]. rewrite Ht. change (existsb (String.eqb "p") MEDIA_SELECTOR) with false.
    cbn [orb]. clear H. induction Hcs as [| x l Hx _ IH]; [reflexivity | ].
    rewrite (blank_inline_media x Hx). exact IH.
Qed.

Lemma blank_children_dropped (s : nat) (blanks : list node) :
  Forall (fun c => isBlankParagraph c = true) blanks ->
  filter (fun k : nat * node => nodeHasContent (snd k)) (indexedFrom s blanks) = [].
Proof.
  intros H. apply filter_none. intros [i c] Hin. cbn [snd].
  apply In_indexedFrom in Hin. destruct Hin as [_ Hin].
  apply blank_paragraph_no_content. rewrite Forall_forall in H.
  apply H. eapply nth_error_In. exact Hin.
Qed.

Section FirstAndSecond.
Variable id : nat.
Variables headChildren blanks1 blanks2 blanks3 : list node.
Hypothesis blank1 : Forall (fun c => isBlankParagraph c = true) blanks1.
Hypothesis blank2 : Forall (fun c => isBlankParagraph c = true) blanks2.
Hypothesis blank3 : Forall (fun c => isBlankParagraph c = true) blanks3.

Let paragraphs : list node :=
  blanks1 ++ paragraph "First" :: blanks2 ++ paragraph "Second" :: blanks3.
Let d : Document := htmlDocument id headChildren paragraphs.
Let firstIndex : nat := List.length blanks1.
Let secondIndex : nat := List.length blanks1 + 1 + List.length blanks2.

Lemma body_node : docNodeAt d [0; 1] = Some (Elem "BODY" paragraphs).
Proof. reflexivity. Qed.

Lemma paragraphs_simple : Forall (fun c => isSimpleBlock c = true) paragraphs.
Proof.
  assert (Hblank : forall l, Forall (fun c => isBlankParagraph c = true) l ->
                             Forall (fun c => isSimpleBlock c = true) l).
  { intros l Hl. eapply Forall_impl; [ | exact Hl].
    intros c Hc. apply blank_paragraph_simple, Hc. }
  unfold paragraphs. apply Forall_app. split; [apply Hblank, blank1 | ].
  apply Forall_cons; [reflexivity | ].
  apply Forall_app. split; [apply Hblank, blank2 | ].
  apply Forall_cons; [reflexivity | apply Hblank, blank3].
Qed.

Lemma first_paragraph : nth_error paragraphs firstIndex = Some (paragraph "First").
Proof.
  unfold paragraphs, firstIndex. rewrite nth_error_app2 by lia.
  rewrite Nat.sub_diag. reflexivity.
Qed.

Lemma second_paragraph : nth_error paragraphs secondIndex = Some (paragraph "Second").
Proof.
  unfold paragraphs, secondIndex. rewrite nth_error_app2 by lia.
  replace (List.length blanks1 + 1 + List.length blanks2 - List.length blanks1)
    with (S (List.length blanks2)) by lia.
  cbn [nth_error]. rewrite nth_error_app2 by lia.
  rewrite Nat.sub_diag. reflexivity.
Qed.

Lemma kept_paragraphs :
  filter (fun k : nat * node => nodeHasContent (snd k)) (indexed paragraphs)
  = [(firstIndex, paragraph "First"); (secondIndex, paragraph "Second")].
Proof.
  rewrite indexed_from_0. unfold paragraphs.
  rewrite indexedFrom_app, filter_app, (blank_children_dropped 0 blanks1 blank1).
  rewrite indexedFrom_cons. cbn [filter snd app].
  change (nodeHasContent (paragraph "First")) with true. cbv iota.
  rewrite indexedFrom_app, filter_app, (blank_children_dropped _ blanks2 blank2).
  rewrite indexedFrom_cons. cbn [filter snd app].
  change (nodeHasContent (paragraph "Second")) with true. cbv iota.
  rewrite (blank_children_dropped _ blanks3 blank3).
  unfold firstIndex, secondIndex. cbn [Nat.add].
  repeat f_equal; lia.
Qed.

Lemma first_and_second_blocks (batchSize : nat) :
  createAsync (Some d) batchSize
  = Normal (new [childRange d [0; 1] firstIndex; childRange d [0; 1] secondIndex])
  /\ rangeToString d (childRange d [0; 1] firstIndex) = str "First"
  /\ rangeToString d (childRange d [0; 1] secondIndex) = str "Second"
  /\ isBefore (rangeEnd (childRange d [0; 1] firstIndex))
              (rangeStart (childRange d [0; 1] secondIndex)) = true.
Proof.
  assert (Hkept := kept_children d [0; 1] "BODY" paragraphs body_node paragraphs_simple).
  rewrite kept_paragraphs in Hkept. cbn [map fst] in Hkept.
  split; [ | split; [ | split]].
  - rewrite (createAsync_simple d [0; 1] "BODY" paragraphs body_node paragraphs_simple).
    + rewrite Hkept. reflexivity.
    + reflexivity.
    + unfold paragraphs. intros E. apply app_eq_nil in E. destruct E; discriminate.
    + rewrite Hkept. unfold MAX_BLOCKS. cbn [List.length]. lia.
  - rewrite (rangeToString_childRange d [0; 1] "BODY" paragraphs body_node
               firstIndex "P" [Text (str "First")] first_paragraph).
    reflexivity.
  - rewrite (rangeToString_childRange d [0; 1] "BODY" paragraphs body_node
               secondIndex "P" [Text (str "Second")] second_paragraph).
    reflexivity.
  - unfold isBefore, position, bpSeq, childRange. cbn [rangeEnd rangeStart container offset].
    cbn [app compareSeq Nat.compare].
    destruct (Nat.compare_spec (firstIndex + 1) secondIndex) as [_ | _ | Hgt];
      try reflexivity.
    unfold firstIndex, secondIndex in Hgt. lia.
Qed.

End FirstAndSecond.

(** C5: a body of blank paragraphs (invisible text or line breaks only)
    with the paragraphs "First" and "Second" among them, in this order,
    yields exactly two blocks, in document order, whose text is "First"
    and "Second". *)
Theorem blank_paragraphs_skipped
  (id : nat) (headChildren blanks1 blanks2 blanks3 : list node) (batchSize : nat) :
  Forall (fun c => isBlankParagraph c = true) blanks1 ->
  Forall (fun c => isBlankParagraph c = true) blanks2 ->
  Forall (fun c => isBlankParagraph c = true) blanks3 ->
  let d := htmlDocument id headChildren
             (blanks1 ++ paragraph "First" :: blanks2 ++ paragraph "Second" :: blanks3) in
  let first := childRange d [0; 1] (List.length blanks1) in
  let second := childRange d [0; 1] (List.length blanks1 + 1 + List.length blanks2) in
  createAsync (Some d) batchSize = Normal (new [first; second])
  /\ rangeToString d first = str "First"
  /\ rangeToString d second = str "Second"
  /\ isBefore (rangeEnd first) (rangeStart second) = true.
Proof.
  intros H1 H2 H3.
  exact (first_and_second_blocks id headChildren blanks1 blanks2 blanks3 H1 H2 H3 batchSize).
Qed.

Lemma blank_paragraphs_skipped_witness :
  let d := htmlDocument 1 []
             (paragraph "First" :: Samples.blankParagraphs ++ [paragraph "Second"]) in
  createAsync (Some d) 1000
  = Normal (new [mkRange 1 (mkBP [0; 1; 0] 0) (mkBP [0; 1] 1);
                 mkRange 1 (mkBP [0; 1; 5] 0) (mkBP [0; 1] 6)])
  /\ rangeToString d (mkRange 1 (mkBP [0; 1; 0] 0) (mkBP [0; 1] 1)) = str "First"
  /\ rangeToString d (mkRange 1 (mkBP [0; 1; 5] 0) (mkBP [0; 1] 6)) = str "Second".
Proof.
  assert (Hb : Forall (fun c => isBlankParagraph c = true) Samples.blankParagraphs)
    by (repeat constructor).
  destruct (blank_paragraphs_skipped 1 [] [] Samples.blankParagraphs [] 1000
              (Forall_nil _) Hb (Forall_nil _)) as (Hblocks & Hfirst & Hsecond & _).
  repeat split; assumption.
Defined.

End FlatFacts.

From Stdlib Require Import Sorted Permutation.

(* ====================================================================== *)
(** * The cursor under sequences of calls *)
(* ====================================================================== *)

Module CallFacts.
Import JS Dom Paragraph Calls.
Local Open Scope Z_scope.

Lemma blockAt_nth (bs : list Range) (i : nat) : blockAt bs (Z.of_nat i) = nth_error bs i.
Proof.
  unfold blockAt. destruct (Z.ltb_spec (Z.of_nat i) 0) as [H | _]; [lia | ].
  rewrite Nat2Z.id. reflexivity.
Qed.


Lemma findIntersecting_spec (target : NodeRef) (bs : list Range) (k i : nat) (b : Range) :
  findIntersecting target bs k = Some (i, b) ->
  (k <= i)%nat
  /\ nth_error bs (i - k) = Some b
  /\ intersectsNode b target = true
  /\ (forall j b', (j < i - k)%nat -> nth_error bs j = Some b' ->
                   intersectsNode b' target = false).
Proof.
  revert k. induction bs as [| x bs IH]; intros k; cbn; [discriminate | ].
  destruct (intersectsNode x target) eqn:Hx.
  - intros H. inversion H; subst. rewrite Nat.sub_diag. cbn.
    repeat split; auto. intros j b' Hj. lia.
  - intros H. apply IH in H. destruct H as (Hk & Hnth & Hb & Hfirst).
    replace (i - k)%nat with (S (i - S k)) by lia. cbn.
    repeat split; auto; try lia.
    intros [| j] b' Hj Hb'; cbn in Hb'.
    + inversion Hb'; subst. exact Hx.
    + apply (Hfirst j); auto. lia.
Qed.

Lemma findIntersecting_none (target : NodeRef) (bs : list Range) (k : nat) :
  findIntersecting target bs k = None <->
  forall b, In b bs -> intersectsNode b target = false.
Proof.
  revert k. induction bs as [| x bs IH]; intros k; cbn.
  - split; [intros _ b [] | reflexivity].
  - destruct (intersectsNode x target) eqn:Hx.
    + split; [discriminate | ]. intros H. specialize (H x (or_introl eq_refl)). congruence.
    + rewrite IH. split.
      * intros H b [<- | Hb]; auto.
      * intros H b Hb. apply H. right. exact Hb.
Qed.

Lemma scan_none (target : Range) (bs : list Range) (k : nat) :
  scanBoundaryPoints target bs k = None <->
  forall b, In b bs -> boundaryTest b target = false.
Proof.
  revert k. induction bs as [| x bs IH]; intros k; cbn.
  - split; [intros _ b [] | reflexivity].
  - destruct (boundaryTest x target) eqn:Hx.
    + split; [discriminate | ]. intros H. specialize (H x (or_introl eq_refl)). congruence.
    + rewrite IH. split.
      * intros H b [<- | Hb]; auto.
      * intros H b Hb. apply H. right. exact Hb.
Qed.





End CallFacts.

(* ====================================================================== *)
(** * Walking the blocks forwards and backwards *)
(* ====================================================================== *)

Module TraversalFacts.
Import JS Dom Paragraph Calls CallFacts.
Local Open Scope Z_scope.

Lemma skipn_cons_nth {A} (l : list A) (k : nat) (x : A) :
  nth_error l k = Some x -> skipn k l = x :: skipn (S k) l.
Proof.
  revert k. induction l as [| y l IH]; intros [| k]; cbn; try discriminate.
  - intros H. inversion H. reflexivity.
  - intros H. apply IH in H. exact H.
Qed.

Lemma next_run (bs : list Range) (n : nat) :
  forall k : nat,
    (k + n <= List.length bs)%nat ->
    repeatedly n next (mkIterator bs (Z.of_nat k - 1))
    = (map Some (firstn n (skipn k bs)), mkIterator bs (Z.of_nat (k + n) - 1)).
Proof.
  induction n as [| n IH]; intros k Hk.
  - cbn. rewrite Nat.add_0_r. reflexivity.
  - cbn [repeatedly]. unfold next at 1, length. cbn [index blocks].
    replace (Z.of_nat k - 1 + 1) with (Z.of_nat k) by lia.
    destruct (Z.ltb_spec (Z.of_nat k) (Z.of_nat (List.length bs))) as [_ | Hge]; [ | lia].
    rewrite blockAt_nth.
    destruct (nth_error bs k) as [x | ] eqn:Hx; [ | apply nth_error_None in Hx; lia].
    replace (Z.of_nat k) with (Z.of_nat (S k) - 1) by lia.
    rewrite (IH (S k)) by lia.
    rewrite (skipn_cons_nth bs k x Hx). cbn [firstn map].
    replace (S k + n)%nat with (k + S n)%nat by lia. reflexivity.
Qed.

Lemma prev_run (bs : list Range) (n : nat) :
  forall k : nat,
    (n <= k < List.length bs)%nat ->
    repeatedly n prev (mkIterator bs (Z.of_nat k))
    = (map Some (rev (firstn n (skipn (k - n) bs))), mkIterator bs (Z.of_nat (k - n))).
Proof.
  induction n as [| n IH]; intros k Hk.
  - cbn. rewrite Nat.sub_0_r. reflexivity.
  - cbn [repeatedly]. unfold prev at 1. cbn [index blocks].
    destruct (Z.leb_spec 0 (Z.of_nat k - 1)) as [_ | Hlt]; [ | lia].
    replace (Z.of_nat k - 1) with (Z.of_nat (k - 1)) by lia.
    rewrite blockAt_nth.
    destruct (nth_error bs (k - 1)) as [x | ] eqn:Hx; [ | apply nth_error_None in Hx; lia].
    rewrite (IH (k - 1)%nat) by lia.
    replace (k - 1 - n)%nat with (k - S n)%nat by lia.
    f_equal. rewrite <- map_cons. f_equal.
    assert (Hsplit : firstn (S n) (skipn (k - S n) bs)
                     = firstn n (skipn (k - S n) bs) ++ [x]).
    { assert (Hnth : nth_error (skipn (k - S n) bs) n = Some x).
      { rewrite nth_error_skipn. replace (k - S n + n)%nat with (k - 1)%nat by lia. exact Hx. }
      clear - Hnth. revert Hnth. generalize (skipn (k - S n) bs) as l.
      induction n as [| n IHn]; intros [| y l]; cbn; try discriminate.
      - intros H. inversion H. reflexivity.
      - intros H. f_equal. apply IHn. exact H. }
    rewrite Hsplit, rev_app_distr. reflexivity.
Qed.

(** X3: on a new iterator over [bs], calling [next()] once per block
    returns the blocks in order and one more call returns null with the
    cursor still on the last block; after [last()], calling [prev()]
    returns the remaining blocks in reverse order down to the first one,
    where one more call returns null. *)
Theorem traversal_enumerates_blocks (bs : list Range) (b : Range) (rest : list Range) :
  let n := List.length bs in
  repeatedly n next (new bs) = (map Some bs, mkIterator bs (Z.of_nat n - 1))
  /\ next (mkIterator bs (Z.of_nat n - 1)) = (None, mkIterator bs (Z.of_nat n - 1))
  /\ (let all := b :: rest in
      let '(r, it) := last (new all) in
      r :: fst (repeatedly (List.length rest) prev it) = map Some (rev all)
      /\ snd (repeatedly (List.length rest) prev it) = mkIterator all 0
      /\ prev (mkIterator all 0) = (None, mkIterator all 0)).
Proof.
  cbv zeta. split; [ | split].
  - change (new bs) with (mkIterator bs (Z.of_nat 0 - 1)).
    rewrite (next_run bs (List.length bs) 0) by lia.
    cbn [skipn Nat.add]. rewrite firstn_all. reflexivity.
  - unfold next, length. cbn [index blocks].
    replace (Z.of_nat (List.length bs) - 1 + 1) with (Z.of_nat (List.length bs)) by lia.
    rewrite Z.ltb_irrefl. reflexivity.
  - set (all := b :: rest).
    assert (Hlen : List.length all = S (List.length rest)) by reflexivity.
    unfold last, length, new. cbn [blocks].
    destruct (Z.eqb_spec (Z.of_nat (List.length all)) 0) as [H0 | _]; [lia | ].
    replace (Z.of_nat (List.length all) - 1) with (Z.of_nat (List.length rest)) by lia.
    rewrite (prev_run all (List.length rest) (List.length rest)) by lia.
    rewrite Nat.sub_diag. cbn [skipn fst snd Z.of_nat].
    rewrite blockAt_nth.
    destruct (nth_error all (List.length rest)) as [x | ] eqn:Hx;
      [ | apply nth_error_None in Hx; lia].
    split; [ | split; reflexivity].
    rewrite <- map_cons. f_equal. rewrite <- rev_unit. f_equal.
    rewrite <- (firstn_skipn (List.length rest) all) at 2. f_equal.
    rewrite (skipn_cons_nth all _ x Hx).
    replace (S (List.length rest)) with (List.length all) by lia.
    rewrite skipn_all. reflexivity.
Qed.

(** X4: with the cursor on a block, a [next()] that moved the cursor is
    undone by [prev()], and a [prev()] that moved it is undone by
    [next()]: the second call returns the block the cursor was on and
    restores the iterator. *)
Theorem next_and_prev_undo_each_other (it : ParagraphIterator) :
  positioned it ->
  (forall b it', next it = (Some b, it') -> prev it' = (current it, it))
  /\ (forall b it', prev it = (Some b, it') -> next it' = (current it, it)).
Proof.
  unfold positioned, length. destruct it as [bs i]. cbn [index blocks]. intros Hpos.
  split; intros b it'.
  - unfold next, length. cbn [index blocks].
    destruct (Z.ltb_spec (i + 1) (Z.of_nat (List.length bs))) as [Hlt | Hge]; [ | discriminate].
    intros Hnext. inversion Hnext; subst. unfold prev, current. cbn [index blocks].
    replace (i + 1 - 1) with i by lia.
    destruct (Z.leb_spec 0 i); [reflexivity | lia].
  - unfold prev. cbn [index blocks].
    destruct (Z.leb_spec 0 (i - 1)) as [Hle | Hgt]; [ | discriminate].
    intros Hprev. inversion Hprev; subst. unfold next, current, length. cbn [index blocks].
    replace (i - 1 + 1) with i by lia.
    destruct (Z.ltb_spec i (Z.of_nat (List.length bs))); [reflexivity | lia].
Qed.

Lemma next_and_prev_undo_each_other_witness :
  positioned (mkIterator [Samples.firstBlock; Samples.secondBlock] 0)
  /\ prev (mkIterator [Samples.firstBlock; Samples.secondBlock] 1)
     = (Some Samples.firstBlock, mkIterator [Samples.firstBlock; Samples.secondBlock] 0).
Proof.
  assert (Hpos : positioned (mkIterator [Samples.firstBlock; Samples.secondBlock] 0))
    by (unfold positioned; cbn; lia).
  split; [exact Hpos | ].
  exact (proj1 (next_and_prev_undo_each_other
                  (mkIterator [Samples.firstBlock; Samples.secondBlock] 0) Hpos)
           Samples.secondBlock
           (mkIterator [Samples.firstBlock; Samples.secondBlock] 1) eq_refl).
Defined.

End TraversalFacts.

(* ====================================================================== *)
(** * Looking up a node or a range *)
(* ====================================================================== *)

Module FindFacts.
Import JS Dom Paragraph Calls CallFacts.
Local Open Scope Z_scope.

Lemma first_nonempty (it : ParagraphIterator) (b : Range) (rest : list Range) :
  blocks it = b :: rest -> first it = (Some b, mkIterator (blocks it) 0).
Proof.
  intros H. unfold first, length. rewrite H. reflexivity.
Qed.

Lemma findByNode_nonempty (it : ParagraphIterator) (t : option NodeRef) :
  blocks it <> [] ->
  exists i b, nth_error (blocks it) i = Some b
              /\ findByNode it t = (Some b, mkIterator (blocks it) (Z.of_nat i)).
Proof.
  intros Hne.
  assert (Hfirst : exists i b, nth_error (blocks it) i = Some b
              /\ first it = (Some b, mkIterator (blocks it) (Z.of_nat i))).
  { destruct (blocks it) as [| b rest] eqn:Hbs; [congruence | ].
    exists 0%nat, b. split; [reflexivity | ].
    rewrite (first_nonempty it b rest Hbs), Hbs. reflexivity. }
  destruct t as [t | ]; cbn [findByNode]; [ | exact Hfirst].
  destruct (findIntersecting t (blocks it) 0) as [[i b] | ] eqn:Hf; [ | exact Hfirst].
  apply findIntersecting_spec in Hf. destruct Hf as (_ & Hnth & _).
  rewrite Nat.sub_0_r in Hnth. exists i, b. auto.
Qed.

(** X5: on an iterator with at least one block, [findByNode] and
    [findByRangeAsync] never return null, whatever the target (null
    included): they return a block of the list and move the cursor to its
    index. *)
Theorem lookups_return_a_block (it : ParagraphIterator)
  (targetNode : option NodeRef) (targetRange : option Range) :
  blocks it <> [] ->
  (exists i b, nth_error (blocks it) i = Some b
               /\ findByNode it targetNode = (Some b, mkIterator (blocks it) (Z.of_nat i)))
  /\ (exists i b, nth_error (blocks it) i = Some b
                  /\ findByRangeAsync it targetRange
                     = (Some b, mkIterator (blocks it) (Z.of_nat i))).
Proof.
  intros Hne. split; [apply findByNode_nonempty; exact Hne | ].
  destruct targetRange as [r | ]; cbn [findByRangeAsync].
  - destruct (scanBoundaryPoints r (blocks it) 0) as [[i b] | ] eqn:Hs.
    + apply LookupFacts.scan_spec in Hs. destruct Hs as (_ & Hnth & _).
      rewrite Nat.sub_0_r in Hnth. exists i, b. auto.
    + apply findByNode_nonempty. exact Hne.
  - apply (findByNode_nonempty it None Hne).
Qed.

(** X6: [findByNode] returns the first block of the list that intersects
    the target node and moves the cursor to it; when no block intersects
    the node it behaves as [first()]. *)
Theorem findByNode_first_intersecting (it : ParagraphIterator) (target : NodeRef) :
  (exists i b,
      nth_error (blocks it) i = Some b
      /\ intersectsNode b target = true
      /\ (forall j b', (j < i)%nat -> nth_error (blocks it) j = Some b' ->
                       intersectsNode b' target = false)
      /\ findByNode it (Some target) = (Some b, mkIterator (blocks it) (Z.of_nat i)))
  \/ ((forall b, In b (blocks it) -> intersectsNode b target = false)
      /\ findByNode it (Some target) = first it).
Proof.
  cbn [findByNode].
  destruct (findIntersecting target (blocks it) 0) as [[i b] | ] eqn:Hf.
  - left. apply findIntersecting_spec in Hf. destruct Hf as (_ & Hnth & Hb & Hfirst).
    rewrite Nat.sub_0_r in *. exists i, b. auto.
  - right. split; [ | reflexivity]. apply (findIntersecting_none target (blocks it) 0). exact Hf.
Qed.

(** X7: a target that lives in another document than every block (a
    range of another document, or one of its nodes) matches no block:
    the comparison throws or the intersection test fails for each block,
    and the lookup ends as [first()]. *)
Theorem foreign_target_selects_first (it : ParagraphIterator) (target : Range) :
  (forall b, In b (blocks it) -> rangeDoc b <> rangeDoc target) ->
  findByRangeAsync it (Some target) = first it
  /\ (forall p, findByNode it (Some (mkNodeRef (rangeDoc target) p)) = first it).
Proof.
  intros Hforeign.
  assert (Hnode : forall p, findByNode it (Some (mkNodeRef (rangeDoc target) p)) = first it).
  { intros p. cbn [findByNode].
    replace (findIntersecting (mkNodeRef (rangeDoc target) p) (blocks it) 0) with
      (@None (nat * Range)); [reflexivity | ].
    symmetry. apply findIntersecting_none. intros b Hb.
    unfold intersectsNode. cbn [refDoc].
    destruct (Nat.eqb_spec (rangeDoc target) (rangeDoc b)) as [Heq | _]; [ | reflexivity].
    exfalso. apply (Hforeign b Hb). congruence. }
  split; [ | exact Hnode].
  cbn [findByRangeAsync].
  replace (scanBoundaryPoints target (blocks it) 0) with (@None (nat * Range)); [apply Hnode | ].
  symmetry. apply scan_none. intros b Hb.
  unfold boundaryTest, compareBoundaryPoints.
  destruct (Nat.eqb_spec (rangeDoc b) (rangeDoc target)) as [Heq | _]; [ | reflexivity].
  exfalso. apply (Hforeign b Hb). exact Heq.
Qed.

Lemma lookups_return_a_block_witness :
  exists i b,
    nth_error [Samples.firstBlock; Samples.secondBlock] i = Some b
    /\ findByRangeAsync (new [Samples.firstBlock; Samples.secondBlock]) (Some Samples.selection)
       = (Some b, mkIterator [Samples.firstBlock; Samples.secondBlock] (Z.of_nat i)).
Proof.
  assert (Hne : blocks (new [Samples.firstBlock; Samples.secondBlock]) <> [])
    by discriminate.
  exact (proj2 (lookups_return_a_block (new [Samples.firstBlock; Samples.secondBlock])
                  None (Some Samples.selection) Hne)).
Defined.

Lemma foreign_target_selects_first_witness :
  findByRangeAsync (mkIterator [Samples.firstBlock; Samples.secondBlock] 1)
    (Some Cases.foreignRange)
  = (Some Samples.firstBlock, mkIterator [Samples.firstBlock; Samples.secondBlock] 0).
Proof.
  apply (foreign_target_selects_first
           (mkIterator [Samples.firstBlock; Samples.secondBlock] 1)
           Cases.foreignRange).
  intros b [<- | [<- | []]]; discriminate.
Defined.

End FindFacts.

(* ====================================================================== *)
(** * Tree order *)
(* ====================================================================== *)

Module OrderFacts.
Import JS Dom Paragraph Segments Layout DomFacts TreeFacts.
Local Open Scope list_scope.
Local Open Scope nat_scope.

(** ** The order of paths and boundary points *)

Lemma compareSeq_trans (a b c : list nat) :
  compareSeq a b = Lt -> compareSeq b c = Lt -> compareSeq a c = Lt.
Proof.
  revert b c. induction a as [| x a IH]; intros [| y b] [| z c]; cbn; try discriminate; auto.
  destruct (Nat.compare_spec x y) as [Hxy | Hxy | Hxy]; try discriminate;
    destruct (Nat.compare_spec y z) as [Hyz | Hyz | Hyz]; try discriminate;
    destruct (Nat.compare_spec x z) as [Hxz | Hxz | Hxz]; try lia; eauto.
Qed.

Lemma compareSeq_le_lt (a b c : list nat) :
  compareSeq a b <> Gt -> compareSeq b c = Lt -> compareSeq a c = Lt.
Proof.
  intros Hab Hbc. destruct (compareSeq a b) eqn:H; try congruence.
  - apply LookupFacts.compareSeq_eq in H. subst. exact Hbc.
  - eapply compareSeq_trans; eassumption.
Qed.

Lemma compareSeq_prefix (p x : list nat) : x <> [] -> compareSeq p (p ++ x) = Lt.
Proof.
  intros Hx. rewrite <- (app_nil_r p) at 1. rewrite compareSeq_app.
  destruct x; [congruence | reflexivity].
Qed.

Lemma compareSeq_lt_app (a b x : list nat) :
  compareSeq a b = Lt -> compareSeq a (b ++ x) = Lt.
Proof.
  revert b. induction a as [| y a IH]; intros [| z b]; cbn; try discriminate.
  - reflexivity.
  - destruct (Nat.compare y z); auto.
Qed.

(** A path that comes later in tree order is not before the inside of an
    earlier one. *)
Lemma compareSeq_inside (f p : list nat) :
  compareSeq f p = Lt -> compareSeq (f ++ [0]) p <> Gt.
Proof.
  revert p. induction f as [| x f IH]; intros [| y p]; cbn; try discriminate.
  - intros _. destruct y; cbn; [ | discriminate]. destruct p; discriminate.
  - destruct (Nat.compare x y); try discriminate; auto.
Qed.

Lemma bpSeq_before (p : path) : p <> [] -> bpSeq (before p) = p.
Proof.
  intros Hp. destruct (parentAndIndex_some p Hp) as (q & i & -> & Hpi).
  unfold before. rewrite Hpi. reflexivity.
Qed.

(** ** The walker yields the elements in tree order *)

Lemma elementsBelow_below (n : node) :
  forall p q, In q (elementsBelow p n) ->
              exists j r t cs, q = p ++ j :: r /\ nodeAt n (j :: r) = Some (Elem t cs).
Proof.
  induction n as [data | t cs IH] using node_induction; intros p q Hin; [destruct Hin | ].
  rewrite elementsBelow_Elem in Hin. apply in_flat_map in Hin.
  destruct Hin as ([k c] & Hk & Hin). cbn [fst snd] in Hin.
  apply In_indexed in Hk. apply in_app_or in Hin. destruct Hin as [Hin | Hin].
  - destruct c as [tc cc | data]; cbn in Hin; [ | destruct Hin].
    destruct Hin as [<- | []]. exists k, [], tc, cc. cbn. rewrite Hk. auto.
  - rewrite Forall_forall in IH.
    destruct (IH c (nth_error_In _ _ Hk) _ _ Hin) as (j & r & tc & cc & -> & Hn).
    exists k, (j :: r), tc, cc. rewrite <- app_assoc. split; [reflexivity | ].
    cbn [nodeAt childNodes]. rewrite Hk. exact Hn.
Qed.

Lemma StronglySorted_app {A} (R : A -> A -> Prop) (l1 l2 : list A) :
  StronglySorted R l1 -> StronglySorted R l2 ->
  (forall a b, In a l1 -> In b l2 -> R a b) ->
  StronglySorted R (l1 ++ l2).
Proof.
  induction l1 as [| x l1 IH]; intros H1 H2 H; [exact H2 | ].
  apply StronglySorted_inv in H1. destruct H1 as [H1 Hx].
  cbn. constructor.
  - apply IH; auto. intros a b Ha Hb. apply H; [right | ]; assumption.
  - apply Forall_app. split; [exact Hx | ].
    apply Forall_forall. intros b Hb. apply H; [left; reflexivity | exact Hb].
Qed.

Lemma elementsBelow_sorted (n : node) :
  forall p, StronglySorted (fun a b => compareSeq a b = Lt) (elementsBelow p n).
Proof.
  induction n as [data | t cs IH] using node_induction; intros p; [constructor | ].
  rewrite elementsBelow_Elem, indexed_from_0.
  set (g := fun k : nat * node =>
              (if isElement (snd k) then [p ++ [fst k]] else [])
              ++ elementsBelow (p ++ [fst k]) (snd k)).
  assert (Hg : forall k c q, In q (g (k, c)) -> exists r, q = p ++ k :: r).
  { intros k c q Hq. unfold g in Hq. cbn [fst snd] in Hq.
    apply in_app_or in Hq. destruct Hq as [Hq | Hq].
    - destruct (isElement c); [ | destruct Hq]. destruct Hq as [<- | []]. exists []. reflexivity.
    - destruct (elementsBelow_below c _ _ Hq) as (j & r & _ & _ & -> & _).
      exists (j :: r). rewrite <- app_assoc. reflexivity. }
  generalize 0 as s.
  induction IH as [| c cs Hc _ IHcs]; intros s; [constructor | ].
  rewrite indexedFrom_cons. cbn [flat_map].
  apply StronglySorted_app.
  - unfold g. cbn [fst snd]. apply StronglySorted_app.
    + destruct (isElement c); repeat constructor.
    + apply Hc.
    + intros a b Ha Hb. destruct (isElement c); [ | destruct Ha].
      destruct Ha as [<- | []].
      destruct (elementsBelow_below c _ _ Hb) as (j & r & _ & _ & -> & _).
      apply compareSeq_prefix. discriminate.
  - apply IHcs.
  - intros a b Ha Hb. apply Hg in Ha. destruct Ha as [ra ->].
    apply in_flat_map in Hb. destruct Hb as ([k c'] & Hk & Hb).
    apply In_indexedFrom in Hk. destruct Hk as [Hk _].
    apply Hg in Hb. destruct Hb as [rb ->].
    rewrite compareSeq_app. cbn.
    rewrite (proj2 (Nat.compare_lt_iff s k)) by lia. reflexivity.
Qed.

End OrderFacts.

(* ====================================================================== *)
(** * The loop of [createAsync], described by segments *)
(* ====================================================================== *)

Module DescriptionFacts.
Import JS Dom Paragraph Segments Layout WalkFacts DomFacts SegmentFacts TreeFacts FlatFacts OrderFacts.
Local Open Scope list_scope.
Local Open Scope nat_scope.

Lemma StronglySorted_filter {A} (R : A -> A -> Prop) (f : A -> bool) (l : list A) :
  StronglySorted R l -> StronglySorted R (filter f l).
Proof.
  induction 1 as [| x l Hl IH Hx]; cbn; [constructor | ].
  destruct (f x); [ | exact IH]. constructor; [exact IH | ].
  apply Forall_forall. intros y Hy. apply filter_In in Hy.
  rewrite Forall_forall in Hx. apply Hx. tauto.
Qed.

Lemma StronglySorted_firstn {A} (R : A -> A -> Prop) (n : nat) (l : list A) :
  StronglySorted R l -> StronglySorted R (firstn n l).
Proof.
  intros H. revert n. induction H as [| x l Hl IH Hx]; intros [| n]; cbn; try constructor.
  - apply IH.
  - apply Forall_forall. intros y Hy. rewrite Forall_forall in Hx. apply Hx.
    rewrite <- (firstn_skipn n l). apply in_or_app. left. exact Hy.
Qed.

(** ** The qualifying elements *)

Lemma qualifying_sorted (d : Document) (bodyPath : path) :
  StronglySorted (fun a b => compareSeq a b = Lt) (qualifying d bodyPath).
Proof.
  unfold qualifying, createTreeWalker. apply StronglySorted_filter.
  destruct (docNodeAt d bodyPath); [apply elementsBelow_sorted | constructor].
Qed.

Lemma qualifying_open (d : Document) (bodyPath : path) :
  Forall (fun p => opens d p = true) (qualifying d bodyPath).
Proof. apply Forall_forall. intros p Hp. apply filter_In in Hp. tauto. Qed.

Lemma qualifying_below (d : Document) (bodyPath p : path) :
  In p (qualifying d bodyPath) -> exists j r, p = bodyPath ++ j :: r.
Proof.
  unfold qualifying, createTreeWalker. intros Hp. apply filter_In in Hp. destruct Hp as [Hp _].
  destruct (docNodeAt d bodyPath) as [n | ]; [ | destruct Hp].
  destruct (elementsBelow_below n _ _ Hp) as (j & r & _ & _ & -> & _). eauto.
Qed.

(** ** The ranges the loop closes *)

Lemma closedBefore_between (d : Document) (f p : path) :
  opens d p = true -> compareSeq f p = Lt ->
  closedBefore d (Some (collapsedAt d f)) p = Some (between d f p).
Proof.
  intros Hp Hlt. destruct (opens_node d p Hp) as [n Hn].
  destruct (closedBefore_node d (collapsedAt d f) p n Hn) as (q & i & -> & ->).
  unfold between, before. rewrite parentAndIndex_app.
  cbn [collapsedAt rangeStart rangeDoc].
  assert (Hnot : isBefore (mkBP q i) (mkBP f 0) = false).
  { unfold isBefore, position, bpSeq. cbn [container offset].
    assert (H := compareSeq_inside f (q ++ [i]) Hlt).
    rewrite (LookupFacts.compareSeq_antisym (f ++ [0]) (q ++ [i])).
    destruct (compareSeq (f ++ [0]) (q ++ [i])); try reflexivity. congruence. }
  rewrite Hnot. reflexivity.
Qed.

Lemma openAt_collapsed (d : Document) (p : path) :
  opens d p = true -> openAt d p = Some (collapsedAt d p).
Proof. apply openAt_opens. Qed.

Lemma candidates_gaps (d : Document) (q : list path) :
  forall f,
    StronglySorted (fun a b => compareSeq a b = Lt) (f :: q) ->
    Forall (fun p => opens d p = true) q ->
    candidates d (Some (collapsedAt d f)) q = gaps d f q
    /\ lastOpened d (Some (collapsedAt d f)) q = Some (collapsedAt d (lastOf f q)).
Proof.
  induction q as [| p rest IH]; intros f Hsorted Hopen; [split; reflexivity | ].
  apply StronglySorted_inv in Hsorted. destruct Hsorted as [Hrest Hf].
  inversion Hf as [| ? ? Hfp _]; subst.
  inversion Hopen as [| ? ? Hp Hopen']; subst.
  cbn [candidates lastOpened gaps lastOf].
  rewrite (closedBefore_between d f p Hp Hfp), (openAt_collapsed d p Hp).
  destruct (IH p Hrest Hopen') as [-> ->]. split; reflexivity.
Qed.

Lemma candidates_first (d : Document) (p : path) (rest : list path) :
  StronglySorted (fun a b => compareSeq a b = Lt) (p :: rest) ->
  Forall (fun p => opens d p = true) (p :: rest) ->
  candidates d None (p :: rest) = gaps d p rest
  /\ lastOpened d None (p :: rest) = Some (collapsedAt d (lastOf p rest)).
Proof.
  intros Hsorted Hopen. inversion Hopen as [| ? ? Hp Hopen']; subst.
  cbn [candidates lastOpened closedBefore]. rewrite (openAt_collapsed d p Hp).
  apply candidates_gaps; assumption.
Qed.

(** ** The loop, with and without reaching the cap *)

Lemma walk_at_cap (d : Document) (b : nat) (q : list path) :
  forall w,
    Forall (fun p => opens d p = true) q ->
    wCount w <= MAX_BLOCKS ->
    MAX_BLOCKS <= wCount w + List.length (filter (rangeHasContent d) (candidates d (wLast w) q)) ->
    wBlocks (walk d b q w)
    = wBlocks w ++ firstn (MAX_BLOCKS - wCount w)
                     (filter (rangeHasContent d) (candidates d (wLast w) q))
    /\ wCount (walk d b q w) = MAX_BLOCKS.
Proof.
  induction q as [| p rest IH]; intros w Hq Hle Hcap; cbn [walk candidates] in *.
  - cbn in Hcap. cbn [filter]. rewrite firstn_nil, app_nil_r. split; [reflexivity | lia].
  - inversion Hq as [| ? ? Hp Hrest]; subst.
    destruct (Nat.ltb_spec (wCount w) MAX_BLOCKS) as [Hlt | Hge].
    2: { replace (MAX_BLOCKS - wCount w) with 0 by lia.
         cbn. rewrite app_nil_r. split; [reflexivity | lia]. }
    assert (Hv := visit_opens d b p w Hp). unfold core in Hv.
    destruct (closedBefore d (wLast w) p) as [r | ].
    + cbn [filter] in *. destruct (rangeHasContent d r).
      * inversion Hv as [[Hb Hl Hc]]. cbn [List.length] in Hcap.
        destruct (IH (visit d b p w) Hrest) as [Hblocks Hcount];
          try (rewrite ?Hl, ?Hc; assumption || lia).
        split; [ | exact Hcount].
        rewrite Hblocks, Hb, Hl, Hc, <- app_assoc.
        replace (MAX_BLOCKS - wCount w) with (S (MAX_BLOCKS - S (wCount w))) by lia.
        reflexivity.
      * inversion Hv as [[Hb Hl Hc]].
        destruct (IH (visit d b p w) Hrest) as [Hblocks Hcount];
          try (rewrite ?Hl, ?Hc; assumption || lia).
        split; [ | exact Hcount].
        rewrite Hblocks, Hb, Hl, Hc. reflexivity.
    + inversion Hv as [[Hb Hl Hc]].
      destruct (IH (visit d b p w) Hrest) as [Hblocks Hcount];
        try (rewrite ?Hl, ?Hc; assumption || lia).
      split; [ | exact Hcount].
      rewrite Hblocks, Hb, Hl, Hc. reflexivity.
Qed.

(** The statements after the loop, with a range open at an element below
    the body. *)
Lemma finish_open (d : Document) (bodyPath : path) (w : Walk) (j : nat) (r : path) (n : node) :
  body d = Some bodyPath ->
  docNodeAt d (bodyPath ++ j :: r) = Some n ->
  wLast w = Some (collapsedAt d (bodyPath ++ j :: r)) ->
  wCount w < MAX_BLOCKS ->
  finish d bodyPath w
  = new (wBlocks w ++ filter (rangeHasContent d) [closing d bodyPath (bodyPath ++ j :: r)]).
Proof.
  intros Hbody Hn Hlast Hcount.
  destruct (body_spec d _ Hbody) as (i & t & children & tb & bcs & -> & Hroot & Hnth & Hnode & Hkids).
  assert (Hj : j < List.length bcs).
  { replace ([0; i] ++ j :: r) with (([0; i] ++ [j]) ++ r) in Hn
      by (rewrite <- app_assoc; reflexivity).
    destruct (docNodeAt_root d _ _ Hn) as (rel & Hrel & Hat).
    cbn [app] in Hrel. inversion Hrel; subst rel. clear Hrel.
    destruct (docNodeAt_root d _ _ Hnode) as (rel' & Hrel' & Hat').
    cbn [app] in Hrel'. inversion Hrel'; subst rel'. clear Hrel'.
    change (i :: j :: r) with ([i] ++ j :: r) in Hat. rewrite nodeAt_app, Hat' in Hat.
    cbn [nodeAt childNodes] in Hat.
    destruct (nth_error bcs j) eqn:Hc; [ | discriminate].
    apply nth_error_Some. congruence. }
  unfold finish, closing. rewrite Hlast, Hkids.
  destruct (Nat.leb_spec MAX_BLOCKS (wCount w)) as [Hge | _]; [lia | ].
  rewrite (lastChildOr_children d [0; i] bcs Hkids) by (destruct bcs; [cbn in Hj; lia | discriminate]).
  unfold setEndAfter. rewrite parentAndIndex_app.
  unfold setEnd, lengthAt. cbn [app]. rewrite Hnode. cbn [option_map nodeLength].
  replace (List.length bcs - 1 + 1) with (List.length bcs) by lia.
  rewrite Nat.ltb_irrefl.
  assert (Hnot : isBefore (mkBP [0; i] (List.length bcs))
                          (rangeStart (collapsedAt d (0 :: i :: j :: r))) = false).
  { unfold isBefore, position, bpSeq. cbn [collapsedAt rangeStart container offset app compareSeq].
    cbn [Nat.compare]. rewrite Nat.compare_refl.
    rewrite (proj2 (Nat.compare_gt_iff (List.length bcs) j)) by lia. reflexivity. }
  rewrite Hnot. cbn [tryCatch bind collapsedAt rangeDoc rangeStart filter].
  destruct (rangeHasContent d _); [reflexivity | rewrite app_nil_r; reflexivity].
Qed.

(** The blocks of a document with a body, without the loop. *)
Lemma createAsync_segments (d : Document) (bodyPath : path) (batchSize : nat) :
  body d = Some bodyPath ->
  createAsync (Some d) batchSize
  = Normal (new (firstn MAX_BLOCKS (filter (rangeHasContent d) (segments d bodyPath)))).
Proof.
  intros Hbody. rewrite (createAsync_body d bodyPath batchSize Hbody).
  unfold segments.
  assert (Hsorted := qualifying_sorted d bodyPath).
  assert (Hopen := qualifying_open d bodyPath).
  assert (Hbelow := qualifying_below d bodyPath).
  destruct (qualifying d bodyPath) as [| p rest].
  - cbn [walk]. rewrite finish_unopened; try assumption; try reflexivity.
    + cbn [start wBlocks app filter]. f_equal. f_equal.
      destruct (rangeHasContent d (wholeBodyRange d bodyPath)); reflexivity.
    + unfold start, MAX_BLOCKS. cbn [wCount]. lia.
  - destruct (candidates_first d p rest Hsorted Hopen) as [Hcands Hlast].
    assert (Hin : In (lastOf p rest) (p :: rest)).
    { clear. revert p. induction rest as [| x rest IH]; intros p; [left; reflexivity | ].
      cbn [lastOf]. right. apply IH. }
    destruct (Hbelow _ Hin) as (j & r & Hjr).
    assert (Hnode : exists n, docNodeAt d (lastOf p rest) = Some n).
    { apply opens_node. rewrite Forall_forall in Hopen. apply Hopen. exact Hin. }
    destruct Hnode as [n Hn].
    rewrite filter_app.
    set (kept := filter (rangeHasContent d) (gaps d p rest)).
    destruct (Nat.ltb_spec (List.length kept) MAX_BLOCKS) as [Hlt | Hge].
    + assert (Hw := walk_below_cap d batchSize (p :: rest) start Hopen).
      cbn [start wLast wBlocks wCount app Nat.add] in Hw. rewrite Hcands, Hlast in Hw.
      specialize (Hw Hlt). unfold core in Hw.
      remember (walk d batchSize (p :: rest) start) as w' eqn:Hw'.
      inversion Hw as [[Hb Hl Hc]].
      rewrite Hjr in Hn, Hl.
      rewrite (finish_open d bodyPath _ j r n Hbody Hn Hl) by (rewrite Hc, Hb; exact Hlt).
      rewrite Hb, <- Hjr. f_equal. f_equal. fold kept.
      symmetry. apply firstn_all2. rewrite length_app.
      cbn [filter]. destruct (rangeHasContent d _); cbn [List.length]; lia.
    + destruct (walk_at_cap d batchSize (p :: rest) start Hopen) as [Hb Hc].
      * cbn [start wCount]. lia.
      * cbn [start wCount wLast Nat.add]. rewrite Hcands. exact Hge.
      * remember (walk d batchSize (p :: rest) start) as w' eqn:Hw'.
        unfold finish. rewrite Hc, Nat.leb_refl, Hb.
        cbn [start wBlocks wCount wLast app]. rewrite Hcands, Nat.sub_0_r. fold kept.
        f_equal. f_equal. rewrite firstn_app.
        replace (MAX_BLOCKS - List.length kept) with 0 by lia.
        rewrite firstn_O, app_nil_r. reflexivity.
Qed.

End DescriptionFacts.

(* ====================================================================== *)
(** * What every result of [createAsync] satisfies *)
(* ====================================================================== *)

Module SegmentationFacts.
Import JS Dom Paragraph Segments Layout WalkFacts DomFacts SegmentFacts TreeFacts FlatFacts.
Import OrderFacts DescriptionFacts.
Local Open Scope list_scope.
Local Open Scope nat_scope.

(** ** The segments of a body are in document order *)

Lemma below_body_index (d : Document) (bodyPath : path) (j : nat) (r : path) (n : node) :
  body d = Some bodyPath ->
  docNodeAt d (bodyPath ++ j :: r) = Some n ->
  j < List.length (childrenAt d bodyPath).
Proof.
  intros Hbody Hn.
  destruct (body_spec d _ Hbody) as (i & t & children & tb & bcs & -> & Hroot & Hnth & Hnode & Hkids).
  rewrite Hkids.
  destruct (docNodeAt_root d _ _ Hn) as (rel & Hrel & Hat).
  cbn [app] in Hrel. inversion Hrel; subst rel. clear Hrel.
  destruct (docNodeAt_root d _ _ Hnode) as (rel' & Hrel' & Hat').
  cbn [app] in Hrel'. inversion Hrel'; subst rel'. clear Hrel'.
  change (i :: j :: r) with ([i] ++ j :: r) in Hat. rewrite nodeAt_app, Hat' in Hat.
  cbn [nodeAt childNodes] in Hat.
  destruct (nth_error bcs j) eqn:Hc; [ | discriminate].
  apply nth_error_Some. congruence.
Qed.

Lemma lastOf_In (p : path) (rest : list path) : In (lastOf p rest) (p :: rest).
Proof.
  revert p. induction rest as [| x rest IH]; intros p; [left; reflexivity | ].
  cbn [lastOf]. right. apply IH.
Qed.

Lemma lastOf_greatest (rest : list path) :
  forall p y,
    StronglySorted (fun a b => compareSeq a b = Lt) (p :: rest) ->
    In y (p :: rest) -> compareSeq y (lastOf p rest) <> Gt.
Proof.
  induction rest as [| x rest IH]; intros p y Hsorted Hy.
  - destruct Hy as [<- | []]. cbn. rewrite LookupFacts.compareSeq_refl. discriminate.
  - apply StronglySorted_inv in Hsorted. destruct Hsorted as [Hrest Hp].
    cbn [lastOf]. destruct Hy as [<- | Hy]; [ | apply IH; assumption].
    rewrite Forall_forall in Hp.
    rewrite (Hp (lastOf x rest) (lastOf_In x rest)). discriminate.
Qed.

(** Each gap runs from inside an element to right before a later one. *)
Lemma gaps_In (d : Document) (rest : list path) :
  forall p g,
    StronglySorted (fun a b => compareSeq a b = Lt) (p :: rest) ->
    In g (gaps d p rest) ->
    exists x y, g = between d x y /\ In x (p :: rest) /\ In y rest
                /\ compareSeq x y = Lt /\ compareSeq p x <> Gt.
Proof.
  induction rest as [| p' rest IH]; intros p g Hsorted Hg; [destruct Hg | ].
  apply StronglySorted_inv in Hsorted. destruct Hsorted as [Hrest Hp].
  rewrite Forall_forall in Hp.
  cbn [gaps] in Hg. destruct Hg as [<- | Hg].
  - exists p, p'. repeat split.
    + left. reflexivity.
    + left. reflexivity.
    + apply Hp. left. reflexivity.
    + rewrite LookupFacts.compareSeq_refl. discriminate.
  - destruct (IH p' g Hrest Hg) as (x & y & -> & Hx & Hy & Hxy & Hpx).
    exists x, y. repeat split; auto.
    + right. exact Hx.
    + right. exact Hy.
    + rewrite (Hp x Hx). discriminate.
Qed.

Lemma precedes_between (d : Document) (p p' x y : path) :
  p' <> [] -> compareSeq p' x <> Gt -> precedes (between d p p') (between d x y).
Proof.
  intros Hne Hle. unfold precedes, between, isAfter, position. cbn [rangeEnd rangeStart].
  rewrite (bpSeq_before p' Hne). unfold bpSeq. cbn [container offset].
  assert (H : compareSeq p' (x ++ [0]) = Lt).
  { destruct (compareSeq p' x) eqn:Hc; try congruence.
    - apply LookupFacts.compareSeq_eq in Hc. subst. apply compareSeq_prefix. discriminate.
    - apply compareSeq_lt_app. exact Hc. }
  rewrite H. reflexivity.
Qed.

Lemma wellFormed_between (d : Document) (x y : path) :
  y <> [] -> compareSeq x y = Lt -> wellFormed (between d x y).
Proof.
  intros Hne Hlt. unfold wellFormed, between, isAfter, position. cbn [rangeEnd rangeStart].
  rewrite (bpSeq_before y Hne). unfold bpSeq. cbn [container offset].
  assert (H := compareSeq_inside x y Hlt).
  destruct (compareSeq (x ++ [0]) y); congruence.
Qed.

Lemma gaps_sorted (d : Document) (rest : list path) :
  forall p,
    StronglySorted (fun a b => compareSeq a b = Lt) (p :: rest) ->
    Forall (fun q => q <> []) rest ->
    StronglySorted precedes (gaps d p rest).
Proof.
  induction rest as [| p' rest IH]; intros p Hsorted Hne; [constructor | ].
  inversion Hne as [| ? ? Hp' Hne']; subst.
  assert (Hrest : StronglySorted (fun a b => compareSeq a b = Lt) (p' :: rest)).
  { apply StronglySorted_inv in Hsorted. tauto. }
  cbn [gaps]. constructor; [apply IH; assumption | ].
  apply Forall_forall. intros g Hg.
  destruct (gaps_In d rest p' g Hrest Hg) as (x & y & -> & _ & _ & _ & Hle).
  apply precedes_between; assumption.
Qed.

Lemma wholeBodyRange_wellFormed (d : Document) (bodyPath : path) :
  body d = Some bodyPath -> wellFormed (wholeBodyRange d bodyPath).
Proof.
  intros Hbody.
  destruct (body_spec d _ Hbody) as (i & t & children & tb & bcs & -> & _ & _ & _ & Hkids).
  unfold wholeBodyRange, wellFormed, isAfter, position, bpSeq. rewrite Hkids.
  destruct bcs as [| c cs]; cbn [parentAndIndex rangeStart rangeEnd container offset app compareSeq].
  - cbn [Nat.compare].
    rewrite (proj2 (Nat.compare_lt_iff i (i + 1))) by lia. reflexivity.
  - cbn [Nat.compare List.length]. rewrite Nat.compare_refl. reflexivity.
Qed.

Lemma segments_ordered (d : Document) (bodyPath : path) :
  body d = Some bodyPath ->
  StronglySorted precedes (segments d bodyPath)
  /\ Forall (fun r => rangeDoc r = docId d /\ wellFormed r) (segments d bodyPath).
Proof.
  intros Hbody. unfold segments.
  assert (Hsorted := qualifying_sorted d bodyPath).
  assert (Hopen := qualifying_open d bodyPath).
  assert (Hbelow := qualifying_below d bodyPath).
  destruct (qualifying d bodyPath) as [| p rest].
  - split; [repeat constructor | ]. constructor; [ | constructor]. split.
    + unfold wholeBodyRange. destruct (childrenAt d bodyPath); reflexivity.
    + apply wholeBodyRange_wellFormed. exact Hbody.
  - assert (Hne : Forall (fun q => q <> []) (p :: rest)).
    { apply Forall_forall. intros q Hq. destruct (Hbelow q Hq) as (j & r & ->).
      destruct bodyPath; discriminate. }
    assert (Hrest : Forall (fun q => q <> []) rest) by (inversion Hne; assumption).
    destruct (Hbelow _ (lastOf_In p rest)) as (j & r & Hjr).
    assert (Hj : j < List.length (childrenAt d bodyPath)).
    { rewrite Forall_forall in Hopen.
      destruct (opens_node d _ (Hopen _ (lastOf_In p rest))) as [n Hn].
      rewrite Hjr in Hn. eapply below_body_index; eassumption. }
    split.
    + apply StronglySorted_app.
      * apply gaps_sorted; assumption.
      * repeat constructor.
      * intros a b Ha [<- | []].
        destruct (gaps_In d rest p a Hsorted Ha) as (x & y & -> & _ & Hy & _ & _).
        unfold precedes, between, closing, isAfter, position. cbn [rangeEnd rangeStart].
        rewrite Forall_forall in Hrest. rewrite (bpSeq_before y (Hrest y Hy)).
        unfold bpSeq. cbn [container offset].
        assert (Hle := lastOf_greatest rest p y Hsorted (or_intror Hy)).
        assert (H : compareSeq y (lastOf p rest ++ [0]) = Lt).
        { destruct (compareSeq y (lastOf p rest)) eqn:Hc; try congruence.
          - apply LookupFacts.compareSeq_eq in Hc. rewrite <- Hc.
            apply compareSeq_prefix. discriminate.
          - apply compareSeq_lt_app. exact Hc. }
        rewrite H. reflexivity.
    + apply Forall_app. split.
      * apply Forall_forall. intros g Hg.
        destruct (gaps_In d rest p g Hsorted Hg) as (x & y & -> & _ & Hy & Hxy & _).
        split; [reflexivity | ]. rewrite Forall_forall in Hrest.
        apply wellFormed_between; auto.
      * constructor; [ | constructor]. split; [reflexivity | ].
        unfold wellFormed, closing, isAfter, position, bpSeq.
        cbn [rangeStart rangeEnd container offset]. rewrite Hjr, <- app_assoc.
        rewrite compareSeq_app. cbn [app compareSeq].
        rewrite (proj2 (Nat.compare_lt_iff j _) Hj). reflexivity.
Qed.

Lemma In_firstn_filter {A} (f : A -> bool) (n : nat) (l : list A) (x : A) :
  In x (firstn n (filter f l)) -> In x l /\ f x = true.
Proof.
  intros H. apply filter_In. rewrite <- (firstn_skipn n (filter f l)).
  apply in_or_app. left. exact H.
Qed.

(** X8: the blocks of a document that has a body are the segments of the
    body that have meaningful content, cut off after [MAX_BLOCKS]: one
    segment from inside each qualifying element to right before the next
    one, one from inside the last qualifying element to the end of the
    body, and the whole body when no element qualifies. *)
Theorem segmentation_described (d : Document) (bodyPath : path) (batchSize : nat) :
  body d = Some bodyPath ->
  createAsync (Some d) batchSize
  = Normal (new (firstn MAX_BLOCKS (filter (rangeHasContent d) (segments d bodyPath)))).
Proof. apply createAsync_segments. Qed.

Lemma segmentation_described_witness :
  body Samples.twoParagraphs = Some [0; 1]
  /\ segments Samples.twoParagraphs [0; 1] = [Samples.firstBlock; Samples.secondBlock]
  /\ createAsync (Some Samples.twoParagraphs) 50
     = Normal (new [Samples.firstBlock; Samples.secondBlock]).
Proof.
  split; [reflexivity | split; [reflexivity | ]].
  rewrite (segmentation_described Samples.twoParagraphs [0; 1] 50 eq_refl).
  vm_compute. reflexivity.
Defined.

(** X9: for every document (or none) and every batch size, [createAsync]
    resolves to an iterator whose cursor is -1, that holds at most
    [MAX_BLOCKS] blocks, and each of whose blocks passes
    [rangeHasContent]; without a document it holds no block. *)
Theorem blocks_capped_and_with_content (doc : option Document) (batchSize : nat) :
  exists it,
    createAsync doc batchSize = Normal it
    /\ currentIndex it = (-1)%Z
    /\ List.length (blocks it) <= MAX_BLOCKS
    /\ match doc with
       | Some d => Forall (fun r => rangeHasContent d r = true) (blocks it)
       | None => blocks it = []
       end.
Proof.
  destruct doc as [d | ].
  2: { exists (new []). repeat split; cbn; lia. }
  destruct (body d) as [bodyPath | ] eqn:Hbody.
  - eexists. split; [apply (createAsync_segments d bodyPath batchSize Hbody) | ].
    split; [reflexivity | ]. cbn [blocks new]. split.
    + rewrite length_firstn. lia.
    + apply Forall_forall. intros r Hr. apply In_firstn_filter in Hr. tauto.
  - exists (new []). unfold createAsync. rewrite Hbody.
    repeat split; cbn; try lia. constructor.
Qed.

(** X10: the blocks [createAsync] returns are ranges of the document, each
    with its start at or before its end, and they are in document order
    without overlap: every block ends at or before the start of every
    later block. *)
Theorem blocks_in_document_order (d : Document) (batchSize : nat) :
  exists it,
    createAsync (Some d) batchSize = Normal it
    /\ StronglySorted precedes (blocks it)
    /\ Forall (fun r => rangeDoc r = docId d /\ wellFormed r) (blocks it).
Proof.
  destruct (body d) as [bodyPath | ] eqn:Hbody.
  - eexists. split; [apply (createAsync_segments d bodyPath batchSize Hbody) | ].
    cbn [blocks new]. destruct (segments_ordered d bodyPath Hbody) as [Hsorted Hall].
    split.
    + apply StronglySorted_firstn, StronglySorted_filter. exact Hsorted.
    + apply Forall_forall. intros r Hr. apply In_firstn_filter in Hr.
      rewrite Forall_forall in Hall. apply Hall. tauto.
  - exists (new []). unfold createAsync. rewrite Hbody.
    split; [reflexivity | ]. split; constructor.
Qed.

(** X11: the batch size only decides where the walk yields to the main
    thread; the iterator [createAsync] resolves to is the same for every
    batch size, 0 included. *)
Theorem batch_size_irrelevant (doc : option Document) (batchSize batchSize' : nat) :
  createAsync doc batchSize = createAsync doc batchSize'.
Proof.
  destruct doc as [d | ]; [ | reflexivity].
  unfold createAsync. destruct (body d) as [bodyPath | ]; [ | reflexivity].
  cbv zeta. f_equal. apply finish_core. apply walk_core. reflexivity.
Qed.

(** X13: when every child of the body is a block-tag element whose
    children are text nodes or empty inline elements, and there are fewer
    than [MAX_BLOCKS] of them, the blocks are the ranges of exactly those
    children that hold visible text or a media element, in order; the
    range of a child runs from inside it to right after it, and its text
    is the text of the child. *)
Theorem simple_blocks_kept_by_content (d : Document) (b : path) (tb : string)
  (ps : list node) (batchSize : nat) :
  body d = Some b ->
  docNodeAt d b = Some (Elem tb ps) ->
  Forall (fun c => isSimpleBlock c = true) ps ->
  ps <> [] ->
  List.length ps < MAX_BLOCKS ->
  createAsync (Some d) batchSize
  = Normal (new (map (fun k => childRange d b (fst k))
                   (filter (fun k => nodeHasContent (snd k)) (indexed ps))))
  /\ (forall i t cs, nth_error ps i = Some (Elem t cs) ->
                     rangeToString d (childRange d b i) = textContent (Elem t cs)).
Proof.
  intros Hbody Hnode Hsimple Hne Hlen. split.
  - rewrite <- (kept_children d b tb ps Hnode Hsimple).
    apply (createAsync_simple d b tb ps Hnode Hsimple batchSize Hbody Hne).
    eapply Nat.le_lt_trans; [apply filter_length_le | ].
    rewrite length_map, length_seq. exact Hlen.
  - intros i t cs Hi. apply (rangeToString_childRange d b tb ps Hnode i t cs Hi).
Qed.

Lemma simple_blocks_kept_by_content_witness :
  createAsync (Some Cases.imageParagraph) 1000
  = Normal (new [childRange Cases.imageParagraph [0; 1] 0;
                 childRange Cases.imageParagraph [0; 1] 1;
                 childRange Cases.imageParagraph [0; 1] 3])
  /\ rangeToString Cases.imageParagraph (childRange Cases.imageParagraph [0; 1] 3)
     = str "Outro".
Proof.
  destruct (simple_blocks_kept_by_content Cases.imageParagraph [0; 1] "BODY"
              [paragraph "Intro"; Elem "P" [Elem "IMG" []]; paragraph " "; paragraph "Outro"]
              1000) as [Hblocks Htext].
  - reflexivity.
  - reflexivity.
  - repeat constructor.
  - discriminate.
  - unfold MAX_BLOCKS. cbn [List.length]. lia.
  - split; [exact Hblocks | ].
    exact (Htext 3 "P"%string [Text (str "Outro")] eq_refl).
Defined.

End SegmentationFacts.

(* ====================================================================== *)
(** * The range over the whole body *)
(* ====================================================================== *)

Module WholeBodyFacts.
Import JS Dom Paragraph Segments Layout WalkFacts DomFacts SegmentFacts TreeFacts FlatFacts.
Import DescriptionFacts.
Local Open Scope list_scope.
Local Open Scope nat_scope.

(** [q] without the prefix [b]. *)
Fixpoint below (b q : path) : option path :=
  match b, q with
  | [], _ => Some q
  | x :: b', y :: q' => if x =? y then below b' q' else None
  | _ :: _, [] => None
  end.

(** The first step of a relative path leads to one of [n] children, and
    the path is not that of the first child itself. *)
Definition inside (n : nat) (rel : path) : bool :=
  match rel with
  | [] => false
  | j :: r => (j <? n) && (negb (j =? 0) || match r with [] => false | _ => true end)
  end.

Lemma below_app (b r : path) : below b (b ++ r) = Some r.
Proof.
  induction b as [| x b IH]; [reflexivity | ]. cbn. rewrite Nat.eqb_refl. exact IH.
Qed.

Lemma isPrefix_split (p q : path) : isPrefix p q = true -> exists r, q = p ++ r.
Proof.
  revert q. induction p as [| x p IH]; intros q H; [exists q; reflexivity | ].
  destruct q as [| y q]; [discriminate | ]. cbn in H.
  apply andb_true_iff in H. destruct H as [Hxy H]. apply Nat.eqb_eq in Hxy. subst y.
  destruct (IH q H) as [r ->]. exists r. reflexivity.
Qed.

(** The nodes contained in the range from inside the first child of [b]
    to the end of [b]. *)
Lemma contained_in_body (b : path) (n : nat) :
  forall q len,
    contained (mkBP (b ++ [0]) 0) (mkBP b n) q len
    = match below b q with
      | Some rel => inside n rel
      | None => false
      end.
Proof.
  unfold contained, isAfter, isBefore, position, bpSeq. cbn [container offset].
  induction b as [| x b IH]; intros q len.
  - cbn [below app]. destruct q as [| j r]; [reflexivity | ].
    cbn [app compareSeq inside].
    destruct (Nat.compare_spec j n) as [Hjn | Hjn | Hjn].
    + subst j. rewrite Nat.ltb_irrefl. cbn [andb].
      rewrite compareSeq_nil_r by (destruct r; discriminate). apply andb_false_r.
    + rewrite (proj2 (Nat.ltb_lt j n) Hjn). cbn [andb]. rewrite andb_true_r.
      destruct j as [| j]; cbn [Nat.compare Nat.eqb negb orb].
      * destruct r as [| y r]; cbn [app compareSeq]; [reflexivity | ].
        destruct y; cbn [Nat.compare]; [ | reflexivity].
        rewrite compareSeq_nil_r by (destruct r; discriminate). reflexivity.
      * reflexivity.
    + rewrite (proj2 (Nat.ltb_ge j n)) by lia. cbn [andb]. apply andb_false_r.
  - destruct q as [| y q]; cbn [below app compareSeq].
    + destruct x; cbn [Nat.compare]; [ | reflexivity].
      destruct ((b ++ [0]) ++ [0]) eqn:Hb; [ | reflexivity].
      apply app_eq_nil in Hb. destruct Hb; discriminate.
    + rewrite (Nat.eqb_sym x y).
      destruct (Nat.compare_spec y x) as [-> | Hlt | Hgt].
      * rewrite Nat.eqb_refl. apply IH.
      * rewrite (proj2 (Nat.eqb_neq y x)) by lia. reflexivity.
      * rewrite (proj2 (Nat.eqb_neq y x)) by lia. apply andb_false_r.
Qed.

Lemma filter_filter_impl {A} (f g : A -> bool) (l : list A) :
  (forall x, f x = true -> g x = true) -> filter f l = filter f (filter g l).
Proof.
  intros H. induction l as [| x l IH]; [reflexivity | ].
  cbn [filter]. destruct (f x) eqn:Hf.
  - rewrite (H x Hf). cbn [filter]. rewrite Hf, IH. reflexivity.
  - destruct (g x); [cbn [filter]; rewrite Hf | ]; exact IH.
Qed.

Lemma below_strictly (b q rel : path) (n : nat) :
  below b q = Some rel -> inside n rel = true -> strictlyBelow b q = true.
Proof.
  revert q. induction b as [| x b IH]; intros q Hb Hin.
  - cbn in Hb. inversion Hb; subst q. destruct rel; [discriminate | reflexivity].
  - destruct q as [| y q]; [discriminate | ]. cbn in Hb.
    destruct (Nat.eqb_spec x y) as [-> | _]; [ | discriminate].
    specialize (IH q Hb Hin). unfold strictlyBelow in *. cbn. rewrite Nat.eqb_refl. exact IH.
Qed.

Section WholeBody.
Variable d : Document.
Variable b : path.
Variables (tb : string) (c0 : node) (cs : list node).
Hypothesis b_node : docNodeAt d b = Some (Elem tb (c0 :: cs)).

Let s : BoundaryPoint := mkBP (b ++ [0]) 0.
Let e : BoundaryPoint := mkBP b (S (List.length cs)).

Lemma whole_range : wholeBodyRange d b = mkRange (docId d) s e.
Proof.
  unfold wholeBodyRange. rewrite (childrenAt_node _ _ _ b_node). reflexivity.
Qed.

Lemma first_child_node : docNodeAt d (b ++ [0]) = Some c0.
Proof.
  rewrite docNodeAt_child by (eapply docNodeAt_nonempty; exact b_node).
  rewrite (childrenAt_node _ _ _ b_node). reflexivity.
Qed.

(** The text nodes of one child that the range contains. *)
Lemma contained_child_text (k : nat) (c : node) :
  nth_error (c0 :: cs) k = Some c ->
  filter (fun x => contained s e (fst x) (List.length (snd x))) (textNodes (b ++ [k]) c)
  = match k, c with
    | 0, Text _ => []
    | _, _ => textNodes (b ++ [k]) c
    end.
Proof.
  intros Hk. assert (Hlt : k < S (List.length cs)).
  { change (S (List.length cs)) with (List.length (c0 :: cs)). apply nth_error_Some. congruence. }
  assert (Hall : forall q data, In (q, data) (textNodes (b ++ [k]) c) ->
                   exists r, q = b ++ k :: r).
  { intros q data Hin. apply textNodes_prefix in Hin. apply isPrefix_split in Hin.
    destruct Hin as [r ->]. exists r. rewrite <- app_assoc. reflexivity. }
  destruct k as [| k].
  - destruct c as [t cc | data].
    + apply filter_all. intros [q data] Hin. cbn [fst snd].
      unfold s, e. rewrite contained_in_body.
      rewrite textNodes_Elem in Hin. apply in_flat_map in Hin.
      destruct Hin as ([j cj] & _ & Hin). cbn [fst snd] in Hin.
      apply textNodes_prefix, isPrefix_split in Hin. destruct Hin as [r ->].
      rewrite <- !app_assoc, below_app. reflexivity.
    + cbn [textNodes filter fst snd]. unfold s, e. rewrite contained_in_body, below_app.
      reflexivity.
  - apply filter_all. intros [q data] Hin. cbn [fst snd].
    destruct (Hall q data Hin) as [r ->].
    unfold s, e. rewrite contained_in_body, below_app. cbn [inside Nat.eqb negb orb].
    rewrite andb_true_r. apply Nat.ltb_lt. exact Hlt.
Qed.

Lemma rangeToString_whole :
  rangeToString d (wholeBodyRange d b) = textContent (Elem tb (c0 :: cs)).
Proof.
  rewrite whole_range. unfold rangeToString, textAt.
  cbn [rangeStart rangeEnd]. fold s e. cbn [container offset e s].
  rewrite first_child_node, b_node, app_nil_r.
  unfold path_eqb. rewrite isPrefix_longer. cbn [andb].
  set (f := fun t : path * list char16 => contained s e (fst t) (List.length (snd t))).
  assert (Hinner : filter f (textNodes [0] (documentElement d))
                   = filter f (textNodes b (Elem tb (c0 :: cs)))).
  { rewrite (filter_filter_impl f (fun x => strictlyBelow b (fst x))).
    - destruct (docNodeAt_root _ _ _ b_node) as (rel & Hrel & Hnode).
      f_equal. rewrite Hrel. exact (textNodes_strictlyBelow rel [0] _ tb (c0 :: cs) Hnode).
    - intros [q data]. unfold f, s, e. cbn [fst snd]. rewrite contained_in_body.
      destruct (below b q) as [rel | ] eqn:Hb; [ | discriminate].
      apply below_strictly. exact Hb. }
  rewrite Hinner, textNodes_Elem, filter_flat_map.
  assert (Hkids : flat_map (fun x : nat * node => filter f (textNodes (b ++ [fst x]) (snd x)))
                    (indexed (c0 :: cs))
                  = flat_map (fun x : nat * node =>
                                match fst x, snd x with
                                | 0, Text _ => []
                                | _, _ => textNodes (b ++ [fst x]) (snd x)
                                end) (indexed (c0 :: cs))).
  { apply flat_map_ext_in. intros [k c] Hin. cbn [fst snd].
    apply In_indexed in Hin. apply contained_child_text. exact Hin. }
  rewrite Hkids. unfold textContent.
  rewrite (textNodes_data (Elem tb (c0 :: cs)) [] b), textNodes_Elem.
  rewrite !indexed_from_0, !indexedFrom_cons. cbn [flat_map fst snd].
  assert (Hrest : flat_map (fun x : nat * node =>
                              match fst x, snd x with
                              | 0, Text _ => []
                              | _, _ => textNodes (b ++ [fst x]) (snd x)
                              end) (indexedFrom 1 cs)
                  = flat_map (fun k => textNodes (b ++ [fst k]) (snd k)) (indexedFrom 1 cs)).
  { apply flat_map_ext_in. intros [k c] Hin. cbn [fst snd].
    apply In_indexedFrom in Hin. destruct k; [lia | reflexivity]. }
  rewrite Hrest.
  destruct c0 as [t cc | data].
  - reflexivity.
  - cbn [textNodes app skipn map List.concat]. reflexivity.
Qed.

Lemma cloneContents_whole : cloneContents d (wholeBodyRange d b) = c0 :: cs.
Proof.
  rewrite whole_range. unfold cloneContents, s, e. cbn [rangeStart rangeEnd container offset].
  rewrite length_app. cbn [List.length]. rewrite Nat.add_1_r.
  cbn [Nat.add]. rewrite cloneContentsAux_step. cbv zeta. cbn [container offset].
  assert (Hne : bp_eqb (mkBP (b ++ [0]) 0) (mkBP b (S (List.length cs))) = false).
  { unfold bp_eqb, position, bpSeq. cbn [container offset].
    rewrite <- app_assoc, compareSeq_app. reflexivity. }
  rewrite Hne. unfold path_eqb. rewrite isPrefix_longer. cbn [andb].
  rewrite commonAncestor_child, (childrenAt_node _ _ _ b_node), isPrefix_app_r.
  cbn [childNodes]. rewrite indexed_from_0, indexedFrom_cons.
  assert (Hpartial : partiallyContained (mkBP (b ++ [0]) 0) (mkBP b (S (List.length cs)))
                       (b ++ [0]) = true).
  { unfold partiallyContained. cbn [container]. rewrite isPrefix_refl, isPrefix_longer.
    reflexivity. }
  cbn [find fst snd]. rewrite Hpartial.
  assert (Hfirst : contained (mkBP (b ++ [0]) 0) (mkBP b (S (List.length cs)))
                     (b ++ [0]) (nodeLength c0) = false).
  { rewrite contained_in_body, below_app. reflexivity. }
  cbn [filter fst snd]. rewrite Hfirst.
  rewrite filter_all.
  2: { intros [k c] Hin. cbn [fst snd]. apply In_indexedFrom in Hin. destruct Hin as [Hk Hnth].
       rewrite contained_in_body, below_app. cbn [inside].
       assert (k - 1 < List.length cs) by (apply nth_error_Some; congruence).
       rewrite (proj2 (Nat.ltb_lt k (S (List.length cs)))) by lia.
       destruct k; [lia | reflexivity]. }
  rewrite map_snd_indexedFrom, app_nil_r.
  destruct c0 as [t cc | data].
  - rewrite (clone_children d b tb (Elem t cc :: cs) b_node 0 t cc eq_refl). reflexivity.
  - reflexivity.
Qed.

Lemma rangeHasContent_whole :
  rangeHasContent d (wholeBodyRange d b)
  = hasMeaningfulText (Some (textContent (Elem tb (c0 :: cs))))
    || existsb (matchesBelow MEDIA_SELECTOR) (c0 :: cs).
Proof.
  unfold rangeHasContent. rewrite rangeToString_whole, cloneContents_whole.
  destruct (hasMeaningfulText _); reflexivity.
Qed.

End WholeBody.

Lemma body_tag (d : Document) (b : path) (tb : string) (cs : list node) :
  body d = Some b -> docNodeAt d b = Some (Elem tb cs) -> isBodyTag (Elem tb cs) = true.
Proof.
  unfold body. destruct (documentElement d) as [t children | data] eqn:Hroot; [ | discriminate].
  destruct (String.eqb (toLowerCase t) "html"); [ | discriminate].
  unfold indexed. destruct (find _ _) as [[i c] | ] eqn:Hfind; [ | discriminate].
  cbn. intros H. inversion H; subst b. clear H.
  apply find_indexed in Hfind. destruct Hfind as (_ & Hnth & Hc).
  rewrite Nat.sub_0_r in Hnth.
  unfold docNodeAt. rewrite Hroot. cbn. rewrite Hnth. intros H. inversion H; subst c. exact Hc.
Qed.

Lemma empty_body_content (d : Document) (b : path) (tb : string) :
  body d = Some b -> docNodeAt d b = Some (Elem tb []) ->
  rangeHasContent d (wholeBodyRange d b) = false.
Proof.
  intros Hbody Hnode. assert (Htag := body_tag d b tb [] Hbody Hnode).
  destruct (body_spec d _ Hbody) as (i & t & children & tb' & bcs & -> & Hroot & Hnth & Hnode' & Hkids).
  assert (Heq : Elem tb' bcs = Elem tb []) by congruence.
  inversion Heq as [[Htb Hbcs]]. rewrite Htb, Hbcs in Hnth.
  assert (Hrootnode : docNodeAt d [0] = Some (Elem t children))
    by (cbn; rewrite Hroot; reflexivity).
  assert (Hwhole : wholeBodyRange d [0; i] = childRange d [0] i).
  { unfold wholeBodyRange. rewrite Hkids, Hbcs. reflexivity. }
  rewrite Hwhole, (rangeHasContent_childRange d [0] t children Hrootnode i tb [] Hnth).
  cbn [isBodyTag] in Htag. cbn [matchesBelow].
  apply orb_true_iff in Htag.
  destruct Htag as [Htag | Htag]; apply String.eqb_eq in Htag; rewrite Htag; reflexivity.
Qed.

(** X22: when no element below the body carries a block tag, the one
    block over the whole body is kept exactly when there is visible text
    anywhere below the body or a media element anywhere below it. *)
Theorem inline_body_kept_by_content (d : Document) (b : path) (tb : string)
  (cs : list node) (batchSize : nat) :
  body d = Some b ->
  docNodeAt d b = Some (Elem tb cs) ->
  Forall (fun p => hasBlockTag d p = false) (createTreeWalker d b) ->
  createAsync (Some d) batchSize
  = Normal (new (if hasMeaningfulText (Some (textContent (Elem tb cs)))
                    || existsb (matchesBelow MEDIA_SELECTOR) cs
                 then [wholeBodyRange d b] else [])).
Proof.
  intros Hbody Hnode Hnone.
  rewrite (createAsync_segments d b batchSize Hbody).
  assert (Hq : qualifying d b = []).
  { unfold qualifying. induction Hnone as [| p l Hp _ IH]; [reflexivity | ].
    cbn [filter]. destruct (opens d p) eqn:Ho; [ | exact IH].
    apply opens_hasBlockTag in Ho. congruence. }
  unfold segments. rewrite Hq. cbn [filter].
  assert (Hcontent : rangeHasContent d (wholeBodyRange d b)
                     = hasMeaningfulText (Some (textContent (Elem tb cs)))
                       || existsb (matchesBelow MEDIA_SELECTOR) cs).
  { destruct cs as [| c0 cs].
    - rewrite (empty_body_content d b tb Hbody Hnode). reflexivity.
    - apply (rangeHasContent_whole d b tb c0 cs Hnode). }
  rewrite Hcontent.
  destruct (hasMeaningfulText _ || existsb _ cs); reflexivity.
Qed.

Lemma inline_body_kept_by_content_witness :
  createAsync (Some Samples.inlineBody) 50
  = Normal (new [wholeBodyRange Samples.inlineBody [0; 1]]).
Proof.
  apply (inline_body_kept_by_content Samples.inlineBody [0; 1] "BODY"
           [Elem "SPAN" [Text (str "Hello")]; Text (str " world")] 50).
  - reflexivity.
  - reflexivity.
  - repeat constructor.
Defined.

End WholeBodyFacts.

(* ====================================================================== *)
(** * Yielding to the main thread *)
(* ====================================================================== *)

Module BatchFacts.
Import JS Dom Paragraph Segments WalkFacts.
Local Open Scope list_scope.
Local Open Scope nat_scope.

Lemma div_succ (n b : nat) :
  b <> 0 -> S n / b = n / b + (if S n mod b =? 0 then 1 else 0).
Proof.
  intros Hb.
  assert (Hn := Nat.div_mod_eq n b).
  assert (Hr := Nat.mod_upper_bound n b Hb).
  destruct (Nat.eq_dec (S (n mod b)) b) as [Heq | Hne].
  - assert (Hmod : S n mod b = 0).
    { symmetry. apply (Nat.mod_unique (S n) b (S (n / b)) 0); [lia | nia]. }
    assert (Hdiv : S n / b = S (n / b)).
    { symmetry. apply (Nat.div_unique (S n) b (S (n / b)) 0); [lia | nia]. }
    rewrite Hmod, Hdiv. cbn. lia.
  - assert (Hmod : S n mod b = S (n mod b)).
    { symmetry. apply (Nat.mod_unique (S n) b (n / b) (S (n mod b))); [lia | nia]. }
    assert (Hdiv : S n / b = n / b).
    { symmetry. apply (Nat.div_unique (S n) b (n / b) (S (n mod b))); [lia | nia]. }
    rewrite Hmod, Hdiv. cbn. lia.
Qed.

Lemma visit_counters (d : Document) (b : nat) (p : path) (w : Walk) :
  wProcessed (visit d b p w) = S (wProcessed w)
  /\ wYields (visit d b p w)
     = (if batchBoundary (S (wProcessed w)) b then S (wYields w) else wYields w)
  /\ wCount w <= wCount (visit d b p w).
Proof.
  unfold visit.
  destruct (docNodeAt d p) as [[t cs | data] | ]; cbn [wProcessed wYields wCount];
    try (repeat split; lia).
  destruct (blockTags_has (toLowerCase t)); cbn [wProcessed wYields wCount];
    try (repeat split; lia).
  destruct (hasBlockChild (Elem t cs) && negb (hasDirectText (Elem t cs)));
    cbn [wProcessed wYields wCount wLast wBlocks]; try (repeat split; lia).
  split; [reflexivity | split; [reflexivity | ]].
  destruct (wLast w) as [last | ]; cbn; [ | lia].
  destruct (setEndBefore d last p) as [r | e]; cbn; [ | lia].
  destruct (rangeHasContent d r); cbn; lia.
Qed.

Lemma boundary_yield (n b : nat) :
  S n / b = n / b + (if batchBoundary (S n) b then 1 else 0).
Proof.
  destruct b as [| b]; [reflexivity | ].
  unfold batchBoundary. apply div_succ. discriminate.
Qed.

Lemma walk_counters (d : Document) (b : nat) (nodes : list path) :
  forall w,
    wYields w = wProcessed w / b ->
    wYields (walk d b nodes w) = wProcessed (walk d b nodes w) / b
    /\ wProcessed (walk d b nodes w) <= wProcessed w + List.length nodes
    /\ wCount w <= wCount (walk d b nodes w)
    /\ (wCount (walk d b nodes w) < MAX_BLOCKS ->
        wProcessed (walk d b nodes w) = wProcessed w + List.length nodes).
Proof.
  induction nodes as [| p rest IH]; intros w Hw; cbn [walk List.length].
  - repeat split; auto; lia.
  - destruct (Nat.ltb_spec (wCount w) MAX_BLOCKS) as [Hlt | Hge].
    + destruct (visit_counters d b p w) as (Hp & Hy & Hc).
      assert (Hv : wYields (visit d b p w) = wProcessed (visit d b p w) / b).
      { rewrite Hy, Hp, boundary_yield, Hw.
        destruct (batchBoundary (S (wProcessed w)) b); lia. }
      destruct (IH (visit d b p w) Hv) as (IHy & IHp & IHc & IHall).
      repeat split; auto; lia.
    + repeat split; auto; lia.
Qed.

(** X12: the walk of [createAsync] over the elements below the body
    suspends once every [batchSize] visited elements (never for batch
    size 0): the number of [yieldToMain] suspension points passed is the
    number of visited elements divided by the batch size; it visits no
    more elements than there are, and all of them unless the cap on the
    number of blocks was reached. *)
Theorem yields_once_per_batch (d : Document) (bodyPath : path) (batchSize : nat) :
  let elements := createTreeWalker d bodyPath in
  let w := walk d batchSize elements (mkWalk [] None 0 0 0) in
  wYields w = wProcessed w / batchSize
  /\ wProcessed w <= List.length elements
  /\ (wCount w < MAX_BLOCKS -> wProcessed w = List.length elements).
Proof.
  cbv zeta.
  assert (H0 : wYields (mkWalk [] None 0 0 0) = wProcessed (mkWalk [] None 0 0 0) / batchSize).
  { cbn [wYields wProcessed]. symmetry. apply Nat.Div0.div_0_l. }
  destruct (walk_counters d batchSize (createTreeWalker d bodyPath) (mkWalk [] None 0 0 0) H0)
    as (Hy & Hp & _ & Hall).
  cbn [wProcessed] in *. repeat split; auto.
Qed.

End BatchFacts.

(* ====================================================================== *)
(** * Lookups in a body of paragraphs *)
(* ====================================================================== *)

Module ParagraphLookupFacts.
Import JS Dom Paragraph Segments DomFacts.
Local Open Scope list_scope.
Local Open Scope nat_scope.

(** A node at or below child [i] of [b] intersects the range of child [k]
    exactly when [k] is [i]. *)
Lemma intersectsNode_child (d : Document) (b : path) (k i : nat) (r : path) :
  intersectsNode (childRange d b k) (mkNodeRef (docId d) (b ++ i :: r)) = (k =? i).
Proof.
  unfold intersectsNode, childRange. cbn [refDoc refPath rangeDoc rangeStart rangeEnd].
  rewrite Nat.eqb_refl. cbn [negb].
  assert (Hne : i :: r <> []) by discriminate.
  destruct (exists_last Hne) as (r0 & off & Hlast).
  replace (b ++ i :: r) with ((b ++ r0) ++ [off]) by (rewrite <- app_assoc, <- Hlast; reflexivity).
  rewrite parentAndIndex_app.
  unfold isBefore, isAfter, position, bpSeq. cbn [container offset].
  rewrite <- !app_assoc, !compareSeq_app.
  destruct r0 as [| x r0].
  - cbn in Hlast. inversion Hlast; subst. cbn [app compareSeq].
    destruct (Nat.compare_spec off (k + 1)) as [H1 | H1 | H1];
      destruct (Nat.compare_spec (off + 1) k) as [H2 | H2 | H2];
      destruct (Nat.eqb_spec k off) as [H3 | H3]; cbn; try reflexivity; lia.
  - cbn in Hlast. inversion Hlast as [[Hi Hr]]. subst x. cbn [app compareSeq].
    assert (Htail : compareSeq (r0 ++ [off + 1]) [0] = Gt).
    { destruct r0 as [| y r0]; cbn.
      - rewrite (proj2 (Nat.compare_gt_iff (off + 1) 0)) by lia. reflexivity.
      - destruct y; cbn; [ | reflexivity]. destruct (r0 ++ [off + 1]) eqn:Hl; [ | reflexivity].
        apply app_eq_nil in Hl. destruct Hl; discriminate. }
    assert (Hnil : compareSeq (r0 ++ [off]) [] = Gt).
    { destruct (r0 ++ [off]) eqn:Hl; [ | reflexivity].
      apply app_eq_nil in Hl. destruct Hl; discriminate. }
    rewrite Htail, Hnil.
    destruct (Nat.compare_spec i (k + 1)) as [H1 | H1 | H1];
      destruct (Nat.compare_spec i k) as [H2 | H2 | H2];
      destruct (Nat.eqb_spec k i) as [H3 | H3]; cbn; try reflexivity; lia.
Qed.

Lemma compareSeq_cons (x y : nat) (a b : list nat) :
  compareSeq (x :: a) (y :: b)
  = match Nat.compare x y with Eq => compareSeq a b | c => c end.
Proof. reflexivity. Qed.

(** A range with both ends at or below child [i] of [b] passes the test
    of the scan against the range of child [k] exactly when [k] is [i]. *)
Lemma boundaryTest_child (d : Document) (b : path) (k i : nat)
  (rs re : path) (os oe : nat) :
  boundaryTest (childRange d b k)
    (mkRange (docId d) (mkBP (b ++ i :: rs) os) (mkBP (b ++ i :: re) oe))
  = (k =? i).
Proof.
  unfold boundaryTest, compareBoundaryPoints, childRange.
  cbn [rangeDoc rangeStart rangeEnd]. rewrite Nat.eqb_refl. cbn [negb tryCatch bind].
  unfold position, bpSeq. cbn [container offset].
  rewrite <- !app_assoc, !compareSeq_app. cbn [app]. rewrite !compareSeq_cons.
  assert (Hs : compareSeq [] (rs ++ [os]) = Lt).
  { destruct (rs ++ [os]) eqn:Hl; [ | reflexivity].
    apply app_eq_nil in Hl. destruct Hl; discriminate. }
  assert (He : compareSeq [0] (re ++ [oe]) <> Gt).
  { destruct re as [| y re]; cbn.
    - destruct oe; cbn; discriminate.
    - destruct y; cbn; [ | discriminate]. destruct (re ++ [oe]) eqn:Hl; discriminate. }
  rewrite Hs. remember (compareSeq [0] (re ++ [oe])) as c eqn:Hc.
  destruct (Nat.compare_spec (k + 1) i) as [H1 | H1 | H1];
    destruct (Nat.compare_spec k i) as [H2 | H2 | H2];
    destruct (Nat.eqb_spec k i) as [H3 | H3]; cbn; try reflexivity; try lia.
  all: destruct c; cbn; congruence.
Qed.

Section ChildBlocks.
Variable d : Document.
Variable b : path.
Variable i : nat.

Lemma findIntersecting_child (r : path) (ks2 : list nat) :
  forall (ks1 : list nat) (j : nat),
    ~ In i ks1 ->
    findIntersecting (mkNodeRef (docId d) (b ++ i :: r))
      (map (childRange d b) (ks1 ++ i :: ks2)) j
    = Some (j + List.length ks1, childRange d b i).
Proof.
  induction ks1 as [| k ks1 IH]; intros j Hnot; cbn [app map findIntersecting List.length].
  - rewrite intersectsNode_child, Nat.eqb_refl, Nat.add_0_r. reflexivity.
  - rewrite intersectsNode_child.
    destruct (Nat.eqb_spec k i) as [-> | _]; [exfalso; apply Hnot; left; reflexivity | ].
    rewrite IH by (intros H; apply Hnot; right; exact H). f_equal. f_equal. lia.
Qed.

Lemma findIntersecting_skipped (r : path) :
  forall (ks : list nat) (j : nat),
    ~ In i ks ->
    findIntersecting (mkNodeRef (docId d) (b ++ i :: r)) (map (childRange d b) ks) j = None.
Proof.
  induction ks as [| k ks IH]; intros j Hnot; cbn [map findIntersecting]; [reflexivity | ].
  rewrite intersectsNode_child.
  destruct (Nat.eqb_spec k i) as [-> | _]; [exfalso; apply Hnot; left; reflexivity | ].
  apply IH. intros H. apply Hnot. right. exact H.
Qed.

Lemma scan_child (target : Range) (ks2 : list nat) :
  (forall k, boundaryTest (childRange d b k) target = (k =? i)) ->
  forall (ks1 : list nat) (j : nat),
    ~ In i ks1 ->
    scanBoundaryPoints target (map (childRange d b) (ks1 ++ i :: ks2)) j
    = Some (j + List.length ks1, childRange d b i).
Proof.
  intros Htest.
  induction ks1 as [| k ks1 IH]; intros j Hnot; cbn [app map scanBoundaryPoints List.length].
  - rewrite Htest, Nat.eqb_refl, Nat.add_0_r. reflexivity.
  - rewrite Htest.
    destruct (Nat.eqb_spec k i) as [-> | _]; [exfalso; apply Hnot; left; reflexivity | ].
    rewrite IH by (intros H; apply Hnot; right; exact H). f_equal. f_equal. lia.
Qed.

Lemma scan_skipped (target : Range) :
  (forall k, boundaryTest (childRange d b k) target = (k =? i)) ->
  forall (ks : list nat) (j : nat),
    ~ In i ks -> scanBoundaryPoints target (map (childRange d b) ks) j = None.
Proof.
  intros Htest.
  induction ks as [| k ks IH]; intros j Hnot; cbn [map scanBoundaryPoints]; [reflexivity | ].
  rewrite Htest.
  destruct (Nat.eqb_spec k i) as [-> | _]; [exfalso; apply Hnot; left; reflexivity | ].
  apply IH. intros H. apply Hnot. right. exact H.
Qed.

End ChildBlocks.

(** A range with both ends at or below child [i] lies inside the range
    of that child. *)
Lemma childRange_contains (d : Document) (b : path) (i : nat)
  (rs re : path) (os oe : nat) :
  Samples.containsRange (childRange d b i)
    (mkRange (docId d) (mkBP (b ++ i :: rs) os) (mkBP (b ++ i :: re) oe)).
Proof.
  unfold Samples.containsRange, childRange, isAfter, isBefore, position, bpSeq.
  cbn [rangeStart rangeEnd container offset].
  rewrite <- !app_assoc, !compareSeq_app. cbn [app]. rewrite !compareSeq_cons.
  rewrite Nat.compare_refl.
  rewrite (proj2 (Nat.compare_gt_iff (i + 1) i)) by lia.
  split; [ | reflexivity].
  destruct rs as [| y rs]; cbn [app]; rewrite compareSeq_cons.
  - destruct os; reflexivity.
  - destruct y; cbn; [ | reflexivity]. destruct (rs ++ [os]); reflexivity.
Qed.

(** X14: in an iterator whose blocks are the ranges of children of the
    body (what [createAsync] builds for a body of simple blocks), a node
    at or below a child that has a block, and a range with both ends at
    or below that child, are found in the block of that child: the lookup
    returns it and moves the cursor to it, and the block contains the
    target range. *)
Theorem target_found_in_its_paragraph (d : Document) (b : path) (i : nat)
  (ks1 ks2 : list nat) (cursor : Z) :
  ~ In i ks1 ->
  let it := mkIterator (map (childRange d b) (ks1 ++ i :: ks2)) cursor in
  let found := (Some (childRange d b i),
                mkIterator (blocks it) (Z.of_nat (List.length ks1))) in
  (forall r, findByNode it (Some (mkNodeRef (docId d) (b ++ i :: r))) = found)
  /\ (forall rs os re oe,
        let target := mkRange (docId d) (mkBP (b ++ i :: rs) os) (mkBP (b ++ i :: re) oe) in
        findByRangeAsync it (Some target) = found
        /\ Samples.containsRange (childRange d b i) target).
Proof.
  intros Hnot. cbv zeta. cbn [blocks]. split.
  - intros r. cbn [findByNode blocks].
    rewrite (findIntersecting_child d b i r ks2 ks1 0 Hnot). reflexivity.
  - intros rs os re oe. split; [ | apply childRange_contains].
    cbn [findByRangeAsync blocks].
    rewrite (scan_child d b i _ ks2 (fun k => boundaryTest_child d b k i rs re os oe) ks1 0 Hnot).
    reflexivity.
Qed.

Lemma target_found_in_its_paragraph_witness :
  findByRangeAsync (new [Samples.firstBlock; Samples.secondBlock]) (Some Cases.caret)
  = (Some Samples.secondBlock, mkIterator [Samples.firstBlock; Samples.secondBlock] 1)
  /\ Samples.containsRange Samples.secondBlock Cases.caret.
Proof.
  assert (Hnot : ~ In 1 [0]) by (intros [H | []]; discriminate).
  exact (proj2 (target_found_in_its_paragraph Samples.twoParagraphs [0; 1] 1 [0] [] (-1) Hnot)
           [0] 1 [0] 1).
Defined.

(** X15: a node or a range at or below a child of the body that has no
    block (a paragraph that was skipped for lack of content) matches no
    block, and the lookup ends as [first()]. *)
Theorem target_in_skipped_paragraph (d : Document) (b : path) (i : nat)
  (ks : list nat) (cursor : Z) :
  ~ In i ks ->
  let it := mkIterator (map (childRange d b) ks) cursor in
  (forall r, findByNode it (Some (mkNodeRef (docId d) (b ++ i :: r))) = first it)
  /\ (forall rs os re oe,
        findByRangeAsync it
          (Some (mkRange (docId d) (mkBP (b ++ i :: rs) os) (mkBP (b ++ i :: re) oe)))
        = first it).
Proof.
  intros Hnot. cbv zeta. split.
  - intros r. cbn [findByNode blocks].
    rewrite (findIntersecting_skipped d b i r ks 0 Hnot). reflexivity.
  - intros rs os re oe. cbn [findByRangeAsync blocks].
    rewrite (scan_skipped d b i _ (fun k => boundaryTest_child d b k i rs re os oe) ks 0 Hnot).
    cbn [findByNode blocks startContainer rangeStart container rangeDoc].
    rewrite (findIntersecting_skipped d b i rs ks 0 Hnot). reflexivity.
Qed.

Lemma target_in_skipped_paragraph_witness :
  findByNode (mkIterator [childRange Cases.imageParagraph [0; 1] 0;
                          childRange Cases.imageParagraph [0; 1] 1;
                          childRange Cases.imageParagraph [0; 1] 3] 2)
    (Some (mkNodeRef 4 [0; 1; 2; 0]))
  = (Some (childRange Cases.imageParagraph [0; 1] 0),
     mkIterator [childRange Cases.imageParagraph [0; 1] 0;
                 childRange Cases.imageParagraph [0; 1] 1;
                 childRange Cases.imageParagraph [0; 1] 3] 0).
Proof.
  assert (Hnot : ~ In 2 [0; 1; 3]) by (intros [H | [H | [H | []]]]; discriminate).
  exact (proj1 (target_in_skipped_paragraph Cases.imageParagraph [0; 1] 2 [0; 1; 3] 2 Hnot)
           [0]).
Defined.

End ParagraphLookupFacts.

(* ====================================================================== *)
(** * What the font stacks hold *)
(* ====================================================================== *)

Module StackFacts.
Import JS Style FontFacts.
Local Open Scope string_scope.
Local Open Scope list_scope.

Lemma In_kept (table : list string) (chosen cjk font : string) :
  In font (filter (fun font => differs font chosen && differs font cjk) table)
  <-> In font table /\ font <> chosen /\ font <> cjk.
Proof.
  rewrite filter_In, andb_true_iff, !differs_neq. tauto.
Qed.

(** X16: what the font stacks hold.  The sans-serif stack holds the
    chosen font, the CJK default and every font of the sans-serif, CJK
    sans-serif and fallback tables, and nothing else; the monospace stack
    holds the chosen font and the monospace table; the serif stack holds
    the chosen font, the CJK default, the CJK serif and fallback tables,
    and every font of the serif table except a last-resort font when the
    CJK default is a last-resort font too. *)
Theorem table_fonts_kept (K : Constants)
  (serif sansSerif monospace defaultCJKFont font : string) :
  (In font (sansSerifFonts K sansSerif defaultCJKFont)
   <-> font = sansSerif \/ font = defaultCJKFont
       \/ In font (SANS_SERIF_FONTS K) \/ In font (CJK_SANS_SERIF_FONTS K)
       \/ In font (FALLBACK_FONTS K))
  /\ (In font (monospaceFonts K monospace)
      <-> font = monospace \/ In font (MONOSPACE_FONTS K))
  /\ (In font (serifFonts K serif defaultCJKFont)
      <-> font = serif \/ font = defaultCJKFont
          \/ In font (CJK_SERIF_FONTS K) \/ In font (FALLBACK_FONTS K)
          \/ (In font (SERIF_FONTS K)
              /\ ~ (In font lastSerifFonts /\ In defaultCJKFont lastSerifFonts))).
Proof.
  split; [ | split].
  - rewrite sansSerifFonts_shape, in_app_iff, In_chosen, !in_app_iff, !In_kept.
    destruct (string_dec font sansSerif), (string_dec font defaultCJKFont); tauto.
  - apply In_monospaceFonts.
  - rewrite serifFonts_shape, in_app_iff, In_chosen, !in_app_iff, In_kept, In_reappended.
    rewrite filter_In, !andb_true_iff, !differs_neq, negb_true_iff, includes_not_In.
    destruct (string_dec font serif), (string_dec font defaultCJKFont),
      (in_dec string_dec font lastSerifFonts),
      (in_dec string_dec defaultCJKFont lastSerifFonts); tauto.
Qed.

End StackFacts.

(* ====================================================================== *)
(** * The mode classes of the body *)
(* ====================================================================== *)

Module ClassFacts.
Import JS Style Classes FontFacts.
Local Open Scope string_scope.
Local Open Scope list_scope.
Local Open Scope js_scope.

Lemma In_remove (tokens : list string) (classList : DOMTokenList) (token : string) :
  In token (remove tokens classList) <-> In token classList /\ ~ In token tokens.
Proof.
  unfold remove. rewrite filter_In, negb_true_iff, includes_not_In. tauto.
Qed.

Lemma add_removed (tokens : list string) (classList : DOMTokenList) (token : string) :
  In token tokens -> add token (remove tokens classList) = remove tokens classList ++ [token].
Proof.
  intros Hin. unfold add.
  destruct (includes (remove tokens classList) token) eqn:Hinc; [ | reflexivity].
  apply includes_In, In_remove in Hinc. tauto.
Qed.

Lemma remove_app (tokens : list string) (a b : DOMTokenList) :
  remove tokens (a ++ b) = remove tokens a ++ remove tokens b.
Proof. apply filter_app. Qed.

Lemma remove_idempotent (tokens : list string) (classList : DOMTokenList) :
  remove tokens (remove tokens classList) = remove tokens classList.
Proof.
  unfold remove. induction classList as [| c l IH]; [reflexivity | ].
  cbn [filter]. destruct (negb (includes tokens c)) eqn:Hc; [ | exact IH].
  cbn [filter]. rewrite Hc, IH. reflexivity.
Qed.

Lemma remove_comm (t1 t2 : list string) (classList : DOMTokenList) :
  remove t1 (remove t2 classList) = remove t2 (remove t1 classList).
Proof.
  unfold remove. induction classList as [| c l IH]; [reflexivity | ].
  cbn [filter].
  destruct (negb (includes t2 c)) eqn:H2, (negb (includes t1 c)) eqn:H1;
    cbn [filter]; rewrite ?H1, ?H2, IH; reflexivity.
Qed.

Definition themeClass (isDarkMode : bool) : string :=
  if isDarkMode then "theme-dark" else "theme-light".

Definition scrollClass (isScrollMode : bool) : string :=
  if isScrollMode then "scroll-mode" else "paginated-mode".

Lemma applyThemeModeClass_result (classList : DOMTokenList) (isDarkMode : bool) :
  applyThemeModeClass (Some classList) isDarkMode
  = Normal (remove ["theme-light"; "theme-dark"] classList ++ [themeClass isDarkMode]).
Proof.
  unfold applyThemeModeClass. fold (themeClass isDarkMode).
  rewrite add_removed; [reflexivity | ]. destruct isDarkMode; cbn; auto.
Qed.

Lemma applyScrollModeClass_result (classList : DOMTokenList) (isScrollMode : bool) :
  applyScrollModeClass (Some classList) isScrollMode
  = Normal (remove ["scroll-mode"; "paginated-mode"] classList ++ [scrollClass isScrollMode]).
Proof.
  unfold applyScrollModeClass. fold (scrollClass isScrollMode).
  rewrite add_removed; [reflexivity | ]. destruct isScrollMode; cbn; auto.
Qed.

(** X17: after [applyThemeModeClass] the body carries exactly one of the
    two theme classes, the one for the requested mode, exactly once,
    whatever classes it carried before (both theme classes included);
    the other classes are kept in their order; a later call overrides an
    earlier one. *)
Theorem theme_class_last_call_wins (classList : DOMTokenList) (isDarkMode : bool) :
  exists result,
    applyThemeModeClass (Some classList) isDarkMode = Normal result
    /\ (In "theme-dark" result <-> isDarkMode = true)
    /\ (In "theme-light" result <-> isDarkMode = false)
    /\ count_occ string_dec result (if isDarkMode then "theme-dark" else "theme-light") = 1
    /\ remove ["theme-light"; "theme-dark"] result
       = remove ["theme-light"; "theme-dark"] classList
    /\ (forall again,
           applyThemeModeClass (Some result) again
           = applyThemeModeClass (Some classList) again).
Proof.
  eexists. split; [apply applyThemeModeClass_result | ].
  set (kept := remove ["theme-light"; "theme-dark"] classList).
  assert (Hkept : forall token, In token ["theme-light"; "theme-dark"] -> ~ In token kept).
  { intros token Hin Hk. apply In_remove in Hk. tauto. }
  assert (Hrest : remove ["theme-light"; "theme-dark"] (kept ++ [themeClass isDarkMode]) = kept).
  { rewrite remove_app. unfold kept at 1. rewrite remove_idempotent. fold kept.
    destruct isDarkMode; cbn; apply app_nil_r. }
  split; [ | split; [ | split; [ | split]]].
  - rewrite in_app_iff. split.
    + intros [Hk | Hin]; [exfalso; apply (Hkept "theme-dark"); cbn; auto | ].
      destruct isDarkMode; [reflexivity | ]. cbn in Hin. intuition discriminate.
    + intros ->. right. cbn. auto.
  - rewrite in_app_iff. split.
    + intros [Hk | Hin]; [exfalso; apply (Hkept "theme-light"); cbn; auto | ].
      destruct isDarkMode; [ | reflexivity]. cbn in Hin. intuition discriminate.
    + intros ->. right. cbn. auto.
  - rewrite count_occ_app.
    rewrite (proj1 (count_occ_not_In string_dec kept _)).
    + destruct isDarkMode; reflexivity.
    + apply Hkept. destruct isDarkMode; cbn; auto.
  - exact Hrest.
  - intros again. rewrite !applyThemeModeClass_result. fold kept. rewrite Hrest. reflexivity.
Qed.

(** X18: [applyThemeModeClass] and [applyScrollModeClass] do not disturb
    each other: applied in either order they leave the same set of
    classes (in a different order), with both the requested theme class
    and the requested scroll class present. *)
Theorem theme_and_scroll_classes_independent (classList : DOMTokenList)
  (isDarkMode isScrollMode : bool) :
  exists themeFirst scrollFirst,
    (withTheme <- applyThemeModeClass (Some classList) isDarkMode ;;
     applyScrollModeClass (Some withTheme) isScrollMode) = Normal themeFirst
    /\ (withScroll <- applyScrollModeClass (Some classList) isScrollMode ;;
        applyThemeModeClass (Some withScroll) isDarkMode) = Normal scrollFirst
    /\ Permutation themeFirst scrollFirst
    /\ In (if isDarkMode then "theme-dark" else "theme-light") themeFirst
    /\ In (if isScrollMode then "scroll-mode" else "paginated-mode") themeFirst.
Proof.
  eexists. eexists.
  rewrite !applyThemeModeClass_result, !applyScrollModeClass_result. cbn [bind].
  rewrite applyThemeModeClass_result, applyScrollModeClass_result.
  split; [reflexivity | split; [reflexivity | ]].
  rewrite !remove_app.
  replace (remove ["scroll-mode"; "paginated-mode"] [themeClass isDarkMode])
    with [themeClass isDarkMode] by (destruct isDarkMode; reflexivity).
  replace (remove ["theme-light"; "theme-dark"] [scrollClass isScrollMode])
    with [scrollClass isScrollMode] by (destruct isScrollMode; reflexivity).
  split; [ | split].
  - rewrite (remove_comm ["scroll-mode"; "paginated-mode"] ["theme-light"; "theme-dark"]).
    rewrite <- !app_assoc. apply Permutation_app_head. apply perm_swap.
  - rewrite !in_app_iff. left. right. left. reflexivity.
  - rewrite !in_app_iff. right. left. reflexivity.
Qed.

End ClassFacts.

(* ====================================================================== *)
(** * Matches and their captures *)
(* ====================================================================== *)

Module EngineFacts.
Import JS Regex.
Local Open Scope list_scope.

(** The capture groups of a pattern. *)
Fixpoint captures (r : re) : list nat :=
  match r with
  | Seq a b | Alt a b => captures a ++ captures b
  | Star a | Opt a => captures a
  | Grp n a => n :: captures a
  | Eps | Chr _ | Cls _ | Eol | WordB => []
  end.

(** [s'] is reached from [s] by reading [m] and recording captures of [r]. *)
Definition reaches (r : re) (s s' : mstate) (m : jsstring) : Prop :=
  rest s = m ++ rest s'
  /\ pos s' = (pos s + N.of_nat (List.length m))%N
  /\ exists new, caps s' = new ++ caps s
                 /\ forall n v, In (n, v) new -> In n (captures r).

Lemma reaches_refl (r : re) (s : mstate) : reaches r s s [].
Proof.
  unfold reaches. cbn. rewrite N.add_0_r. repeat split.
  exists []. split; [reflexivity | intros n v []].
Qed.

Lemma reaches_consumed (r : re) (s s' : mstate) (m : jsstring) :
  reaches r s s' m -> consumed s s' = m.
Proof.
  intros (Hrest & Hpos & _). unfold consumed. rewrite Hpos, Hrest.
  replace (pos s + N.of_nat (List.length m) - pos s)%N with (N.of_nat (List.length m)) by lia.
  rewrite Nat2N.id, firstn_app, Nat.sub_diag, firstn_all. cbn. apply app_nil_r.
Qed.

Lemma reaches_trans (a b r : re) (s1 s2 s3 : mstate) (m1 m2 : jsstring) :
  (forall n, In n (captures a) -> In n (captures r)) ->
  (forall n, In n (captures b) -> In n (captures r)) ->
  reaches a s1 s2 m1 -> reaches b s2 s3 m2 -> reaches r s1 s3 (m1 ++ m2).
Proof.
  intros Ha Hb (Hr1 & Hp1 & new1 & Hc1 & Hn1) (Hr2 & Hp2 & new2 & Hc2 & Hn2).
  unfold reaches. rewrite Hr1, Hr2, Hp2, Hp1, length_app, <- app_assoc.
  split; [reflexivity | split; [lia | ]].
  exists (new2 ++ new1). rewrite Hc2, Hc1, <- app_assoc. split; [reflexivity | ].
  intros n v Hin. apply in_app_or in Hin. destruct Hin as [Hin | Hin]; eauto.
Qed.

Lemma reaches_weaken (a r : re) (s s' : mstate) (m : jsstring) :
  (forall n, In n (captures a) -> In n (captures r)) ->
  reaches a s s' m -> reaches r s s' m.
Proof.
  intros Ha (Hr & Hp & new & Hc & Hn). unfold reaches. repeat split; auto.
  exists new. split; [exact Hc | ]. intros n v Hin. eauto.
Qed.

(** A successful run continued from a state it reached. *)
Lemma run_reaches (ic : bool) (r : re) :
  forall (s : mstate) (k : mstate -> option mstate) (res : mstate),
    run ic r s k = Some res ->
    exists s' m, reaches r s s' m /\ k s' = Some res.
Proof.
  induction r as [| c | f | a IHa b IHb | a IHa b IHb | a IHa | a IHa | n a IHa | |];
    intros s k res H; cbn [run] in H.
  - exists s, []. split; [apply reaches_refl | exact H].
  - destruct (rest s) as [| x t] eqn:Hrest; [discriminate | ].
    destruct (chrMatch ic c x); [ | discriminate].
    exists (advance s x t), [x]. split; [ | exact H].
    unfold reaches, advance. cbn. rewrite Hrest. repeat split; [lia | ].
    exists []. split; [reflexivity | intros n v []].
  - destruct (rest s) as [| x t] eqn:Hrest; [discriminate | ].
    destruct (f x); [ | discriminate].
    exists (advance s x t), [x]. split; [ | exact H].
    unfold reaches, advance. cbn. rewrite Hrest. repeat split; [lia | ].
    exists []. split; [reflexivity | intros n v []].
  - apply IHa in H. destruct H as (s1 & m1 & H1 & H).
    apply IHb in H. destruct H as (s2 & m2 & H2 & H).
    exists s2, (m1 ++ m2). split; [ | exact H].
    apply (reaches_trans a b (Seq a b) s s1 s2); auto;
      intros n Hn; cbn; apply in_or_app; auto.
  - destruct (run ic a s k) as [res' | ] eqn:Ha.
    + inversion H; subst res'. apply IHa in Ha. destruct Ha as (s1 & m1 & H1 & Hk).
      exists s1, m1. split; [ | exact Hk].
      apply (reaches_weaken a); [ | exact H1]. intros n Hn. cbn. apply in_or_app. auto.
    + apply IHb in H. destruct H as (s1 & m1 & H1 & Hk).
      exists s1, m1. split; [ | exact Hk].
      apply (reaches_weaken b); [ | exact H1]. intros n Hn. cbn. apply in_or_app. auto.
  - revert H. generalize (List.length (rest s)). intros n. revert s.
    induction n as [| n IHn]; intros s H.
    + exists s, []. split; [apply reaches_refl | exact H].
    + destruct (run ic a s (fun s' => if (pos s' =? pos s)%N then None else _)) as [res' | ] eqn:Ha.
      * inversion H; subst res'. apply IHa in Ha. destruct Ha as (s1 & m1 & H1 & Hk).
        destruct (pos s1 =? pos s)%N; [discriminate | ].
        apply IHn in Hk. destruct Hk as (s2 & m2 & H2 & Hk).
        exists s2, (m1 ++ m2). split; [ | exact Hk].
        apply (reaches_trans a (Star a) (Star a) s s1 s2); auto.
      * exists s, []. split; [apply reaches_refl | exact H].
  - destruct (run ic a s (fun s' => if (pos s' =? pos s)%N then None else k s')) as [res' | ] eqn:Ha.
    + inversion H; subst res'. apply IHa in Ha. destruct Ha as (s1 & m1 & H1 & Hk).
      destruct (pos s1 =? pos s)%N; [discriminate | ].
      exists s1, m1. split; [ | exact Hk]. apply (reaches_weaken a); auto.
    + exists s, []. split; [apply reaches_refl | exact H].
  - apply IHa in H. destruct H as (s1 & m1 & H1 & Hk).
    eexists _, m1. split; [ | exact Hk].
    destruct H1 as (Hr & Hp & new & Hc & Hn).
    unfold reaches. cbn [rest pos caps]. repeat split; auto.
    exists ((n, consumed s s1) :: new). rewrite Hc. split; [reflexivity | ].
    intros n' v [Heq | Hin]; cbn; [inversion Heq; auto | right; eauto].
  - destruct (rest s) eqn:Hrest; [ | discriminate].
    exists s, []. split; [apply reaches_refl | exact H].
  - destruct (xorb _ _); [ | discriminate].
    exists s, []. split; [apply reaches_refl | exact H].
Qed.

(** A match splits its input into the matched text and the text after it. *)
Lemma matchAt_splits (ic : bool) (r : re) (before : option char16) (input : jsstring)
  (res : result) :
  matchAt ic r before input = Some res -> input = matched res ++ after res.
Proof.
  unfold matchAt. set (s0 := mkState before 0 input []).
  destruct (run ic r s0 (fun s => Some s)) as [s1 | ] eqn:Hrun; [ | discriminate].
  intros H. inversion H; subst res. clear H. cbn [matched after].
  apply run_reaches in Hrun. destruct Hrun as (s' & m & Hreach & Hk).
  inversion Hk; subst s'. rewrite (reaches_consumed r s0 s1 m Hreach).
  destruct Hreach as (Hrest & _). exact Hrest.
Qed.

Lemma search_splits (ic : bool) (r : re) (input : jsstring) :
  forall before skipped res,
    search ic r before input = Some (skipped, res) ->
    input = skipped ++ matched res ++ after res.
Proof.
  induction input as [| c t IH]; intros before skipped res; cbn [search].
  - destruct (matchAt ic r before []) as [res' | ] eqn:Hm; [ | discriminate].
    intros H. inversion H; subst. apply (matchAt_splits _ _ _ _ _ Hm).
  - destruct (matchAt ic r before (c :: t)) as [res' | ] eqn:Hm.
    + intros H. inversion H; subst. apply (matchAt_splits _ _ _ _ _ Hm).
    + destruct (search ic r (Some c) t) as [[sk res'] | ] eqn:Hs; [ | discriminate].
      intros H. inversion H; subst. cbn. f_equal. apply (IH _ _ _ Hs).
Qed.

(** A replacement that writes back what was matched changes nothing. *)
Lemma replaceFrom_same (ic : bool) (r : re) (f : result -> jsstring) :
  (forall before input res, matchAt ic r before input = Some res -> f res = matched res) ->
  forall fuel before input, replaceFrom fuel ic r f before input = input.
Proof.
  intros Hf. induction fuel as [| fuel IH]; intros before input; cbn [replaceFrom]; [reflexivity | ].
  assert (Hstep : match input with
                  | [] => []
                  | c :: t => c :: replaceFrom fuel ic r f (Some c) t
                  end = input).
  { destruct input as [| c t]; [reflexivity | ]. rewrite IH. reflexivity. }
  destruct (matchAt ic r before input) as [res | ] eqn:Hm; [ | exact Hstep].
  rewrite (Hf _ _ _ Hm). assert (Hsplit := matchAt_splits _ _ _ _ _ Hm).
  destruct (matched res) as [| x m] eqn:Hmatched.
  - cbn. exact Hstep.
  - rewrite IH. symmetry. exact Hsplit.
Qed.

Lemma replaceAll_same (ic : bool) (r : re) (f : result -> jsstring) (input : jsstring) :
  (forall before input res, matchAt ic r before input = Some res -> f res = matched res) ->
  replaceAll ic r f input = input.
Proof. intros Hf. unfold replaceAll. apply replaceFrom_same. exact Hf. Qed.

End EngineFacts.

(* ====================================================================== *)
(** * Single passes of [transformStylesheet] *)
(* ====================================================================== *)

Module PassFacts.
Import JS Regex RegexFacts Style EngineFacts.
Local Open Scope string_scope.
Local Open Scope list_scope.

(** Two capture groups in sequence split the matched text between them. *)
Lemma two_groups (ic : bool) (a b : re) (n1 n2 : nat) (before : option char16)
  (input : jsstring) (res : result) :
  captures a = [] -> captures b = [] -> n1 <> n2 ->
  matchAt ic (Seq (Grp n1 a) (Grp n2 b)) before input = Some res ->
  matched res = sub n1 res ++ sub n2 res.
Proof.
  intros Ha Hb Hn. unfold matchAt. set (s0 := mkState before 0 input []).
  destruct (run ic (Seq (Grp n1 a) (Grp n2 b)) s0 (fun s => Some s)) as [s3 | ] eqn:Hrun;
    [ | discriminate].
  intros H. inversion H; subst res. clear H. unfold sub. cbn [matched groups].
  cbn [run] in Hrun.
  apply run_reaches in Hrun. destruct Hrun as (s1 & m1 & H1 & Hrun).
  apply run_reaches in Hrun. destruct Hrun as (s2 & m2 & H2 & Hrun).
  inversion Hrun; subst s3. clear Hrun.
  assert (Hc1 := reaches_consumed _ _ _ _ H1).
  assert (Hc2 := reaches_consumed _ _ _ _ H2).
  destruct H1 as (Hr1 & Hp1 & new1 & Hcaps1 & Hnew1).
  destruct H2 as (Hr2 & Hp2 & new2 & Hcaps2 & Hnew2).
  rewrite Ha in Hnew1. rewrite Hb in Hnew2.
  assert (new1 = []) by (destruct new1 as [| [n v] l]; [reflexivity | destruct (Hnew1 n v (or_introl eq_refl))]).
  assert (new2 = []) by (destruct new2 as [| [n v] l]; [reflexivity | destruct (Hnew2 n v (or_introl eq_refl))]).
  subst new1 new2. cbn [app rest pos caps] in *.
  rewrite Hcaps2. cbn [group].
  rewrite Nat.eqb_refl. rewrite (proj2 (Nat.eqb_neq n2 n1)) by congruence.
  rewrite Nat.eqb_refl.
  unfold consumed in *. cbn [pos rest] in *. rewrite Hc1, Hc2.
  rewrite Hp2, Hp1, Hr1, Hr2.
  replace (pos s0 + N.of_nat (List.length m1) + N.of_nat (List.length m2) - pos s0)%N
    with (N.of_nat (List.length (m1 ++ m2))) by (rewrite length_app; lia).
  rewrite Nat2N.id, app_assoc, firstn_app, Nat.sub_diag, firstn_all. cbn. apply app_nil_r.
Qed.

Lemma rule_groups (before : option char16) (input : jsstring) (res : result) :
  matchAt false ruleRegex before input = Some res ->
  matched res = sub 1 res ++ sub 2 res.
Proof. apply two_groups; [reflexivity | reflexivity | discriminate]. Qed.

(** X19: with [vertical] set, the duokan-bleed pass gives every rule
    back as it matched it (selector and block are the two halves of the
    match), so the pass leaves every style sheet unchanged. *)
Theorem vertical_disables_bleed (css : jsstring) :
  replaceAll false ruleRegex (duokanBleed true) css = css.
Proof.
  apply replaceAll_same. intros before input res Hm.
  unfold duokanBleed. symmetry. apply (rule_groups before input res Hm).
Qed.

(** ** Declaration lists without braces *)

Definition brace (c : char16) : bool := (c =? code "{")%N.

Lemma includesChar_unmarked (css : jsstring) :
  includesChar (code "{") css = false <-> unmarked brace css.
Proof.
  unfold includesChar, unmarked. induction css as [| c t IH].
  - split; [constructor | reflexivity].
  - cbn [existsb]. rewrite orb_false_iff, IH. unfold brace at 2. split.
    + intros [Hc Ht]. constructor; [rewrite N.eqb_sym; exact Hc | exact Ht].
    + intros H. inversion H as [| ? ? Hc Ht]; subst.
      split; [rewrite N.eqb_sym; exact Hc | exact Ht].
Qed.

Lemma needs_brace : needs false brace ruleRegex.
Proof.
  cbn. right. left. intros x Hx. unfold chrMatch in Hx. unfold brace.
  rewrite N.eqb_sym. exact Hx.
Qed.

Lemma unmarked_app (marked : char16 -> bool) (a b : jsstring) :
  unmarked marked (a ++ b) <-> unmarked marked a /\ unmarked marked b.
Proof. apply Forall_app. Qed.

Lemma replaceFirst_unmarked (marked : char16 -> bool) (ic : bool) (r : re)
  (f : result -> jsstring) (input : jsstring) :
  (forall res, unmarked marked (f res)) ->
  unmarked marked input -> unmarked marked (replaceFirst ic r f input).
Proof.
  intros Hf H. unfold replaceFirst.
  destruct (search ic r None input) as [[skipped res] | ] eqn:Hs; [ | exact H].
  apply search_splits in Hs. rewrite Hs in H.
  apply unmarked_app in H. destruct H as [Hsk H].
  apply unmarked_app in H. destruct H as [_ Hafter].
  apply unmarked_app. split; [exact Hsk | ]. apply unmarked_app. split; [apply Hf | exact Hafter].
Qed.

Lemma pageBreakInline_unmarked (css : jsstring) :
  unmarked brace css -> unmarked brace (pageBreakInline css).
Proof.
  intros H. unfold pageBreakInline.
  destruct (_ && _); [ | exact H].
  apply unmarked_app. split.
  - apply replaceFirst_unmarked; [intros res; constructor | exact H].
  - unfold unmarked. apply Forall_forall. intros c Hc.
    assert (Hall : forallb (fun c => negb (brace c))
                     (str "; margin-bottom: calc(var(--available-height) * 1px)") = true)
      by (vm_compute; reflexivity).
    rewrite forallb_forall in Hall. apply Hall in Hc. apply negb_true_iff in Hc. exact Hc.
Qed.

(** X20: CSS text without an opening brace (an inline style) has no rule
    for the rule passes to match, before or after the page-break pass, so
    its transform does not depend on the [vertical] flag. *)
Theorem inline_style_ignores_vertical (platform : string) (css : jsstring)
  (vw vh : Number.number) :
  includesChar (code "{") css = false ->
  transformStylesheet platform css vw vh true = transformStylesheet platform css vw vh false.
Proof.
  intros Hinc. assert (H := proj1 (includesChar_unmarked css) Hinc).
  unfold transformStylesheet. cbv zeta.
  rewrite (replaceAll_needs false brace ruleRegex needs_brace hardenAlignment css H).
  rewrite (replaceAll_needs false brace ruleRegex needs_brace clipNowrap css H).
  rewrite Hinc. cbn [negb].
  assert (H3 := pageBreakInline_unmarked css H).
  rewrite (replaceAll_needs false brace ruleRegex needs_brace (duokanBleed true) _ H3).
  rewrite (replaceAll_needs false brace ruleRegex needs_brace (duokanBleed false) _ H3).
  reflexivity.
Qed.

(** ** The page-break pass on declaration lists *)

Lemma search_suffix (ic : bool) (r : re) (suffix : jsstring) :
  (forall before, search ic r before suffix <> None) ->
  forall (input : jsstring) (before : option char16),
    search ic r before (input ++ suffix) <> None.
Proof.
  intros Hsuffix. induction input as [| c t IH]; intros before; [apply Hsuffix | ].
  cbn [app search]. destruct (matchAt ic r before (c :: t ++ suffix)); [discriminate | ].
  specialize (IH (Some c)). destruct (search ic r (Some c) (t ++ suffix)) as [[sk res] | ];
    [discriminate | congruence].
Qed.

Lemma margin_bottom_found (css : jsstring) :
  test false (colon "margin-bottom")
    (css ++ str "; margin-bottom: calc(var(--available-height) * 1px)") = true.
Proof.
  unfold test.
  assert (H := search_suffix false (colon "margin-bottom")
                 (str "; margin-bottom: calc(var(--available-height) * 1px)")).
  destruct (search false (colon "margin-bottom") None
              (css ++ str "; margin-bottom: calc(var(--available-height) * 1px)"))
    as [found | ] eqn:Hs; [reflexivity | ].
  exfalso. apply (H ltac:(intros before; vm_compute; discriminate) css None). exact Hs.
Qed.

(** X21: the page-break pass on a declaration list is idempotent: once
    the bottom margin has been appended, the pass finds a [margin-bottom]
    declaration and leaves the text alone, so the margin is appended at
    most once. *)
Theorem pageBreakInline_idempotent (css : jsstring) :
  pageBreakInline (pageBreakInline css) = pageBreakInline css.
Proof.
  unfold pageBreakInline at 2 3.
  destruct (test false (seq [decl "page-break-after" "always"; ws; Opt (Chr (code ";"))]) css
            && negb (test false (colon "margin-bottom") css)) eqn:Hcond.
  - unfold pageBreakInline. rewrite margin_bottom_found. cbn [negb].
    rewrite andb_false_r. reflexivity.
  - unfold pageBreakInline. rewrite Hcond. reflexivity.
Qed.

Lemma inline_style_ignores_vertical_witness :
  transformStylesheet "macos" Samples.pageBreak (Number.ofZ 800) (Number.ofZ 600) true
  = transformStylesheet "macos" Samples.pageBreak (Number.ofZ 800) (Number.ofZ 600) false.
Proof.
  exact (inline_style_ignores_vertical "macos" Samples.pageBreak
           (Number.ofZ 800) (Number.ofZ 600) eq_refl).
Defined.

End PassFacts.

(* ====================================================================== *)
(** * Style sheets, rule by rule *)
(* ====================================================================== *)

Module RuleFacts.
Import JS Regex RegexFacts Style EngineFacts PassFacts.
Local Open Scope string_scope.
Local Open Scope list_scope.

(** ** Greedy runs of a character class *)

(** The loop of [Star]. *)
Definition starLoop (ic : bool) (a : re) (k : mstate -> option mstate)
  : nat -> mstate -> option mstate :=
  fix loop (n : nat) (s : mstate) {struct n} : option mstate :=
    match n with
    | 0 => k s
    | S n' =>
        match run ic a s
                (fun s' => if (pos s' =? pos s)%N then None else loop n' s') with
        | Some s' => Some s'
        | None => k s
        end
    end.

Lemma run_Star (ic : bool) (a : re) (s : mstate) (k : mstate -> option mstate) :
  run ic (Star a) s k = starLoop ic a k (List.length (rest s)) s.
Proof. reflexivity. Qed.

(** The state after reading [m], with [t] left. *)
Definition afterReading (s : mstate) (m t : jsstring) : mstate :=
  mkState (lastChar (prev s) m) (pos s + N.of_nat (List.length m)) t (caps s).

(** The next code unit, if any, is not in the class. *)
Definition stops (f : char16 -> bool) (t : jsstring) : Prop :=
  match t with
  | [] => True
  | x :: _ => f x = false
  end.

Lemma afterReading_nil (s : mstate) : afterReading s [] (rest s) = s.
Proof.
  unfold afterReading. cbn. rewrite N.add_0_r. destruct s; reflexivity.
Qed.

Lemma afterReading_cons (s : mstate) (x : char16) (m t : jsstring) :
  afterReading (advance s x (m ++ t)) m t = afterReading s (x :: m) t.
Proof.
  unfold afterReading, advance. cbn [prev pos caps lastChar List.length]. f_equal. lia.
Qed.

Lemma starLoop_greedy (ic : bool) (f : char16 -> bool) (k : mstate -> option mstate)
  (t : jsstring) (r : mstate) :
  stops f t ->
  forall (m : jsstring) (n : nat) (s : mstate),
    rest s = m ++ t ->
    forallb f m = true ->
    List.length m <= n ->
    k (afterReading s m t) = Some r ->
    starLoop ic (Cls f) k n s = Some r.
Proof.
  intros Hstop. induction m as [| x m IH]; intros n s Hrest Hall Hn Hk.
  - cbn [app] in Hrest. rewrite <- Hrest, afterReading_nil in Hk.
    destruct n as [| n]; cbn [starLoop]; [exact Hk | ].
    cbn [run]. rewrite Hrest. destruct t as [| y t]; [exact Hk | ].
    cbn in Hstop. rewrite Hstop. exact Hk.
  - destruct n as [| n]; [cbn in Hn; lia | ].
    cbn [forallb] in Hall. apply andb_true_iff in Hall. destruct Hall as [Hx Hall].
    cbn [starLoop run]. rewrite Hrest. cbn [app]. rewrite Hx.
    assert (Hpos : (pos (advance s x (m ++ t)) =? pos s)%N = false).
    { apply N.eqb_neq. unfold advance. cbn [pos]. lia. }
    rewrite Hpos.
    rewrite (IH n (advance s x (m ++ t))); [reflexivity | reflexivity | exact Hall | | ].
    + cbn in Hn. lia.
    + rewrite afterReading_cons. exact Hk.
Qed.

Lemma plus_greedy (ic : bool) (f : char16 -> bool) (k : mstate -> option mstate)
  (m t : jsstring) (s r : mstate) :
  stops f t ->
  rest s = m ++ t ->
  m <> [] ->
  forallb f m = true ->
  k (afterReading s m t) = Some r ->
  run ic (Plus (Cls f)) s k = Some r.
Proof.
  intros Hstop Hrest Hne Hall Hk. destruct m as [| x m]; [congruence | ].
  cbn [forallb] in Hall. apply andb_true_iff in Hall. destruct Hall as [Hx Hall].
  unfold Plus. cbn [run]. rewrite Hrest. cbn [app]. rewrite Hx.
  change (run ic (Star (Cls f)) (advance s x (m ++ t)) k = Some r).
  rewrite run_Star. cbn [advance rest].
  apply (starLoop_greedy ic f k t r Hstop m); try reflexivity; try assumption.
  - rewrite length_app. lia.
  - rewrite afterReading_cons. exact Hk.
Qed.

(** ** One rule *)

Definition notOpen (c : char16) : bool := negb (existsb (N.eqb c) (str "{")).
Definition notClose (c : char16) : bool := negb (existsb (N.eqb c) (str "}")).

(** The block of a rule: the declarations in braces. *)
Definition block (body : jsstring) : jsstring := code "{" :: body ++ [code "}"].

(** What the rule pattern yields on a rule. *)
Definition ruleMatch (sel body more : jsstring) : result :=
  mkResult (sel ++ block body) [(2, block body); (1, sel)] more.

Lemma firstn_prefix {A} (a b : list A) (n : nat) :
  n = List.length a -> firstn n (a ++ b) = a.
Proof.
  intros ->. rewrite firstn_app, Nat.sub_diag, firstn_all. cbn. apply app_nil_r.
Qed.

Lemma matchAt_rule (before : option char16) (sel body more : jsstring) :
  sel <> [] -> forallb notOpen sel = true ->
  body <> [] -> forallb notClose body = true ->
  matchAt false ruleRegex before (sel ++ block body ++ more)
  = Some (ruleMatch sel body more).
Proof.
  intros Hsel Hopen Hbody Hclose. unfold matchAt.
  set (input := sel ++ block body ++ more).
  set (s0 := mkState before 0 input []).
  assert (Hrun : exists sF,
             run false ruleRegex s0 (fun s => Some s) = Some sF
             /\ pos sF = N.of_nat (List.length (sel ++ block body))
             /\ rest sF = more
             /\ caps sF = [(2, block body); (1, sel)]).
  { eexists. split.
    - unfold ruleRegex. cbn [run]. unfold noneOf at 1.
      eapply (plus_greedy false _ _ sel (block body ++ more)).
      + reflexivity.
      + reflexivity.
      + exact Hsel.
      + exact Hopen.
      + cbn [seq fold_right run afterReading rest block app].
        unfold chrMatch at 1. rewrite N.eqb_refl. unfold noneOf.
        eapply (plus_greedy false _ _ body (code "}" :: more)).
        * reflexivity.
        * cbn [advance rest]. rewrite <- app_assoc. reflexivity.
        * exact Hbody.
        * exact Hclose.
        * cbn [run afterReading rest]. unfold chrMatch. rewrite N.eqb_refl. reflexivity.
    - unfold advance, afterReading, s0. cbn [pos rest caps prev].
      split; [ | split; [reflexivity | ]].
      + unfold block. rewrite length_app. cbn [List.length].
        rewrite length_app. cbn [List.length]. lia.
      + unfold consumed. cbn [pos rest]. f_equal; f_equal.
        * replace (N.to_nat _) with (List.length (block body))
            by (unfold block; cbn [List.length]; rewrite length_app; cbn [List.length]; lia).
          change (code "{" :: (body ++ [code "}"]) ++ more) with (block body ++ more).
          apply firstn_prefix. reflexivity.
        * f_equal. apply firstn_prefix. lia. }
  destruct Hrun as (sF & -> & Hpos & Hrest & Hcaps).
  unfold ruleMatch. rewrite Hrest, Hcaps. f_equal. f_equal.
  unfold consumed. rewrite Hpos. cbn [pos rest s0]. rewrite N.sub_0_r, Nat2N.id.
  unfold input. rewrite app_assoc. apply firstn_prefix. reflexivity.
Qed.

(** ** A sheet of rules *)

(** A rule is a selector and the declarations of its block. *)
Definition rule (r : jsstring * jsstring) : jsstring := fst r ++ block (snd r).

(** The selector is not empty and has no opening brace; the declarations
    are not empty and have no closing brace. *)
Definition wellFormedRule (r : jsstring * jsstring) : Prop :=
  fst r <> [] /\ forallb notOpen (fst r) = true
  /\ snd r <> [] /\ forallb notClose (snd r) = true.

(** Rules one after the other, then text without an opening brace. *)
Fixpoint sheet (rules : list (jsstring * jsstring)) (tail : jsstring) : jsstring :=
  match rules with
  | [] => tail
  | r :: rs => rule r ++ sheet rs tail
  end.

(** Each rule replaced by what the callback returns for it. *)
Fixpoint rewritten (f : result -> jsstring) (rules : list (jsstring * jsstring))
  (tail : jsstring) : jsstring :=
  match rules with
  | [] => tail
  | r :: rs => f (ruleMatch (fst r) (snd r) (sheet rs tail)) ++ rewritten f rs tail
  end.

Lemma replaceFrom_sheet (f : result -> jsstring) (tail : jsstring) :
  unmarked brace tail ->
  forall (rules : list (jsstring * jsstring)) (fuel : nat) (before : option char16),
    Forall wellFormedRule rules ->
    List.length (sheet rules tail) < fuel ->
    replaceFrom fuel false ruleRegex f before (sheet rules tail) = rewritten f rules tail.
Proof.
  intros Htail. induction rules as [| [sel body] rs IH]; intros fuel before Hwf Hfuel.
  - cbn [sheet rewritten]. apply (replaceFrom_needs false brace ruleRegex needs_brace).
    exact Htail.
  - inversion Hwf as [| ? ? (Hsel & Hopen & Hbody & Hclose) Hrs]; subst.
    cbn [fst snd] in *. cbn [sheet rewritten rule fst snd] in *.
    destruct fuel as [| fuel]; [lia | ]. cbn [replaceFrom].
    unfold rule in *. cbn [fst snd] in *. rewrite <- app_assoc in *.
    rewrite (matchAt_rule before sel body (sheet rs tail) Hsel Hopen Hbody Hclose).
    cbn [ruleMatch matched after]. destruct sel as [| c sel]; [congruence | ].
    cbn [app]. f_equal. apply IH; [exact Hrs | ].
    rewrite !length_app in Hfuel. cbn [List.length] in Hfuel. lia.
Qed.

Lemma replaceAll_sheet (f : result -> jsstring) (rules : list (jsstring * jsstring))
  (tail : jsstring) :
  Forall wellFormedRule rules -> unmarked brace tail ->
  replaceAll false ruleRegex f (sheet rules tail) = rewritten f rules tail.
Proof.
  intros Hwf Htail. unfold replaceAll. apply replaceFrom_sheet; auto.
Qed.

(** ** Appending a declaration to a block *)

Lemma search_closing (x : jsstring) :
  forallb notClose x = true ->
  forall before,
    search false closingBrace before (x ++ [code "}"])
    = Some (x, mkResult [code "}"] [] []).
Proof.
  induction x as [| c x IH]; intros Hx before.
  - reflexivity.
  - cbn [forallb] in Hx. apply andb_true_iff in Hx. destruct Hx as [Hc Hx].
    assert (Hne : (code "}" =? c)%N = false).
    { unfold notClose in Hc. cbn [str existsb] in Hc.
      rewrite orb_false_r in Hc. apply negb_true_iff in Hc.
      rewrite N.eqb_sym. exact Hc. }
    cbn [app search]. unfold matchAt at 1, closingBrace at 1. cbn [run rest].
    unfold chrMatch. rewrite Hne. rewrite (IH Hx (Some c)). reflexivity.
Qed.

Lemma beforeClosingBrace_block (text : string) (body : jsstring) :
  forallb notClose body = true ->
  beforeClosingBrace text (block body) = code "{" :: body ++ str text.
Proof.
  intros Hbody. unfold beforeClosingBrace, replaceFirst, block.
  change (code "{" :: body ++ [code "}"]) with ((code "{" :: body) ++ [code "}"]).
  rewrite search_closing by (cbn [forallb]; rewrite Hbody; reflexivity).
  cbn [after]. rewrite app_nil_r. reflexivity.
Qed.

Section AppendPass.
(** A pass that appends a declaration for [prop] to the blocks that pass
    [cond] and do not declare [prop] yet. *)
Variable cond : jsstring -> bool.
Variable prop : string.
Variable text : string.
Variable ins : jsstring.
Hypothesis text_ins : str text = ins ++ [code "}"].
Hypothesis ins_closed : forallb notClose ins = true.
Hypothesis found : forall x, test false (colon prop) (x ++ ins ++ [code "}"]) = true.

Definition appendPass (res : result) : jsstring :=
  let declarations := sub 2 res in
  if cond declarations then
    let block1 :=
      if negb (test false (colon prop) declarations)
      then beforeClosingBrace text declarations
      else declarations in
    sub 1 res ++ block1
  else matched res.

Definition amend (body : jsstring) : jsstring :=
  if cond (block body) && negb (test false (colon prop) (block body))
  then body ++ ins else body.

Lemma appendPass_rule (sel body more : jsstring) :
  forallb notClose body = true ->
  appendPass (ruleMatch sel body more) = rule (sel, amend body).
Proof.
  intros Hbody. unfold appendPass, amend, rule, ruleMatch, sub.
  cbn [groups group Nat.eqb matched fst snd].
  destruct (cond (block body)); cbn [andb]; [ | reflexivity].
  destruct (test false (colon prop) (block body)); cbn [negb]; [reflexivity | ].
  rewrite (beforeClosingBrace_block text body Hbody), text_ins.
  unfold block. rewrite <- app_assoc. reflexivity.
Qed.

Lemma amend_idempotent (body : jsstring) : amend (amend body) = amend body.
Proof.
  unfold amend at 2 3.
  destruct (cond (block body) && negb (test false (colon prop) (block body))) eqn:Hc.
  - unfold amend. unfold block at 2.
    replace (code "{" :: (body ++ ins) ++ [code "}"])
      with ((code "{" :: body) ++ ins ++ [code "}"])
      by (cbn [app]; rewrite <- app_assoc; reflexivity).
    rewrite found. cbn [negb]. rewrite andb_false_r. reflexivity.
  - unfold amend. rewrite Hc. reflexivity.
Qed.

Lemma amend_wellFormed (r : jsstring * jsstring) :
  wellFormedRule r -> wellFormedRule (fst r, amend (snd r)).
Proof.
  intros (Hsel & Hopen & Hbody & Hclose). unfold wellFormedRule, amend. cbn [fst snd].
  repeat split; try assumption.
  - destruct (_ && _); [ | exact Hbody].
    destruct (snd r); [congruence | discriminate].
  - destruct (_ && _); [ | exact Hclose].
    rewrite forallb_app, Hclose, ins_closed. reflexivity.
Qed.

Lemma rewritten_amended (tail : jsstring) (rules : list (jsstring * jsstring)) :
  Forall wellFormedRule rules ->
  rewritten appendPass rules tail
  = sheet (map (fun r => (fst r, amend (snd r))) rules) tail.
Proof.
  induction 1 as [| r rs (Hsel & Hopen & Hbody & Hclose) _ IH]; [reflexivity | ].
  cbn [rewritten map sheet]. rewrite (appendPass_rule _ _ _ Hclose), IH. reflexivity.
Qed.

Lemma appendPass_sheet (rules : list (jsstring * jsstring)) (tail : jsstring) :
  Forall wellFormedRule rules -> unmarked brace tail ->
  replaceAll false ruleRegex appendPass (sheet rules tail)
  = sheet (map (fun r => (fst r, amend (snd r))) rules) tail.
Proof.
  intros Hwf Htail. rewrite (replaceAll_sheet appendPass rules tail Hwf Htail).
  apply rewritten_amended. exact Hwf.
Qed.

Lemma appendPass_idempotent (rules : list (jsstring * jsstring)) (tail : jsstring) :
  Forall wellFormedRule rules -> unmarked brace tail ->
  replaceAll false ruleRegex appendPass
    (replaceAll false ruleRegex appendPass (sheet rules tail))
  = replaceAll false ruleRegex appendPass (sheet rules tail).
Proof.
  intros Hwf Htail. rewrite (appendPass_sheet rules tail Hwf Htail).
  rewrite appendPass_sheet; [ | | exact Htail].
  - f_equal. rewrite map_map. apply map_ext. intros r. cbn [fst snd].
    rewrite amend_idempotent. reflexivity.
  - apply Forall_forall. intros r Hr. apply in_map_iff in Hr.
    destruct Hr as (r0 & <- & Hr0). apply amend_wellFormed.
    rewrite Forall_forall in Hwf. apply Hwf. exact Hr0.
Qed.

End AppendPass.

Lemma test_found (r : re) (suffix : jsstring) :
  (forall before, search false r before suffix <> None) ->
  forall x, test false r (x ++ suffix) = true.
Proof.
  intros Hs x. unfold test.
  destruct (search false r None (x ++ suffix)) as [found | ] eqn:H; [reflexivity | ].
  exfalso. exact (search_suffix false r suffix Hs x None H).
Qed.

(** ** The two passes that append one declaration *)

Definition hasNowrap (declarations : jsstring) : bool :=
  test false (seq [decl "white-space" "nowrap"; ws; anyOf ";$"]) declarations.

Definition hasPageBreak (declarations : jsstring) : bool :=
  test false (seq [decl "page-break-after" "always"; ws; anyOf ";$"]) declarations.

(** The declarations of a rule after the clipping pass. *)
Definition clipped (body : jsstring) : jsstring :=
  if hasNowrap (block body) && negb (test false (colon "overflow") (block body))
  then body ++ str " overflow: clip !important; " else body.

(** The declarations of a rule after the page-break pass. *)
Definition broken (body : jsstring) : jsstring :=
  if hasPageBreak (block body) && negb (test false (colon "margin-bottom") (block body))
  then body ++ str " margin-bottom: calc(var(--available-height) * 1px); " else body.

(** X23: on a sheet of well-formed rules, every rule pass calls its
    callback once for each rule, in order, with the whole rule as the
    match, the selector as the first capture and the block in braces as
    the second; the text after the last rule is copied. *)
Theorem rules_rewritten_one_by_one (f : result -> jsstring)
  (rules : list (jsstring * jsstring)) (tail : jsstring) :
  Forall wellFormedRule rules -> unmarked brace tail ->
  replaceAll false ruleRegex f (sheet rules tail) = rewritten f rules tail.
Proof. apply replaceAll_sheet. Qed.

(** X24: on a sheet of well-formed rules the clipping pass appends
    [overflow: clip !important;] to the declarations of exactly the
    rules that set [white-space: nowrap] and declare no [overflow], and
    changes nothing else; applying the pass again changes nothing. *)
Theorem nowrap_rules_clipped_once (rules : list (jsstring * jsstring)) (tail : jsstring) :
  Forall wellFormedRule rules -> unmarked brace tail ->
  replaceAll false ruleRegex clipNowrap (sheet rules tail)
  = sheet (map (fun r => (fst r, clipped (snd r))) rules) tail
  /\ replaceAll false ruleRegex clipNowrap
       (replaceAll false ruleRegex clipNowrap (sheet rules tail))
     = replaceAll false ruleRegex clipNowrap (sheet rules tail).
Proof.
  intros Hwf Htail.
  assert (Hfound : forall x,
             test false (colon "overflow")
               (x ++ str " overflow: clip !important; " ++ [code "}"]) = true).
  { apply test_found. intros before. vm_compute. discriminate. }
  split.
  - apply (appendPass_sheet hasNowrap "overflow" " overflow: clip !important; }"
             (str " overflow: clip !important; ") eq_refl rules tail Hwf Htail).
  - apply (appendPass_idempotent hasNowrap "overflow" " overflow: clip !important; }"
             (str " overflow: clip !important; ") eq_refl eq_refl Hfound rules tail Hwf Htail).
Qed.

(** X25: on a sheet of well-formed rules the page-break pass appends the
    bottom margin to the declarations of exactly the rules that set
    [page-break-after: always] and declare no [margin-bottom], and
    changes nothing else; applying the pass again changes nothing. *)
Theorem page_break_rules_padded_once (rules : list (jsstring * jsstring)) (tail : jsstring) :
  Forall wellFormedRule rules -> unmarked brace tail ->
  replaceAll false ruleRegex pageBreakRule (sheet rules tail)
  = sheet (map (fun r => (fst r, broken (snd r))) rules) tail
  /\ replaceAll false ruleRegex pageBreakRule
       (replaceAll false ruleRegex pageBreakRule (sheet rules tail))
     = replaceAll false ruleRegex pageBreakRule (sheet rules tail).
Proof.
  intros Hwf Htail.
  assert (Hfound : forall x,
             test false (colon "margin-bottom")
               (x ++ str " margin-bottom: calc(var(--available-height) * 1px); "
                  ++ [code "}"]) = true).
  { apply test_found. intros before. vm_compute. discriminate. }
  split.
  - apply (appendPass_sheet hasPageBreak "margin-bottom"
             " margin-bottom: calc(var(--available-height) * 1px); }"
             (str " margin-bottom: calc(var(--available-height) * 1px); ")
             eq_refl rules tail Hwf Htail).
  - apply (appendPass_idempotent hasPageBreak "margin-bottom"
             " margin-bottom: calc(var(--available-height) * 1px); }"
             (str " margin-bottom: calc(var(--available-height) * 1px); ")
             eq_refl eq_refl Hfound rules tail Hwf Htail).
Qed.

Lemma rules_rewritten_one_by_one_witness :
  replaceAll false ruleRegex (fun res => sub 1 res)
    (str "h1{margin:0}p{color:red} /* end */")
  = str "h1p /* end */".
Proof.
  assert (Hwf : Forall wellFormedRule
                  [(str "h1", str "margin:0"); (str "p", str "color:red")]).
  { constructor; [ | constructor; [ | constructor]];
      repeat split; (discriminate || reflexivity). }
  assert (Htail : unmarked brace (str " /* end */")) by (repeat constructor).
  exact (rules_rewritten_one_by_one (fun res => sub 1 res)
           [(str "h1", str "margin:0"); (str "p", str "color:red")]
           (str " /* end */") Hwf Htail).
Defined.

Lemma nowrap_rules_clipped_once_witness :
  replaceAll false ruleRegex clipNowrap (str "p{ white-space: nowrap; }")
  = str "p{ white-space: nowrap;  overflow: clip !important; }".
Proof.
  assert (Hwf : Forall wellFormedRule [(str "p", str " white-space: nowrap; ")]).
  { constructor; [ | constructor]. repeat split; (discriminate || reflexivity). }
  assert (Htail : unmarked brace []) by constructor.
  change (str "p{ white-space: nowrap; }")
    with (sheet [(str "p", str " white-space: nowrap; ")] []).
  rewrite (proj1 (nowrap_rules_clipped_once _ _ Hwf Htail)).
  vm_compute. reflexivity.
Defined.

Lemma page_break_rules_padded_once_witness :
  replaceAll false ruleRegex pageBreakRule (str "div{page-break-after:always;}")
  = str "div{page-break-after:always; margin-bottom: calc(var(--available-height) * 1px); }".
Proof.
  assert (Hwf : Forall wellFormedRule [(str "div", str "page-break-after:always;")]).
  { constructor; [ | constructor]. repeat split; (discriminate || reflexivity). }
  assert (Htail : unmarked brace []) by constructor.
  change (str "div{page-break-after:always;}")
    with (sheet [(str "div", str "page-break-after:always;")] []).
  rewrite (proj1 (page_break_rules_padded_once _ _ Hwf Htail)).
  vm_compute. reflexivity.
Defined.

End RuleFacts.
